(** * Verification of the MIDI decoder of genshin-impact-midi-player

    Shallow embedding of [src/midi_converter.py] (class [MidiFile]) and the
    properties the specification states about it. *)

From Stdlib Require Import ZArith List String Ascii Bool Lia QArith.
From Stdlib Require Import Sorted Permutation.
From Stdlib.Strings Require Import Byte.
From Stdlib Require Import PrimFloat FloatOps SpecFloat Uint63.
From Equations Require Import Equations.
Import ListNotations.

Local Open Scope Z_scope.

(** ** Python values and exceptions *)

(** The exceptions the decoder can raise.  [OutOfFuel] is not a Python
    outcome: it marks a loop of the model that was cut before the source loop
    would have ended. *)
Inductive exn : Type :=
| IndexError
| ZeroDivisionError
| OverflowError
| ValueError.

Inductive result (A : Type) : Type :=
| OK (a : A)
| Raise (e : exn)
| OutOfFuel.

Arguments OK {A} a.
Arguments Raise {A} e.
Arguments OutOfFuel {A}.

(** Value of one element of a [bytearray]: an integer in [0, 256). *)
Definition byte_val (b : byte) : Z := Z.of_N (Byte.to_N b).

(** [l[i]] on a Python sequence: a negative index counts from the end. *)
Definition getitem {A} (l : list A) (i : Z) : result A :=
  let n := Z.of_nat (List.length l) in
  let j := if i <? 0 then i + n else i in
  if (0 <=? j) && (j <? n) then
    match nth_error l (Z.to_nat j) with
    | Some x => OK x
    | None => Raise IndexError
    end
  else Raise IndexError.

(** Bound of a slice: negative bounds count from the end, and every bound is
    clamped to [0, len]. *)
Definition slice_bound (n i : Z) : Z :=
  if i <? 0 then Z.max (i + n) 0 else Z.min i n.

(** [l[a:b]]: never raises, the slice is cut at the end of the sequence. *)
Definition getslice {A} (l : list A) (a b : Z) : list A :=
  let n := Z.of_nat (List.length l) in
  let a' := slice_bound n a in
  let b' := slice_bound n b in
  firstn (Z.to_nat (b' - a')) (skipn (Z.to_nat a') l).

(** A note of [self.notes]: the Python list [[time, symbols]].  The time is a
    finite float, the quotient [delta_time / division]; it is represented by
    the rational number it stands for, on which [==] and [<] of finite floats
    are the comparisons of rationals (the sign of a zero is not kept). *)
Definition note : Type := (Q * string)%type.

(** Nearest integer of [a / b] for [0 < b], ties to even. *)
Definition round_div (a b : Z) : Z :=
  let q := a / b in
  let r := a mod b in
  if 2 * r <? b then q
  else if b <? 2 * r then q + 1
  else if Z.even q then q else q + 1.

(** The binary64 number nearest to [n / d] for [0 < n] and [0 < d], as a
    mantissa [m] and an exponent [u] with value [m * 2^u]: [u] is the exponent
    of the last of the 53 bits of the quotient, and not below that of the
    subnormal numbers. *)
Definition nearest_binary64 (n d : Z) : Z * Z :=
  let k := Z.log2 n - Z.log2 d in
  let above := if 0 <=? k then d * 2 ^ k <=? n else d <=? n * 2 ^ (- k) in
  let e := if above then k else k - 1 in
  let u := Z.max (e - 52) (-1074) in
  let m := if 0 <=? u then round_div n (d * 2 ^ u)
           else round_div (n * 2 ^ (- u)) d in
  (m, u).

(** [a / b] on Python integers: the correctly rounded binary64 quotient; a
    quotient that rounds beyond the float range raises. *)
Definition truediv (a b : Z) : result Q :=
  if b =? 0 then Raise ZeroDivisionError
  else if a =? 0 then OK 0%Q
  else
    let '(m, u) := nearest_binary64 (Z.abs a) (Z.abs b) in
    if 2 ^ 1024 <=? m * 2 ^ u then Raise OverflowError
    else
      let m := Z.sgn a * Z.sgn b * m in
      OK (Qred (if 0 <=? u then inject_Z (m * 2 ^ u)
                else Qmake m (Z.to_pos (2 ^ (- u))))).

(** ** Decoder state: the attributes of a [MidiFile] instance *)

(** Specification-only record of the dispatches of a decode: the state a
    track chunk starts from and the type of every meta-event handled.  No
    operation of the decoder reads it. *)
Inductive event : Type :=
| AtTrack (delta_time : Z) (running_status : Z) (running_status_set : bool)
| AtTrackEnd (delta_time : Z) (running_status : Z) (running_status_set : bool)
| AtMeta (event_type : Z).

Record MidiFile : Type := mkMidiFile {
  bytes : list byte;
  header_length : Z;
  format : Z;
  tracks : Z;
  division : Z;
  division_type : Z;
  tempo : Z;
  itr : Z;
  running_status : Z;
  running_status_set : bool;
  delta_time : Z;
  notes : list note;
  start_counter : list Z;
  trace : list event
}.

Definition DEFAULT_TEMPO : Z := 120.

(** [self.start_sequence]: MThd, MTrk, FF. *)
Definition start_sequence : list (list Z) :=
  [ [0x4D; 0x54; 0x68; 0x64]; [0x4D; 0x54; 0x72; 0x6B]; [0xFF] ].

Definition set_header_length (v : Z) (s : MidiFile) : MidiFile :=
  mkMidiFile (bytes s) v (format s) (tracks s) (division s) (division_type s)
    (tempo s) (itr s) (running_status s) (running_status_set s) (delta_time s)
    (notes s) (start_counter s) (trace s).
Definition set_format (v : Z) (s : MidiFile) : MidiFile :=
  mkMidiFile (bytes s) (header_length s) v (tracks s) (division s) (division_type s)
    (tempo s) (itr s) (running_status s) (running_status_set s) (delta_time s)
    (notes s) (start_counter s) (trace s).
Definition set_tracks (v : Z) (s : MidiFile) : MidiFile :=
  mkMidiFile (bytes s) (header_length s) (format s) v (division s) (division_type s)
    (tempo s) (itr s) (running_status s) (running_status_set s) (delta_time s)
    (notes s) (start_counter s) (trace s).
Definition set_division (v : Z) (s : MidiFile) : MidiFile :=
  mkMidiFile (bytes s) (header_length s) (format s) (tracks s) v (division_type s)
    (tempo s) (itr s) (running_status s) (running_status_set s) (delta_time s)
    (notes s) (start_counter s) (trace s).
Definition set_division_type (v : Z) (s : MidiFile) : MidiFile :=
  mkMidiFile (bytes s) (header_length s) (format s) (tracks s) (division s) v
    (tempo s) (itr s) (running_status s) (running_status_set s) (delta_time s)
    (notes s) (start_counter s) (trace s).
Definition set_tempo (v : Z) (s : MidiFile) : MidiFile :=
  mkMidiFile (bytes s) (header_length s) (format s) (tracks s) (division s) (division_type s)
    v (itr s) (running_status s) (running_status_set s) (delta_time s)
    (notes s) (start_counter s) (trace s).
Definition set_itr (v : Z) (s : MidiFile) : MidiFile :=
  mkMidiFile (bytes s) (header_length s) (format s) (tracks s) (division s) (division_type s)
    (tempo s) v (running_status s) (running_status_set s) (delta_time s)
    (notes s) (start_counter s) (trace s).
Definition set_running_status (v : Z) (s : MidiFile) : MidiFile :=
  mkMidiFile (bytes s) (header_length s) (format s) (tracks s) (division s) (division_type s)
    (tempo s) (itr s) v (running_status_set s) (delta_time s)
    (notes s) (start_counter s) (trace s).
Definition set_running_status_set (v : bool) (s : MidiFile) : MidiFile :=
  mkMidiFile (bytes s) (header_length s) (format s) (tracks s) (division s) (division_type s)
    (tempo s) (itr s) (running_status s) v (delta_time s)
    (notes s) (start_counter s) (trace s).
Definition set_delta_time (v : Z) (s : MidiFile) : MidiFile :=
  mkMidiFile (bytes s) (header_length s) (format s) (tracks s) (division s) (division_type s)
    (tempo s) (itr s) (running_status s) (running_status_set s) v
    (notes s) (start_counter s) (trace s).
Definition set_notes (v : list note) (s : MidiFile) : MidiFile :=
  mkMidiFile (bytes s) (header_length s) (format s) (tracks s) (division s) (division_type s)
    (tempo s) (itr s) (running_status s) (running_status_set s) (delta_time s)
    v (start_counter s) (trace s).
Definition set_start_counter (v : list Z) (s : MidiFile) : MidiFile :=
  mkMidiFile (bytes s) (header_length s) (format s) (tracks s) (division s) (division_type s)
    (tempo s) (itr s) (running_status s) (running_status_set s) (delta_time s)
    (notes s) v (trace s).
Definition set_trace (v : list event) (s : MidiFile) : MidiFile :=
  mkMidiFile (bytes s) (header_length s) (format s) (tracks s) (division s) (division_type s)
    (tempo s) (itr s) (running_status s) (running_status_set s) (delta_time s)
    (notes s) (start_counter s) v.

(** ** The monad of methods: a method reads and writes [self] and may raise *)

Definition M (A : Type) : Type := MidiFile -> result (A * MidiFile).

Definition ret {A} (a : A) : M A := fun s => OK (a, s).

Definition bind {A B} (m : M A) (k : A -> M B) : M B :=
  fun s =>
    match m s with
    | OK (a, s') => k a s'
    | Raise e => Raise e
    | OutOfFuel => OutOfFuel
    end.

(** Read an attribute, apply an assignment to attributes. *)
Definition gets {A} (f : MidiFile -> A) : M A := fun s => OK (f s, s).
Definition modify (f : MidiFile -> MidiFile) : M unit := fun s => OK (tt, f s).

(** Lift of a Python expression that may raise. *)
Definition lift {A} (r : result A) : M A :=
  fun s =>
    match r with
    | OK a => OK (a, s)
    | Raise e => Raise e
    | OutOfFuel => OutOfFuel
    end.

Declare Scope midi_scope.
Delimit Scope midi_scope with midi.
Notation "x <- m ;; k" := (bind m (fun x => k))
  (at level 61, m at next level, right associativity) : midi_scope.
Notation "m ;;; k" := (bind m (fun _ => k))
  (at level 61, right associativity) : midi_scope.
Local Open Scope midi_scope.

(** Appends to the specification-only trace.  The calls of [emit] in
    [read_midi_meta_event] and [read_mtrk] are the only lines of the model
    with no counterpart in the source. *)
Definition emit (e : event) : M unit :=
  modify (fun s => set_trace (trace s ++ [e]) s).

(** [while cond: body], for a loop whose local variables are [x]. *)
Fixpoint while {X} (fuel : nat) (cond : X -> MidiFile -> bool)
    (body : X -> M X) (x : X) : M X :=
  fun s =>
    if cond x s then
      match fuel with
      | O => OutOfFuel
      | S fuel' => bind (body x) (while fuel' cond body) s
      end
    else OK (x, s).

(** Every loop of the decoder reads at least one byte per iteration, so the
    length of the buffer bounds the iterations that do not raise. *)
Definition fuel_of (s : MidiFile) : nat := S (List.length (bytes s)).

(** ** Byte cursor *)

(** [self.bytes[i]] *)
Definition byte_at (i : Z) : M Z :=
  b <- gets bytes ;; lift (getitem (map byte_val b) i).

(** [MidiFile.skip] *)
Definition skip (i : Z) : M unit :=
  modify (fun s => set_itr (itr s + i) s).

(** [MidiFile.get_int] *)
Definition get_int (size : Z) : M Z :=
  b <- gets bytes ;;
  i <- gets itr ;;
  let value :=
    fold_left (fun value n => Z.shiftl value 8 + n)
      (getslice (map byte_val b) i (i + size)) 0 in
  modify (fun s => set_itr (itr s + size) s) ;;;
  ret value.

(** [MidiFile.read_length]: the loop variables are [(cont_flag, length)]. *)
Definition read_length : M Z :=
  fuel <- gets fuel_of ;;
  r <- while fuel
         (fun r _ => fst r)
         (fun r =>
            let length := snd r in
            b <- (i <- gets itr ;; byte_at i) ;;
            r <- (if Z.shiftr (Z.land b 0x80) 7 =? 0x1 then
                    ret (true, Z.shiftl length 7 + Z.land b 0x7F)
                  else
                    ret (false, Z.shiftl length 7 + Z.land b 0x7F)) ;;
            modify (fun s => set_itr (itr s + 1) s) ;;;
            ret r)
         (true, 0) ;;
  ret (snd r).

(** [chr] of a byte value. *)
Definition chr (n : Z) : ascii := ascii_of_N (Z.to_N n).

(** [MidiFile.read_text] (no caller in the source). *)
Fixpoint join_chars (n : nat) (i : Z) : M string :=
  match n with
  | O => ret EmptyString
  | S n' =>
      b <- byte_at i ;;
      t <- join_chars n' (i + 1) ;;
      ret (String (chr b) t)
  end.

Definition read_text (length : Z) : M string :=
  i <- gets itr ;;
  text <- join_chars (Z.to_nat length) i ;;
  modify (fun s => set_itr (itr s + length) s) ;;;
  ret text.

(** ** The playable-key alphabet *)

(** [MidiFile.VIRTUAL_PIANO_SCALE] *)
Definition VIRTUAL_PIANO_SCALE : string :=
  "zZxXcvVbBnNmaAsSdfFgGhHjqQwWerRtTyYuqQwWerRtTyYuqQwWerRtTyYu))".

(** [len(self.VIRTUAL_PIANO_SCALE)] *)
Definition scale_len : Z := Z.of_nat (String.length VIRTUAL_PIANO_SCALE).

(** ** Pitch mapping: [MidiFile.map_key_to_piano] *)

(** [while mapped_key >= len(self.VIRTUAL_PIANO_SCALE): mapped_key -= 12] *)
Equations? fold_down (mapped_key : Z) : Z by wf (Z.to_nat mapped_key) lt :=
  fold_down mapped_key with Z_ge_lt_dec mapped_key scale_len := {
    | left _ => fold_down (mapped_key - 12)
    | right _ => mapped_key }.
Proof. unfold scale_len in *; simpl in *; lia. Qed.

(** [while mapped_key < 0: mapped_key += 12] *)
Equations? fold_up (mapped_key : Z) : Z by wf (Z.to_nat (- mapped_key)) lt :=
  fold_up mapped_key with Z_lt_ge_dec mapped_key 0 := {
    | left _ => fold_up (mapped_key + 12)
    | right _ => mapped_key }.
Proof. lia. Qed.

Definition map_key_to_piano (key : Z) : Z :=
  let mapped_key := key - 36 in
  let mapped_key := fold_down mapped_key in
  let mapped_key := fold_up mapped_key in
  mapped_key.

(** ** Floats of the tempo conversion *)

(** [float(n)] for an integer [0 <= n < 2^53], where the conversion is exact
    (the decoder converts a value of at most three bytes). *)
Definition float_of_int (n : Z) : float := PrimFloat.of_uint63 (Uint63.of_Z n).

(** The binary64 value of the literal [0.00024]. *)
Definition tempo_factor : float := 0x1.f75104d551d69p-13%float.

(** Nearest integer of [m * 2^e], a tie going to the even one. *)
Definition round_half_even (m e : Z) : Z :=
  if 0 <=? e then m * 2 ^ e
  else
    let d := 2 ^ (- e) in
    let q := m / d in
    let r := m mod d in
    if 2 * r <? d then q
    else if d <? 2 * r then q + 1
    else if Z.even q then q else q + 1.

(** [round(x)] of a float: the nearest integer, ties to even. *)
Definition py_round (x : float) : result Z :=
  match Prim2SF x with
  | S754_zero _ => OK 0
  | S754_finite sign m e =>
      let v := round_half_even (Zpos m) e in
      OK (if sign then - v else v)
  | S754_infinity _ => Raise OverflowError
  | S754_nan => Raise ValueError
  end.

(** ** Header chunk: [MidiFile.read_mthd] *)

Definition read_mthd : M unit :=
  v <- get_int 4 ;; modify (set_header_length v) ;;;
  v <- get_int 2 ;; modify (set_format v) ;;;
  v <- get_int 2 ;; modify (set_tracks v) ;;;
  div <- get_int 2 ;;
  modify (set_division_type (Z.shiftr (Z.land div 0x8000) 16)) ;;;
  modify (set_division (Z.land div 0x7FFF)).

(** ** Meta-events: [MidiFile.read_midi_meta_event] *)

(** The lookup of [event_name] in [TYPE_DICT] has no effect and is left out. *)

Definition text_event_types : list Z :=
  [0x01; 0x02; 0x03; 0x04; 0x05; 0x06; 0x07; 0x08; 0x09; 0x0A; 0x0C].

(** [x in l] on a list of integers. *)
Definition mem (x : Z) (l : list Z) : bool := existsb (Z.eqb x) l.

Definition read_midi_meta_event (delta_t : Z) : M bool :=
  event_type <- (i <- gets itr ;; byte_at i) ;;
  emit (AtMeta event_type) ;;;
  modify (fun s => set_itr (itr s + 1) s) ;;;
  length <- read_length ;;
  if event_type =? 0x2F then
    modify (fun s => set_itr (itr s + 2) s) ;;;
    ret false
  else
    (if mem event_type text_event_types then
       ret tt
     else if event_type =? 0x51 then
       v <- get_int 3 ;;
       t <- lift (py_round (PrimFloat.mul (float_of_int v) tempo_factor)) ;;
       modify (set_tempo t)
     else
       modify (fun s => set_itr (itr s + length) s)) ;;;
    ret true.

(** ** Voice events: [MidiFile.read_voice_event] *)

(** [s[i]] on a string. *)
Definition string_getitem (s : string) (i : Z) : result string :=
  match getitem (list_ascii_of_string s) i with
  | OK c => OK (String c EmptyString)
  | Raise e => Raise e
  | OutOfFuel => OutOfFuel
  end.

Definition read_voice_event (delta_t : Z) : M unit :=
  b <- (i <- gets itr ;; byte_at i) ;;
  running_status_set_ <- gets running_status_set ;;
  event_type <-
    (if (b <? 0x80) && running_status_set_ then
       gets running_status
     else
       event_type <- (i <- gets itr ;; byte_at i) ;;
       (if (0x80 <=? event_type) && (event_type <=? 0xF7) then
          modify (set_running_status event_type) ;;;
          modify (set_running_status_set true)
        else ret tt) ;;;
       modify (fun s => set_itr (itr s + 1) s) ;;;
       ret event_type) ;;
  let channel := Z.land event_type 0x0F in
  if Z.shiftr event_type 4 =? 0x9 then
    key <- (i <- gets itr ;; byte_at i) ;;
    modify (fun s => set_itr (itr s + 1) s) ;;;
    velocity <- (i <- gets itr ;; byte_at i) ;;
    modify (fun s => set_itr (itr s + 1) s) ;;;
    let mapped_key := map_key_to_piano key in
    if 0 <? velocity then
      ticks <- gets delta_time ;;
      division_ <- gets division ;;
      time <- lift (truediv ticks division_) ;;
      symbol <- lift (string_getitem VIRTUAL_PIANO_SCALE mapped_key) ;;
      modify (fun s => set_notes (notes s ++ [(time, symbol)]) s)
    else ret tt
  else if negb (mem (Z.shiftr event_type 4) [0x8; 0x9; 0xA; 0xB; 0xD; 0xE]) then
    modify (fun s => set_itr (itr s + 1) s)
  else
    modify (fun s => set_itr (itr s + 2) s).

(** ** Track chunk: [MidiFile.read_midi_track_event], [MidiFile.read_mtrk] *)

(** One pass through the body of the loop of [read_midi_track_event]; the
    result is the new [continue_flag]. *)
Definition track_event_body (continue_flag : bool) : M bool :=
  delta_t <- read_length ;;
  modify (fun s => set_delta_time (delta_time s + delta_t) s) ;;;
  b <- (i <- gets itr ;; byte_at i) ;;
  if b =? 0xFF then
    modify (fun s => set_itr (itr s + 1) s) ;;;
    read_midi_meta_event delta_t
  else if (0xF0 <=? b) && (b <=? 0xF7) then
    modify (set_running_status_set false) ;;;
    modify (set_running_status (-1)) ;;;
    ret continue_flag
  else
    read_voice_event delta_t ;;;
    ret continue_flag.

Definition read_midi_track_event (length : Z) : M unit :=
  start <- gets itr ;;
  fuel <- gets fuel_of ;;
  while fuel
    (fun continue_flag s => (itr s - start <? length) && continue_flag)
    track_event_body true ;;;
  modify (set_itr (start + length)).

(** The part of the state the specification calls the decoder state. *)
Definition decoder_state (s : MidiFile) : Z * Z * bool :=
  (delta_time s, running_status s, running_status_set s).

Definition read_mtrk : M unit :=
  d <- gets decoder_state ;;
  emit (AtTrack (fst (fst d)) (snd (fst d)) (snd d)) ;;;
  length <- get_int 4 ;;
  read_midi_track_event length ;;;
  d <- gets decoder_state ;;
  emit (AtTrackEnd (fst (fst d)) (snd (fst d)) (snd d)).

(** ** Chunk scanner: [MidiFile.check_start_sequence], [MidiFile.read_events] *)

(** [len(l)] *)
Definition len {A} (l : list A) : Z := Z.of_nat (List.length l).

Definition check_start_sequence (s : MidiFile) : bool :=
  existsb (fun '(seq, count) => len seq =? count)
    (combine start_sequence (start_counter s)).

(** [l[i] = v] on a list. *)
Definition setitem {A} (l : list A) (i : Z) (v : A) : result (list A) :=
  match getitem l i with
  | OK _ =>
      let j := Z.to_nat (if i <? 0 then i + len l else i) in
      OK (firstn j l ++ v :: skipn (S j) l)
  | Raise e => Raise e
  | OutOfFuel => OutOfFuel
  end.

(** [for i in range(k, n): body(i)] *)
Fixpoint for_range (n : nat) (k : Z) (body : Z -> M unit) : M unit :=
  match n with
  | O => ret tt
  | S n' => body k ;;; for_range n' (k + 1) body
  end.

(** [self.start_counter[i] = v] *)
Definition set_counter (i v : Z) : M unit :=
  c <- gets start_counter ;;
  c <- lift (setitem c i v) ;;
  modify (set_start_counter c).

(** One pass through the body of the inner loop of [read_events]. *)
Definition scan_body : M unit :=
  for_range (List.length start_sequence) 0 (fun i =>
    b <- (j <- gets itr ;; byte_at j) ;;
    seq <- lift (getitem start_sequence i) ;;
    count <- (c <- gets start_counter ;; lift (getitem c i)) ;;
    expected <- lift (getitem seq count) ;;
    if b =? expected then set_counter i (count + 1) else set_counter i 0) ;;;
  more <- gets (fun s => itr s + 1 <? len (bytes s)) ;;
  (if more then modify (fun s => set_itr (itr s + 1) s) else ret tt) ;;;
  c0 <- (c <- gets start_counter ;; lift (getitem c 0)) ;;
  if c0 =? 4 then read_mthd
  else
    c1 <- (c <- gets start_counter ;; lift (getitem c 1)) ;;
    if c1 =? 4 then read_mtrk else ret tt.

Definition read_events : M unit :=
  fuel <- gets fuel_of ;;
  while fuel
    (fun _ s => itr s + 1 <? len (bytes s))
    (fun _ =>
       n <- gets (fun s => List.length (start_counter s)) ;;
       for_range n 0 (fun i => set_counter i 0) ;;;
       while fuel
         (fun _ s => (itr s + 1 <? len (bytes s)) && negb (check_start_sequence s))
         (fun _ => scan_body) tt)
    tt.

(** [MidiFile.__init__], on the content of the file. *)
Definition init_state (content : list byte) (default_tempo : Z) : MidiFile :=
  {| bytes := content;
     header_length := -1;
     format := -1;
     tracks := -1;
     division := -1;
     division_type := -1;
     tempo := default_tempo;
     itr := 0;
     running_status := -1;
     running_status_set := false;
     delta_time := 0;
     notes := [];
     start_counter := repeat 0 (List.length start_sequence);
     trace := [] |}.

(** [MidiFile(filename, default_tempo)]; [None] is the omitted argument. *)
Definition MidiFile_new (content : list byte) (default_tempo : option Z)
  : result MidiFile :=
  let default_tempo :=
    match default_tempo with Some t => t | None => 120 end in
  match read_events (init_state content default_tempo) with
  | OK (_, s) => OK s
  | Raise e => Raise e
  | OutOfFuel => OutOfFuel
  end.

(** ** Note consolidation and export: [MidiFile.process_notes] *)

(** [a < b] on floats. *)
Definition Qlt_bool (a b : Q) : bool := negb (Qle_bool b a).

(** [a < b] on the lists [[time, symbols]]: the first items that differ
    decide, as in Python's comparison of sequences. *)
Definition note_lt (a b : note) : bool :=
  if negb (Qeq_bool (fst a) (fst b)) then Qlt_bool (fst a) (fst b)
  else if negb (String.eqb (snd a) (snd b)) then String.ltb (snd a) (snd b)
  else false.

(** [list.sort()] is a stable sort that compares with [<] only; on a total
    preorder every stable sort returns the same list, here by insertion. *)
Fixpoint insert_note (x : note) (l : list note) : list note :=
  match l with
  | [] => [x]
  | y :: l' => if note_lt y x then y :: insert_note x l' else x :: y :: l'
  end.

Definition sort_notes (l : list note) : list note :=
  fold_right insert_note [] l.

(** [l.pop(i)] *)
Definition pop {A} (l : list A) (i : Z) : result (A * list A) :=
  match getitem l i with
  | OK x =>
      let j := Z.to_nat (if i <? 0 then i + len l else i) in
      OK (x, firstn j l ++ skipn (S j) l)
  | Raise e => Raise e
  | OutOfFuel => OutOfFuel
  end.

(** One pass through the body of the merging loop of [process_notes]; the
    result is the new value of [i]. *)
Definition merge_body (i : Z) : M Z :=
  prev <- (l <- gets notes ;; lift (getitem l (i - 1))) ;;
  cur <- (l <- gets notes ;; lift (getitem l i)) ;;
  if Qeq_bool (fst prev) (fst cur) then
    l <- gets notes ;;
    l <- lift (setitem l i (fst cur, (snd cur ++ snd prev)%string)) ;;
    modify (set_notes l) ;;;
    l <- gets notes ;;
    r <- lift (pop l (i - 1)) ;;
    modify (set_notes (snd r)) ;;;
    ret i
  else ret (i + 1).

(** The merging loop of [process_notes]. *)
Definition merge_notes : M unit :=
  fuel <- gets (fun s => List.length (notes s)) ;;
  while fuel (fun i s => i <? len (notes s)) merge_body 1 ;;;
  ret tt.

(** [set(s)]: the distinct characters of [s].  Python leaves the order of
    iteration open; [unique_symbols_any_order] shows that the result of
    [unique_symbols] does not depend on it. *)
Definition py_set (s : string) : list ascii :=
  nodup ascii_dec (list_ascii_of_string s).

(** [s.index(c)]: position of the first occurrence. *)
Fixpoint str_index (s : list ascii) (c : ascii) : nat :=
  match s with
  | [] => O
  | d :: s' => if Ascii.eqb d c then O else S (str_index s' c)
  end.

(** [sorted(l, key=key)], stable. *)
Fixpoint insert_by {A} (key : A -> nat) (x : A) (l : list A) : list A :=
  match l with
  | [] => [x]
  | y :: l' => if (key y <? key x)%nat then y :: insert_by key x l' else x :: y :: l'
  end.

Definition sorted_by {A} (key : A -> nat) (l : list A) : list A :=
  fold_right (insert_by key) [] l.

(** ["".join(sorted(set(s), key=s.index))] *)
Definition unique_symbols (s : string) : string :=
  string_of_list_ascii
    (sorted_by (str_index (list_ascii_of_string s)) (py_set s)).

(** Lines 258-269 of [process_notes]: sort, merge, remove repeated symbols. *)
Definition consolidate : M unit :=
  modify (fun s => set_notes (sort_notes (notes s)) s) ;;;
  merge_notes ;;;
  modify (fun s =>
    set_notes (map (fun n => (fst n, unique_symbols (snd n))) (notes s)) s).

(** [song_data], the dictionary written to [song.json]. *)
Record Song : Type := mkSong {
  song_tempo : Z;
  song_notes : list note
}.

(** The two files the export writes; [None] is a file that was not written. *)
Record files : Type := mkFiles {
  song_json : option Song;
  sheet_txt : option string
}.

(** [f"{s:>7}"] *)
Definition rjust7 (s : string) : string :=
  (string_of_list_ascii (repeat " "%char (7 - String.length s)) ++ s)%string.

(** The text [generate_piano_sheet] writes for the notes [l], [note_count]
    notes having been written before. *)
Fixpoint sheet_text (l : list note) (note_count : Z) : string :=
  match l with
  | [] => EmptyString
  | n :: l' =>
      let note_repr :=
        if (1 <? String.length (snd n))%nat then ("[" ++ snd n ++ "]")%string
        else snd n in
      let note_count := note_count + 1 in
      let newline :=
        if note_count mod 8 =? 0 then String "010"%char EmptyString
        else EmptyString in
      String.append (rjust7 note_repr)
        (String.append " " (String.append newline (sheet_text l' note_count)))
  end.

(** [MidiFile.generate_piano_sheet] *)
Definition generate_piano_sheet (s : MidiFile) (w : files) : result unit * files :=
  match getitem (notes s) 0 with
  | OK first =>
      let offset := fst first in
      (OK tt, mkFiles (song_json w) (Some (sheet_text (notes s) 0)))
  | Raise e => (Raise e, w)
  | OutOfFuel => (OutOfFuel, w)
  end.

(** [MidiFile.process_notes] *)
Definition process_notes (s : MidiFile) (w : files) : result MidiFile * files :=
  match consolidate s with
  | OK (_, s1) =>
      let song_data := mkSong (tempo s1) (notes s1) in
      let w1 := mkFiles (Some song_data) (sheet_txt w) in
      match generate_piano_sheet s1 w1 with
      | (OK _, w2) => (OK s1, w2)
      | (Raise e, w2) => (Raise e, w2)
      | (OutOfFuel, w2) => (OutOfFuel, w2)
      end
  | Raise e => (Raise e, w)
  | OutOfFuel => (OutOfFuel, w)
  end.

(** [main] after the file has been chosen: decode, then export. *)
Definition convert (content : list byte) (default_tempo : option Z) (w : files)
  : result MidiFile * files :=
  match MidiFile_new content default_tempo with
  | OK s => process_notes s w
  | Raise e => (Raise e, w)
  | OutOfFuel => (OutOfFuel, w)
  end.

(** Bytes of a file, written as integers. *)
Definition bytes_of (l : list Z) : list byte :=
  map (fun z => match Byte.of_N (Z.to_N z) with Some b => b | None => x00 end) l.

(** ** Closed forms used in the proofs *)

(** What the merging loop computes, by recursion on the notes that follow
    the one under construction ([prev] is [self.notes[i - 1]]). *)
Fixpoint merge_from (prev : note) (rest : list note) : list note :=
  match rest with
  | [] => [prev]
  | cur :: rest' =>
      if Qeq_bool (fst prev) (fst cur) then
        merge_from (fst cur, (snd cur ++ snd prev)%string) rest'
      else prev :: merge_from cur rest'
  end.

Definition merged (l : list note) : list note :=
  match l with
  | [] => []
  | n :: l' => merge_from n l'
  end.

(** The characters of a sequence in the order of their first occurrence. *)
Fixpoint first_occurrences (l : list ascii) : list ascii :=
  match l with
  | [] => []
  | c :: l' => c :: filter (fun d => negb (Ascii.eqb d c)) (first_occurrences l')
  end.

(** The notes [consolidate] leaves in [self.notes]. *)
Definition consolidated (l : list note) : list note :=
  map (fun n => (fst n, unique_symbols (snd n))) (merged (sort_notes l)).

(** ** The consolidation in the words of the specification *)

(** Stable sort by time alone: notes of equal time keep the order in which
    they were emitted. *)
Fixpoint spec_insert (x : note) (l : list note) : list note :=
  match l with
  | [] => [x]
  | y :: l' =>
      if Qlt_bool (fst y) (fst x) then y :: spec_insert x l' else x :: y :: l'
  end.

(** Adjacent entries of equal time become one chord whose symbols are
    concatenated in emission order. *)
Fixpoint spec_merge_from (prev : note) (rest : list note) : list note :=
  match rest with
  | [] => [prev]
  | cur :: rest' =>
      if Qeq_bool (fst prev) (fst cur) then
        spec_merge_from (fst prev, (snd prev ++ snd cur)%string) rest'
      else prev :: spec_merge_from cur rest'
  end.

(** Sort, merge, then keep the first occurrence of every symbol. *)
Definition spec_consolidated (l : list note) : list note :=
  map (fun n => (fst n,
                 string_of_list_ascii
                   (first_occurrences (list_ascii_of_string (snd n)))))
    (match fold_right spec_insert [] l with
     | [] => []
     | n :: l' => spec_merge_from n l'
     end).

(** Two notes emitted at time 0, "a" before "b". *)
Definition notes_a_then_b : list note := [(0%Q, "a"%string); (0%Q, "b"%string)].

(** ** Reference values of the specification and sample inputs *)

(** Big-endian value of a sequence of byte values. *)
Fixpoint be_value (l : list Z) : Z :=
  match l with
  | [] => 0
  | b :: l' => b * 256 ^ len l' + be_value l'
  end.

(** The conversion the specification asks of a Set Tempo event:
    [round(60_000_000 / microseconds_per_quarter)]. *)
Definition spec_bpm (microseconds_per_quarter : Z) : Z :=
  round_div 60000000 microseconds_per_quarter.

(** A decoder positioned at offset [pos] of [content], otherwise as
    [__init__] leaves it. *)
Definition at_offset (content : list Z) (pos : Z) : MidiFile :=
  set_itr pos (init_state (bytes_of content) DEFAULT_TEMPO).

(** Header chunk: format 0, one track, 480 ticks per quarter note. *)
Definition header_480 : list Z :=
  [0x4D; 0x54; 0x68; 0x64; 0; 0; 0; 6; 0; 0; 0; 1; 0x01; 0xE0].

(** Header chunk with an SMPTE division (25 frames, 40 ticks per frame): the
    top bit of the division is set. *)
Definition header_smpte : list Z :=
  [0x4D; 0x54; 0x68; 0x64; 0; 0; 0; 6; 0; 0; 0; 1; 0xE7; 0x28].

(** Meta-events as they follow the 0xFF marker: type, length, payload.
    A track name "ab"; a sequencer-specific event with the same payload;
    tempo events of 500000 and 1000000 microseconds per quarter note. *)
Definition meta_track_name : list Z := [0x03; 0x02; 0x61; 0x62; 0x00; 0xFF; 0x2F; 0x00].
Definition meta_sequencer : list Z := [0x7F; 0x02; 0x61; 0x62; 0x00; 0xFF; 0x2F; 0x00].
Definition meta_tempo_500000 : list Z := [0x51; 0x03; 0x07; 0xA1; 0x20; 0x00; 0xFF; 0x2F; 0x00].
Definition meta_tempo_1000000 : list Z := [0x51; 0x03; 0x0F; 0x42; 0x40; 0x00; 0xFF; 0x2F; 0x00].

(** A file with a header and one track that holds only End of Track. *)
Definition file_no_notes : list Z :=
  header_480 ++ [0x4D; 0x54; 0x72; 0x6B; 0; 0; 0; 4; 0x00; 0xFF; 0x2F; 0x00].

(** The end-to-end scenario of the specification: a tempo event of 500000,
    a note-on of key 60, its note-off 480 ticks later, End of Track. *)
Definition file_scenario : list Z :=
  header_480 ++
  [0x4D; 0x54; 0x72; 0x6B; 0; 0; 0; 20;
   0x00; 0xFF; 0x51; 0x03; 0x07; 0xA1; 0x20;
   0x00; 0x90; 60; 100;
   0x83; 0x60; 0x80; 60; 0;
   0x00; 0xFF; 0x2F; 0x00].

(** A file with two tracks, each with one note-on 480 ticks after the start
    of its track. *)
Definition file_two_tracks : list Z :=
  [0x4D; 0x54; 0x68; 0x64; 0; 0; 0; 6; 0; 1; 0; 2; 0x01; 0xE0] ++
  [0x4D; 0x54; 0x72; 0x6B; 0; 0; 0; 9; 0x83; 0x60; 0x90; 60; 100; 0x00; 0xFF; 0x2F; 0x00] ++
  [0x4D; 0x54; 0x72; 0x6B; 0; 0; 0; 9; 0x83; 0x60; 0x90; 64; 100; 0x00; 0xFF; 0x2F; 0x00].

(** The decoder after [file_two_tracks], with default tempo 90. *)
Definition decoded_two_tracks : MidiFile :=
  Eval vm_compute in
    match MidiFile_new (bytes_of file_two_tracks) (Some 90) with
    | OK s => s
    | _ => init_state [] 0
    end.

(** ** Decoder state along the trace *)

Definition is_meta (e : event) : Prop :=
  match e with AtMeta _ => True | _ => False end.

Definition track_start (d : Z * Z * bool) : event :=
  AtTrack (fst (fst d)) (snd (fst d)) (snd d).

Definition track_end (d : Z * Z * bool) : event :=
  AtTrackEnd (fst (fst d)) (snd (fst d)) (snd d).

(** [carried d t d']: the trace [t] is a sequence of track chunks, each made
    of its start, meta-events and its end; the first chunk starts from the
    decoder state [d], every other chunk starts from the decoder state the
    chunk before it ended with, and [d'] is the decoder state at the end of
    the last chunk ([d] itself when there is no chunk). *)
Inductive carried : Z * Z * bool -> list event -> Z * Z * bool -> Prop :=
| carried_nil (d : Z * Z * bool) : carried d [] d
| carried_track (d d' d'' : Z * Z * bool) (t t' : list event) :
    Forall is_meta t ->
    carried d' t' d'' ->
    carried d (track_start d :: t ++ track_end d' :: t') d''.

(** No file written yet. *)
Definition no_files : files := mkFiles None None.

(** ** Relations and predicates of the statements *)

(** [preserves R m]: whenever the method [m] returns, the states before and
    after are related by [R]. *)
Definition preserves (R : MidiFile -> MidiFile -> Prop) {A} (m : M A) : Prop :=
  forall s a s', m s = OK (a, s') -> R s s'.

(** The trace grows, and the tempo is kept unless a Set Tempo event was
    handled. *)
Definition tempo_kept (s s' : MidiFile) : Prop :=
  exists t, trace s' = trace s ++ t /\
            (tempo s' = tempo s \/ In (AtMeta 0x51) t).

(** The trace grows, by meta-events only. *)
Definition in_track (s s' : MidiFile) : Prop :=
  exists t, trace s' = trace s ++ t /\ Forall is_meta t.

(** The trace grows by whole track chunks, the decoder state carried from
    one to the next. *)
Definition state_carried (s s' : MidiFile) : Prop :=
  exists t, trace s' = trace s ++ t /\
            carried (decoder_state s) t (decoder_state s').

(** Orders on notes: by time, strictly by time, and Python's order on the
    lists [[time, symbols]]. *)
Definition time_le (a b : note) : Prop := (fst a <= fst b)%Q.
Definition time_lt (a b : note) : Prop := (fst a < fst b)%Q.
Definition note_le (a b : note) : Prop := note_lt b a = false.

(** Order of the characters of [l] by first occurrence. *)
Definition index_lt (l : list ascii) (a b : ascii) : Prop :=
  (str_index l a < str_index l b)%nat.

(** [has l t c]: some entry of [l] at time [t] has the symbol [c]. *)
Definition has (l : list note) (t : Q) (c : ascii) : Prop :=
  Exists (fun n => (fst n == t)%Q /\ In c (list_ascii_of_string (snd n))) l.

(** Order of characters by code point. *)
Definition code_le (a b : ascii) : Prop := (N_of_ascii a <= N_of_ascii b)%N.
Definition code_lt (a b : ascii) : Prop := (N_of_ascii a < N_of_ascii b)%N.

(** A raw note carries one symbol. *)
Definition raw (n : note) : Prop := exists c, snd n = String c EmptyString.

(** Raw notes stay raw. *)
Definition raw_kept (s s' : MidiFile) : Prop :=
  Forall raw (notes s) -> Forall raw (notes s').

(** The buffer is never written and, across a method, the cursor does not
    move back. *)
Definition adv (s s' : MidiFile) : Prop :=
  bytes s' = bytes s /\ itr s <= itr s'.

(** Buffer and cursor are left as they are. *)
Definition same_cursor (s s' : MidiFile) : Prop :=
  bytes s' = bytes s /\ itr s' = itr s.

(** [ends n m]: on a buffer of [n] bytes, from a cursor that is not
    negative, the method [m] returns or raises; its loops are not cut. *)
Definition ends (n : nat) {A} (m : M A) : Prop :=
  forall s, 0 <= itr s -> List.length (bytes s) = n -> m s <> OutOfFuel.

(** One outer pass of [read_events], and the loop inside it. *)
Definition scan_loop (fuel : nat) : M unit :=
  while fuel
    (fun _ s => (itr s + 1 <? len (bytes s)) && negb (check_start_sequence s))
    (fun _ => scan_body) tt.

Definition scan_pass (fuel : nat) : M unit :=
  n <- gets (fun s => List.length (start_counter s)) ;;
  for_range n 0 (fun i => set_counter i 0) ;;;
  scan_loop fuel.

(** The state without its trace. *)
Definition erase (s : MidiFile) : MidiFile := set_trace [] s.

(** Two outcomes that differ at most by the trace. *)
Definition same_run {A} (r r' : result (A * MidiFile)) : Prop :=
  match r, r' with
  | OK (a, s), OK (a', s') => a = a' /\ erase s = erase s'
  | Raise e, Raise e' => e = e'
  | OutOfFuel, OutOfFuel => True
  | _, _ => False
  end.

(** [blind m]: the method [m] does not read the trace. *)
Definition blind {A} (m : M A) : Prop :=
  forall s s', erase s = erase s' -> same_run (m s) (m s').

(** ** Vocabulary of the further properties *)

(** The byte values from the cursor to the end of the buffer. *)
Definition at_cursor (s : MidiFile) : list Z :=
  skipn (Z.to_nat (itr s)) (map byte_val (bytes s)).

(** Value of a variable-length quantity: the low 7 bits of its bytes, the
    first byte the most significant. *)
Fixpoint vlq_value (l : list Z) : Z :=
  match l with
  | [] => 0
  | b :: l' => (b mod 128) * 128 ^ len l' + vlq_value l'
  end.

(** The buffer, the header fields and the scanner's counters are left as
    they are. *)
Definition header_kept (s s' : MidiFile) : Prop :=
  bytes s' = bytes s /\ header_length s' = header_length s /\
  format s' = format s /\ tracks s' = tracks s /\
  division s' = division s /\ division_type s' = division_type s /\
  start_counter s' = start_counter s.

(** The accumulator of delta-times does not decrease. *)
Definition delta_grows (s s' : MidiFile) : Prop :=
  delta_time s <= delta_time s'.

(** A symbol of the alphabet: a string of one character of
    [VIRTUAL_PIANO_SCALE]. *)
Definition scale_symbol (x : string) : Prop :=
  exists c, x = String c EmptyString /\
            In c (list_ascii_of_string VIRTUAL_PIANO_SCALE).

(** Notes are only appended, each with a symbol of the alphabet. *)
Definition notes_grow (s s' : MidiFile) : Prop :=
  exists l, notes s' = notes s ++ l /\
            Forall (fun n => scale_symbol (snd n)) l.

(** Two entries of different times. *)
Definition time_differs (a b : note) : Prop :=
  Qeq_bool (fst a) (fst b) = false.

(** Number of symbols held by the entries of a note list. *)
Definition symbol_count (l : list note) : nat :=
  list_sum (map (fun n => String.length (snd n)) l).

(** Number of line feeds of a text. *)
Fixpoint count_newlines (t : string) : nat :=
  match t with
  | EmptyString => O
  | String c t' =>
      ((if Ascii.eqb c "010"%char then 1 else 0) + count_newlines t')%nat
  end.

(** The decoder [s0] while only the scanner has run: the cursor at [i], the
    counters of the two chunk signatures at 0 and the counter of 0xFF at
    [k]. *)
Definition scanning (s0 : MidiFile) (i k : Z) : MidiFile :=
  set_start_counter [0; 0; k] (set_itr i s0).

(** The scanner has run on [s0], and nothing else. *)
Definition only_scanned (s0 s : MidiFile) : Prop :=
  exists i k, 0 <= i /\ (k = 0 \/ k = 1) /\ s = scanning s0 i k.

(** The layout of the sheet, stated without the loop of
    [generate_piano_sheet].  A cell is a chord, in brackets when it has more
    than one symbol, right-aligned in 7 columns and followed by a space. *)
Definition cell (n : note) : string :=
  (rjust7 (if (1 <? String.length (snd n))%nat
           then ("[" ++ snd n ++ "]")%string else snd n) ++ " ")%string.

(** The cells of a row of chords, one after the other. *)
Definition cells (row : list note) : string :=
  fold_right (fun n t => (cell n ++ t)%string) EmptyString row.

(** The rows [rows], a line feed after each of them, and then the row
    [last]. *)
Definition sheet_rows (rows : list (list note)) (last : list note) : string :=
  fold_right (fun row t => (cells row ++ String "010"%char t)%string)
    (cells last) rows.

(** The body of the loop of [read_length]. *)
Definition read_length_body (r : bool * Z) : M (bool * Z) :=
  let length := snd r in
  b <- (i <- gets itr ;; byte_at i) ;;
  r <- (if Z.shiftr (Z.land b 0x80) 7 =? 0x1 then
          ret (true, Z.shiftl length 7 + Z.land b 0x7F)
        else
          ret (false, Z.shiftl length 7 + Z.land b 0x7F)) ;;
  modify (fun s => set_itr (itr s + 1) s) ;;;
  ret r.

(** * Properties *)

(** ** Pitch mapping *)

Lemma fold_down_lt (m : Z) : fold_down m < scale_len.
Proof. funelim (fold_down m); assumption. Qed.

Lemma fold_down_id (m : Z) : m < scale_len -> fold_down m = m.
Proof.
  funelim (fold_down m); intros Hm; [|reflexivity].
  exfalso. clear - g Hm. lia.
Qed.

Lemma fold_down_high (m : Z) :
  scale_len <= m -> fold_down m = scale_len - 12 + (m - scale_len) mod 12.
Proof.
  funelim (fold_down m); intros Hm; [|exfalso; clear - l Hm; lia].
  clear Heq Heqcall.
  destruct (Z_lt_ge_dec (mapped_key - 12) scale_len) as [Hlt|Hge].
  - rewrite fold_down_id by assumption.
    rewrite Z.mod_small by lia. lia.
  - rewrite H by lia.
    replace (mapped_key - scale_len) with (mapped_key - 12 - scale_len + 1 * 12) by lia.
    rewrite Z.mod_add by lia. reflexivity.
Qed.

Lemma fold_up_id (m : Z) : 0 <= m -> fold_up m = m.
Proof.
  funelim (fold_up m); intros Hm; [|reflexivity].
  exfalso. clear - l Hm. lia.
Qed.

Lemma fold_up_low (m : Z) : m < 0 -> fold_up m = m mod 12.
Proof.
  funelim (fold_up m); intros Hm; [|exfalso; clear - g Hm; lia].
  clear Heq Heqcall.
  destruct (Z_lt_ge_dec (mapped_key + 12) 0) as [Hlt|Hge].
  - rewrite H by assumption.
    replace (mapped_key + 12) with (mapped_key + 1 * 12) by lia.
    apply Z.mod_add. lia.
  - rewrite fold_up_id by lia.
    replace mapped_key with (mapped_key + 12 + (-1) * 12) at 2 by lia.
    rewrite Z.mod_add by lia. rewrite Z.mod_small; lia.
Qed.

(** Closed form of the two folding loops. *)
Lemma map_key_to_piano_closed (key : Z) :
  map_key_to_piano key =
    if key - 36 <? 0 then (key - 36) mod 12
    else if key - 36 <? scale_len then key - 36
    else scale_len - 12 + (key - 36 - scale_len) mod 12.
Proof.
  unfold map_key_to_piano.
  destruct (Z.ltb_spec (key - 36) 0) as [Hneg|Hpos].
  - rewrite (fold_down_id (key - 36)) by (change scale_len with 62; lia).
    apply fold_up_low; assumption.
  - destruct (Z.ltb_spec (key - 36) scale_len) as [Hin|Hout].
    + rewrite fold_down_id by assumption. apply fold_up_id; assumption.
    + rewrite fold_down_high by assumption.
      apply fold_up_id.
      pose proof (Z.mod_pos_bound (key - 36 - scale_len) 12 ltac:(lia)).
      change scale_len with 62 in *. lia.
Qed.

Lemma string_getitem_in_range (s : string) (i : Z) :
  0 <= i < Z.of_nat (String.length s) ->
  exists c, string_getitem s i = OK (String c EmptyString).
Proof.
  intros Hi. unfold string_getitem, getitem.
  assert (Hlen : List.length (list_ascii_of_string s) = String.length s).
  { clear Hi. induction s as [|c s IH]; simpl; [reflexivity | now rewrite IH]. }
  rewrite Hlen.
  destruct (Z.ltb_spec i 0); [lia|].
  destruct (Z.leb_spec 0 i); [|lia].
  destruct (Z.ltb_spec i (Z.of_nat (String.length s))); [|lia].
  simpl.
  destruct (nth_error (list_ascii_of_string s) (Z.to_nat i)) eqn:E.
  - eexists; reflexivity.
  - apply nth_error_None in E. lia.
Qed.

(** C8: for every 7-bit key, [map_key_to_piano] (a total function: both folding
    loops terminate) returns an index in [0, L), L the length of the alphabet,
    so that indexing the alphabet with it does not raise; the index is
    key - 36 folded into range by shifts of 12: congruent to key - 36 modulo
    12, equal to key - 36 when that is in range, and in the top (bottom)
    octave of the range when key - 36 is above (below) it. *)
Theorem map_key_to_piano_in_range (key : Z) :
  0 <= key <= 127 ->
  0 <= map_key_to_piano key < scale_len /\
  (map_key_to_piano key - (key - 36)) mod 12 = 0 /\
  (0 <= key - 36 < scale_len -> map_key_to_piano key = key - 36) /\
  (key - 36 < 0 -> map_key_to_piano key < 12) /\
  (scale_len <= key - 36 -> scale_len - 12 <= map_key_to_piano key) /\
  exists c, string_getitem VIRTUAL_PIANO_SCALE (map_key_to_piano key)
            = OK (String c EmptyString).
Proof.
  intros Hkey.
  assert (Hrange : 0 <= map_key_to_piano key < scale_len).
  { rewrite map_key_to_piano_closed.
    pose proof (Z.mod_pos_bound (key - 36) 12 ltac:(lia)).
    pose proof (Z.mod_pos_bound (key - 36 - scale_len) 12 ltac:(lia)).
    change scale_len with 62 in *.
    destruct (Z.ltb_spec (key - 36) 0); [lia|].
    destruct (Z.ltb_spec (key - 36) 62); lia. }
  split; [exact Hrange|].
  rewrite map_key_to_piano_closed.
  pose proof (Z.mod_pos_bound (key - 36) 12 ltac:(lia)) as Hlo.
  pose proof (Z.mod_pos_bound (key - 36 - scale_len) 12 ltac:(lia)) as Hhi.
  change scale_len with 62 in *.
  repeat split.
  - destruct (Z.ltb_spec (key - 36) 0).
    + rewrite Zminus_mod, Z.mod_mod, Z.sub_diag by lia. reflexivity.
    + destruct (Z.ltb_spec (key - 36) 62).
      * rewrite Z.sub_diag. reflexivity.
      * replace (62 - 12 + (key - 36 - 62) mod 12 - (key - 36))
          with ((key - 36 - 62) mod 12 - (key - 36 - 62 + 1 * 12)) by lia.
        rewrite Zminus_mod, Z.mod_mod, Z.mod_add, Z.sub_diag by lia.
        reflexivity.
  - intros H. destruct (Z.ltb_spec (key - 36) 0); [lia|].
    destruct (Z.ltb_spec (key - 36) 62); lia.
  - intros H. destruct (Z.ltb_spec (key - 36) 0); lia.
  - intros H. destruct (Z.ltb_spec (key - 36) 0); [lia|].
    destruct (Z.ltb_spec (key - 36) 62); lia.
  - rewrite <- map_key_to_piano_closed.
    apply string_getitem_in_range. exact Hrange.
Qed.

Lemma map_key_to_piano_in_range_witness :
  0 <= map_key_to_piano 60 < scale_len /\
  (map_key_to_piano 60 - (60 - 36)) mod 12 = 0.
Proof.
  destruct (map_key_to_piano_in_range 60 ltac:(lia)) as (H1 & H2 & _).
  split; [exact H1 | exact H2].
Defined.

(** ** Float quotient *)

(** On operands that are floats themselves, [nearest_binary64] is the
    division of binary64 numbers. *)
Lemma nearest_binary64_samples :
  Forall (fun '(n, d) =>
            Prim2SF (PrimFloat.div (float_of_int n) (float_of_int d))
            = S754_finite false (Z.to_pos (fst (nearest_binary64 n d)))
                (snd (nearest_binary64 n d)))
    [(1, 3); (2, 3); (7, 480); (480, 480); (961, 480); (123456789, 32767);
     (1, 32767); (4503599627370497, 3)].
Proof. repeat constructor. Qed.

Lemma truediv_samples :
  truediv 480 480 = OK 1%Q /\
  truediv 240 480 = OK (1 # 2)%Q /\
  truediv 960 (-1) = OK (-960 # 1)%Q /\
  truediv 1 3 = OK (6004799503160661 # 18014398509481984)%Q /\
  truediv 1 0 = Raise ZeroDivisionError /\
  truediv (2 ^ 1024 - 2 ^ 970) 1 = Raise OverflowError.
Proof. repeat split; vm_compute; reflexivity. Qed.

(** ** Fixed-width reads *)

Lemma fold_left_be_value (l : list Z) (acc : Z) :
  fold_left (fun value n => Z.shiftl value 8 + n) l acc
  = acc * 256 ^ len l + be_value l.
Proof.
  revert acc. induction l as [|b l IH]; intros acc.
  - simpl. unfold len. simpl. lia.
  - cbn [fold_left]. rewrite IH. cbn [be_value].
    rewrite Z.shiftl_mul_pow2 by lia.
    unfold len. simpl List.length. rewrite Nat2Z.inj_succ, Z.pow_succ_r by lia.
    change (2 ^ 8) with 256. ring.
Qed.

Lemma getslice_from (A : Type) (l : list A) (a size : Z) :
  0 <= a -> 0 <= size ->
  getslice l a (a + size) = firstn (Z.to_nat size) (skipn (Z.to_nat a) l).
Proof.
  intros Ha Hsize. unfold getslice, slice_bound.
  destruct (Z.ltb_spec a 0); [lia|].
  destruct (Z.ltb_spec (a + size) 0); [lia|].
  set (n := Z.of_nat (List.length l)).
  destruct (Z_lt_ge_dec a n) as [Hlt|Hge].
  - rewrite (Z.min_l a n) by lia.
    destruct (Z_le_gt_dec (a + size) n) as [Hle|Hgt].
    + rewrite Z.min_l by lia. do 2 f_equal. lia.
    + rewrite Z.min_r by lia.
      rewrite !firstn_all2; [reflexivity | |]; rewrite length_skipn; lia.
  - rewrite (Z.min_r a n) by lia.
    rewrite (skipn_all2 l (n := Z.to_nat n)) by lia.
    rewrite (skipn_all2 l (n := Z.to_nat a)) by lia.
    rewrite !firstn_nil. reflexivity.
Qed.

Lemma in_firstn (A : Type) (n : nat) (l : list A) (x : A) :
  In x (firstn n l) -> In x l.
Proof.
  intros H. rewrite <- (firstn_skipn n l). apply in_or_app. left. exact H.
Qed.

Lemma in_skipn (A : Type) (n : nat) (l : list A) (x : A) :
  In x (skipn n l) -> In x l.
Proof.
  intros H. rewrite <- (firstn_skipn n l). apply in_or_app. right. exact H.
Qed.

Lemma be_value_bound (l : list Z) :
  Forall (fun b => 0 <= b < 256) l -> 0 <= be_value l < 256 ^ len l.
Proof.
  induction 1 as [|b l Hb Hl IH]; cbn [be_value].
  - unfold len; simpl; lia.
  - unfold len in *. cbn [List.length].
    rewrite Nat2Z.inj_succ, Z.pow_succ_r by lia.
    assert (0 < 256 ^ Z.of_nat (List.length l)) by (apply Z.pow_pos_nonneg; lia).
    nia.
Qed.

Lemma byte_val_bound (b : byte) : 0 <= byte_val b < 256.
Proof.
  unfold byte_val. pose proof (Byte.to_N_bounded b). lia.
Qed.

(** C4 (as amended): [get_int] never fails.  From a position inside the
    buffer it returns the big-endian value of the bytes that are there among
    the next [size] ones and advances the position by exactly [size]; when
    [size] bytes remain these are the [size] bytes read and the position stays
    within [0, len(bytes)], and when fewer remain the value is that of the
    shorter run and the position ends beyond the buffer. *)
Theorem get_int_reads_available (s : MidiFile) (size : Z) :
  0 <= itr s -> 0 <= size ->
  let avail :=
    firstn (Z.to_nat size) (skipn (Z.to_nat (itr s)) (map byte_val (bytes s))) in
  get_int size s = OK (be_value avail, set_itr (itr s + size) s) /\
  itr (set_itr (itr s + size) s) = itr s + size /\
  len avail = Z.min size (Z.max 0 (len (bytes s) - itr s)) /\
  0 <= be_value avail < 256 ^ size /\
  (itr s + size <= len (bytes s) ->
   len avail = size /\ 0 <= itr s + size <= len (bytes s)) /\
  (itr s <= len (bytes s) < itr s + size ->
   len avail < size /\ len (bytes s) < itr (set_itr (itr s + size) s)).
Proof.
  intros Hitr Hsize avail.
  assert (Hlen : len avail = Z.min size (Z.max 0 (len (bytes s) - itr s))).
  { unfold avail, len.
    rewrite length_firstn, length_skipn, length_map. lia. }
  assert (Hval : 0 <= be_value avail < 256 ^ len avail).
  { apply be_value_bound. unfold avail.
    apply Forall_forall. intros b Hb.
    apply in_firstn in Hb. apply in_skipn in Hb.
    apply in_map_iff in Hb. destruct Hb as (x & <- & _).
    apply byte_val_bound. }
  repeat split; try lia.
  - unfold get_int, bind, gets, modify, ret.
    rewrite getslice_from by assumption.
    rewrite fold_left_be_value. reflexivity.
  - assert (256 ^ len avail <= 256 ^ size)
      by (apply Z.pow_le_mono_r; unfold len in *; lia).
    lia.
  - simpl. lia.
Qed.

Lemma get_int_reads_available_witness :
  get_int 2 (at_offset header_480 12) = OK (480, at_offset header_480 14).
Proof.
  destruct (get_int_reads_available (at_offset header_480 12) 2
              ltac:(simpl; lia) ltac:(lia)) as (H & _).
  exact H.
Defined.

(** C4 (counterexample): with one byte left, a read of two bytes does not
    fail; it returns the value of the single byte and leaves the position
    beyond the end of the buffer. *)
Lemma get_int_short_read_does_not_fail :
  let s := at_offset [0x01] 0 in
  0 <= itr s <= len (bytes s) /\
  len (bytes s) - itr s < 2 /\
  get_int 2 s = OK (1, set_itr 2 s) /\
  (forall e, get_int 2 s <> Raise e) /\
  len (bytes s) < itr (set_itr 2 s).
Proof.
  cbv zeta. repeat split; try (vm_compute; congruence).
Qed.

(** ** Header chunk *)

Lemma division_flag_shift (div : Z) : Z.shiftr (Z.land div 0x8000) 16 = 0.
Proof.
  apply Z.bits_inj'. intros n Hn.
  rewrite Z.shiftr_spec, Z.land_spec, Z.bits_0 by assumption.
  rewrite (Z.bits_above_log2 0x8000 (n + 16)); [apply andb_false_r | lia |].
  change (Z.log2 0x8000) with 15. lia.
Qed.

(** Whatever the header holds, [read_mthd] stores 0 as division type. *)
Lemma read_mthd_division_type (s : MidiFile) :
  exists s', read_mthd s = OK (tt, s') /\ division_type s' = 0.
Proof.
  unfold read_mthd, bind, get_int, modify, gets, ret. cbn beta iota.
  eexists. split; [reflexivity|]. cbn [division_type set_division set_division_type].
  apply division_flag_shift.
Qed.

(** C6 (failing input): the header has division [0xE728], whose bit 15 is
    set (SMPTE); [read_mthd] stores division type 0, the value of
    TicksPerQuarterNote, where the claim has 1; the low 15 bits are stored as
    the claim says. *)
Theorem read_mthd_smpte_division_type_lost :
  exists s',
    read_mthd (at_offset header_smpte 4) = OK (tt, s') /\
    Z.testbit 0xE728 15 = true /\
    division_type s' = 0 /\
    division s' = Z.land 0xE728 0x7FFF /\
    itr s' = 14.
Proof.
  eexists. split; [vm_compute; reflexivity|].
  repeat split.
Qed.

(** ** Meta-events *)

(** For every text-class type and every declared length, the event ends in
    the state in which the length field has just been read. *)
Lemma text_meta_event_ends_after_length (delta_t : Z) (s : MidiFile)
    (event_type : Z) :
  getitem (map byte_val (bytes s)) (itr s) = OK event_type ->
  mem event_type text_event_types = true ->
  read_midi_meta_event delta_t s =
    match read_length
            (set_itr (itr s + 1)
               (set_trace (trace s ++ [AtMeta event_type]) s)) with
    | OK (_, s1) => OK (true, s1)
    | Raise e => Raise e
    | OutOfFuel => OutOfFuel
    end.
Proof.
  intros Hget Hmem.
  assert (Hne : (event_type =? 0x2F) = false).
  { unfold mem, text_event_types in Hmem. cbn [existsb] in Hmem.
    repeat (apply orb_true_iff in Hmem; destruct Hmem as [Hmem|Hmem];
            [apply Z.eqb_eq in Hmem; subst; reflexivity|]).
    discriminate. }
  unfold read_midi_meta_event.
  unfold bind at 1. unfold bind at 1. unfold gets at 1.
  unfold byte_at, bind at 1, gets at 1, lift at 1. rewrite Hget.
  unfold bind at 1. unfold emit, modify at 1.
  unfold bind at 1. unfold modify at 1.
  cbn [itr set_trace].
  unfold bind at 1.
  match goal with
  | |- match read_length ?x with _ => _ end = match read_length ?y with _ => _ end =>
      change x with y; destruct (read_length y) as [[length s1]|e|]
  end; try reflexivity.
  rewrite Hne, Hmem. reflexivity.
Qed.

(** C2 (failing input): a track-name event (type 0x03) with a payload of 2
    bytes leaves the cursor right after the length field, at offset 2, not 2
    bytes further; the branch of the other event types (here 0x7F) skips the
    same payload and ends at offset 4. *)
Theorem text_meta_event_payload_not_consumed :
  (exists s',
     read_midi_meta_event 0 (at_offset meta_track_name 0) = OK (true, s') /\
     itr s' = 2) /\
  (exists s',
     read_midi_meta_event 0 (at_offset meta_sequencer 0) = OK (true, s') /\
     itr s' = 2 + 2).
Proof.
  split; eexists; (split; [vm_compute; reflexivity | reflexivity]).
Qed.

(** C1 (failing input): a Set Tempo event of 1000000 microseconds per
    quarter note stores tempo 240, where [round(60_000_000 / 1000000)] is 60;
    the payload 0x07 0xA1 0x20 (500000) stores 120, the one value on which the
    two conversions agree. *)
Theorem set_tempo_multiplies_instead_of_dividing :
  (exists s',
     read_midi_meta_event 0 (at_offset meta_tempo_1000000 0) = OK (true, s') /\
     tempo s' = 240 /\ spec_bpm 1000000 = 60) /\
  (exists s',
     read_midi_meta_event 0 (at_offset meta_tempo_500000 0) = OK (true, s') /\
     tempo s' = 120 /\ spec_bpm 500000 = 120).
Proof.
  split; eexists; (split; [vm_compute; reflexivity | split; reflexivity]).
Qed.

(** ** Export *)

(** Whenever the note list is empty the export writes [song.json] and then
    raises. *)
Lemma export_of_empty_notes (s : MidiFile) (w : files) :
  notes s = [] ->
  process_notes s w
  = (Raise IndexError, mkFiles (Some (mkSong (tempo s) [])) (sheet_txt w)).
Proof.
  intros Hnotes.
  unfold process_notes, consolidate, bind, modify, merge_notes, gets, ret.
  rewrite Hnotes. reflexivity.
Qed.

(** C7 (failing input): the file decodes without error to an empty note
    list; [process_notes] then writes [song.json] and raises [IndexError] in
    [generate_piano_sheet], which reads [self.notes[0]]; no sheet is
    written. *)
Theorem export_of_empty_song_raises :
  (exists s, MidiFile_new (bytes_of file_no_notes) None = OK s /\ notes s = []) /\
  convert (bytes_of file_no_notes) None no_files
  = (Raise IndexError, mkFiles (Some (mkSong 120 [])) None).
Proof.
  split; [eexists; split; [vm_compute; reflexivity | reflexivity]|].
  vm_compute. reflexivity.
Qed.

(** The end-to-end scenario decodes to tempo 120 and one chord at time 0
    with the symbol of key 60. *)
Lemma scenario_exports_one_chord :
  exists s,
    convert (bytes_of file_scenario) None no_files
    = (OK s, mkFiles (Some (mkSong 120 [(0%Q, "q"%string)]))
               (Some "      q "%string)) /\
    string_getitem VIRTUAL_PIANO_SCALE (map_key_to_piano 60) = OK "q"%string.
Proof. eexists. split; vm_compute; reflexivity. Qed.

(** ** Frame reasoning on methods *)

Lemma bind_OK {A B} (m : M A) (k : A -> M B) (s : MidiFile) (r : B * MidiFile) :
  bind m k s = OK r ->
  exists a s1, m s = OK (a, s1) /\ k a s1 = OK r.
Proof.
  unfold bind. destruct (m s) as [[a s1]|e|]; intros H; try discriminate.
  exists a, s1. split; [reflexivity | exact H].
Qed.

Section Preserves.
Context (R : MidiFile -> MidiFile -> Prop) {R_pre : PreOrder R}.

Lemma preserves_ret {A} (a : A) : preserves R (ret a).
Proof. intros s a' s' H. injection H as _ <-. reflexivity. Qed.

Lemma preserves_gets {A} (f : MidiFile -> A) : preserves R (gets f).
Proof. intros s a' s' H. injection H as _ <-. reflexivity. Qed.

Lemma preserves_lift {A} (r : result A) : preserves R (lift r).
Proof.
  intros s a' s' H. unfold lift in H.
  destruct r; try discriminate. injection H as _ <-. reflexivity.
Qed.

Lemma preserves_modify (f : MidiFile -> MidiFile) :
  (forall s, R s (f s)) -> preserves R (modify f).
Proof. intros Hf s a' s' H. injection H as _ <-. apply Hf. Qed.

Lemma preserves_bind {A B} (m : M A) (k : A -> M B) :
  preserves R m -> (forall a, preserves R (k a)) -> preserves R (bind m k).
Proof.
  intros Hm Hk s b s' H.
  apply bind_OK in H. destruct H as (a & s1 & H1 & H2).
  transitivity s1; [eapply Hm | eapply Hk]; eassumption.
Qed.

Lemma preserves_while {X} (fuel : nat) (cond : X -> MidiFile -> bool)
    (body : X -> M X) (x : X) :
  (forall x, preserves R (body x)) -> preserves R (while fuel cond body x).
Proof.
  intros Hbody. revert x.
  induction fuel as [|fuel IH]; intros x s x' s' H; simpl in H.
  - destruct (cond x s); [discriminate|]. injection H as _ <-. reflexivity.
  - destruct (cond x s).
    + revert H. apply preserves_bind; [apply Hbody | exact IH].
    + injection H as _ <-. reflexivity.
Qed.

Lemma preserves_for_range (n : nat) (k : Z) (body : Z -> M unit) :
  (forall i, preserves R (body i)) -> preserves R (for_range n k body).
Proof.
  intros Hbody. revert k.
  induction n as [|n IH]; intros k; simpl.
  - apply preserves_ret.
  - apply preserves_bind; [apply Hbody | intros _; apply IH].
Qed.
End Preserves.

Create HintDb pres discriminated.

(** Walks through a method built from the combinators; what is left are the
    assignments, as goals [R s (f s)]. *)
Ltac pres_step :=
  lazymatch goal with
  | |- preserves _ (ret _) => apply preserves_ret; exact _
  | |- preserves _ (gets _) => apply preserves_gets; exact _
  | |- preserves _ (lift _) => apply preserves_lift; exact _
  | |- preserves _ (bind _ _) => apply preserves_bind; [exact _ | | intros ?]
  | |- preserves _ (while _ _ _ _) => apply preserves_while; [exact _ | intros ?]
  | |- preserves _ (for_range _ _ _) =>
      apply preserves_for_range; [exact _ | intros ?]
  | |- preserves _ (modify _) => apply preserves_modify; intros ?
  | |- preserves _ (if ?c then _ else _) => destruct c eqn:?
  | |- preserves _ (let _ := _ in _) => cbv zeta
  end.

Ltac pres_unfold :=
  progress unfold byte_at, skip, get_int, read_length, emit, read_mthd,
    read_voice_event, track_event_body, read_midi_track_event, read_mtrk,
    set_counter, scan_body, read_events, merge_notes, consolidate.

Ltac pres :=
  repeat first
    [ solve [auto with pres]
    | pres_step
    | pres_unfold ].

(** *** The tempo is written by Set Tempo events only *)

#[local] Instance tempo_kept_preorder : PreOrder tempo_kept.
Proof.
  split.
  - intros s. exists []. rewrite app_nil_r. auto.
  - intros s1 s2 s3 (t & Ht & H) (t' & Ht' & H').
    exists (t ++ t'). rewrite Ht', Ht, app_assoc. split; [reflexivity|].
    destruct H as [H|H]; [|right; apply in_or_app; auto].
    destruct H' as [H'|H']; [left; congruence | right; apply in_or_app; auto].
Qed.

#[local] Instance in_track_preorder : PreOrder in_track.
Proof.
  split.
  - intros s. exists []. rewrite app_nil_r. auto.
  - intros s1 s2 s3 (t & Ht & H) (t' & Ht' & H').
    exists (t ++ t'). rewrite Ht', Ht, app_assoc. split; [reflexivity|].
    apply Forall_app; auto.
Qed.

(** An assignment that leaves the trace alone, or an [emit]. *)
Ltac same_trace := solve [exists []; rewrite app_nil_r; cbn; auto].
Ltac one_event :=
  solve [eexists; split;
         [cbn; reflexivity | cbn; first [solve [auto] | solve [repeat constructor]]]].

Lemma in_track_read_midi_meta_event (delta_t : Z) :
  preserves in_track (read_midi_meta_event delta_t).
Proof.
  unfold read_midi_meta_event. pres; first [same_trace | one_event].
Qed.
#[local] Hint Resolve in_track_read_midi_meta_event : pres.

Lemma in_track_read_midi_track_event (length : Z) :
  preserves in_track (read_midi_track_event length).
Proof. pres; same_trace. Qed.

Lemma in_track_get_int (size : Z) : preserves in_track (get_int size).
Proof. pres; same_trace. Qed.

Lemma tempo_kept_read_midi_meta_event (delta_t : Z) :
  preserves tempo_kept (read_midi_meta_event delta_t).
Proof.
  unfold read_midi_meta_event.
  apply preserves_bind; [exact _ | pres |]. intros event_type.
  destruct (Z.eq_dec event_type 0x51) as [->|Hne].
  - intros s b s' H.
    apply bind_OK in H. destruct H as ([] & s1 & H1 & H2).
    injection H1 as <-.
    assert (Hrest : in_track (set_trace (trace s ++ [AtMeta 0x51]) s) s').
    { revert H2. generalize (set_trace (trace s ++ [AtMeta 0x51]) s).
      intros s0 H2. revert s0 b s' H2.
      change (preserves in_track
        (modify (fun s => set_itr (itr s + 1) s) ;;;
         length <- read_length ;;
         (if 0x51 =? 0x2F then
            modify (fun s => set_itr (itr s + 2) s) ;;; ret false
          else
            (if mem 0x51 text_event_types then ret tt
             else if 0x51 =? 0x51 then
               v <- get_int 3 ;;
               t <- lift (py_round (PrimFloat.mul (float_of_int v) tempo_factor)) ;;
               modify (set_tempo t)
             else modify (fun s => set_itr (itr s + length) s)) ;;;
            ret true))).
      pres; same_trace. }
    destruct Hrest as (t & Ht & _). cbn in Ht.
    exists ([AtMeta 0x51] ++ t). rewrite Ht, app_assoc.
    split; [reflexivity|]. right. apply in_or_app. left. left. reflexivity.
  - pres; try first [same_trace | one_event].
    exfalso. apply Hne. apply Z.eqb_eq. assumption.
Qed.
#[local] Hint Resolve tempo_kept_read_midi_meta_event : pres.

Lemma tempo_kept_read_events : preserves tempo_kept read_events.
Proof. pres; first [same_trace | one_event]. Qed.

(** ** The merging loop *)

Lemma getitem_app {A} (pre : list A) (x : A) (rest : list A) :
  getitem (pre ++ x :: rest) (len pre) = OK x.
Proof.
  unfold getitem, len.
  destruct (Z.ltb_spec (Z.of_nat (List.length pre)) 0); [lia|].
  rewrite length_app. cbn [List.length].
  destruct (Z.leb_spec 0 (Z.of_nat (List.length pre))); [|lia].
  destruct (Z.ltb_spec (Z.of_nat (List.length pre))
              (Z.of_nat (List.length pre + S (List.length rest)))); [|lia].
  cbn [andb]. rewrite Nat2Z.id.
  rewrite nth_error_app2 by lia. rewrite Nat.sub_diag. reflexivity.
Qed.

Lemma setitem_app {A} (pre : list A) (x y : A) (rest : list A) :
  setitem (pre ++ x :: rest) (len pre) y = OK (pre ++ y :: rest).
Proof.
  unfold setitem. rewrite getitem_app. unfold len.
  destruct (Z.ltb_spec (Z.of_nat (List.length pre)) 0); [lia|].
  rewrite Nat2Z.id.
  rewrite firstn_app, firstn_all, Nat.sub_diag. cbn [firstn]. rewrite app_nil_r.
  replace (S (List.length pre)) with (List.length (pre ++ [x]))
    by (rewrite length_app; simpl; lia).
  replace (pre ++ x :: rest) with ((pre ++ [x]) ++ rest)
    by (rewrite <- app_assoc; reflexivity).
  rewrite skipn_app, skipn_all, Nat.sub_diag. reflexivity.
Qed.

Lemma pop_app {A} (pre : list A) (x : A) (rest : list A) :
  pop (pre ++ x :: rest) (len pre) = OK (x, pre ++ rest).
Proof.
  unfold pop. rewrite getitem_app. unfold len.
  destruct (Z.ltb_spec (Z.of_nat (List.length pre)) 0); [lia|].
  rewrite Nat2Z.id.
  rewrite firstn_app, firstn_all, Nat.sub_diag. cbn [firstn]. rewrite app_nil_r.
  replace (S (List.length pre)) with (List.length (pre ++ [x]))
    by (rewrite length_app; simpl; lia).
  replace (pre ++ x :: rest) with ((pre ++ [x]) ++ rest)
    by (rewrite <- app_assoc; reflexivity).
  rewrite skipn_app, skipn_all, Nat.sub_diag. reflexivity.
Qed.

Lemma set_notes_same (s : MidiFile) : set_notes (notes s) s = s.
Proof. destruct s; reflexivity. Qed.

Lemma len_app1 {A} (pre : list A) (x : A) : len (pre ++ [x]) = len pre + 1.
Proof. unfold len. rewrite length_app. simpl. lia. Qed.

Lemma merge_body_closed (pre : list note) (prev cur : note) (rest : list note)
    (s : MidiFile) :
  notes s = pre ++ prev :: cur :: rest ->
  merge_body (len pre + 1) s =
    if Qeq_bool (fst prev) (fst cur) then
      OK (len pre + 1,
          set_notes (pre ++ (fst cur, (snd cur ++ snd prev)%string) :: rest) s)
    else OK (len pre + 1 + 1, s).
Proof.
  intros Hnotes.
  assert (H1 : getitem (notes s) (len pre + 1 - 1) = OK prev).
  { rewrite Hnotes. replace (len pre + 1 - 1) with (len pre) by lia.
    apply getitem_app. }
  assert (Hsplit : notes s = (pre ++ [prev]) ++ cur :: rest).
  { rewrite Hnotes, <- app_assoc. reflexivity. }
  assert (H2 : getitem (notes s) (len pre + 1) = OK cur).
  { rewrite Hsplit, <- (len_app1 pre prev). apply getitem_app. }
  assert (H3 : forall y, setitem (notes s) (len pre + 1) y
                         = OK (pre ++ prev :: y :: rest)).
  { intros y. rewrite Hsplit, <- (len_app1 pre prev), setitem_app, <- app_assoc.
    reflexivity. }
  assert (H4 : forall y, pop (pre ++ prev :: y :: rest) (len pre + 1 - 1)
                         = OK (prev, pre ++ y :: rest)).
  { intros y. replace (len pre + 1 - 1) with (len pre) by lia.
    apply pop_app. }
  unfold merge_body, bind, gets, lift, modify, ret.
  rewrite H1, H2.
  destruct (Qeq_bool (fst prev) (fst cur)); [|reflexivity].
  rewrite H3. cbn [notes set_notes]. rewrite H4. reflexivity.
Qed.

(** The loop of [merge_notes], entered with [i - 1] notes final before
    [prev] and the notes [rest] to go, leaves [merge_from prev rest] after
    the final notes; it needs one unit of fuel for each note to go. *)
Lemma merge_loop_closed (rest pre : list note) (prev : note) (s : MidiFile)
    (fuel : nat) :
  notes s = pre ++ prev :: rest ->
  (List.length rest <= fuel)%nat ->
  exists i,
    while fuel (fun i s => i <? len (notes s)) merge_body (len pre + 1) s
    = OK (i, set_notes (pre ++ merge_from prev rest) s).
Proof.
  revert pre prev s fuel.
  induction rest as [|cur rest IH]; intros pre prev s fuel Hnotes Hfuel.
  - exists (len pre + 1).
    assert (Hcond : (len pre + 1 <? len (notes s)) = false).
    { rewrite Hnotes. apply Z.ltb_ge. unfold len.
      rewrite length_app. cbn [List.length]. lia. }
    destruct fuel; simpl; rewrite Hcond, <- Hnotes, set_notes_same; reflexivity.
  - destruct fuel as [|fuel]; [simpl in Hfuel; lia|].
    assert (Hcond : (len pre + 1 <? len (notes s)) = true).
    { rewrite Hnotes. apply Z.ltb_lt. unfold len.
      rewrite length_app. cbn [List.length]. lia. }
    cbn [while]. rewrite Hcond. unfold bind at 1.
    rewrite (merge_body_closed pre prev cur rest s Hnotes).
    cbn [merge_from].
    destruct (Qeq_bool (fst prev) (fst cur)).
    + destruct (IH pre (fst cur, (snd cur ++ snd prev)%string)
                  (set_notes (pre ++ (fst cur, (snd cur ++ snd prev)%string) :: rest) s)
                  fuel) as (i & Hi).
      * reflexivity.
      * simpl in Hfuel. lia.
      * exists i. rewrite Hi. reflexivity.
    + destruct (IH (pre ++ [prev]) cur s fuel) as (i & Hi).
      * rewrite Hnotes, <- app_assoc. reflexivity.
      * simpl in Hfuel. lia.
      * exists i. rewrite <- (len_app1 pre prev), Hi, <- app_assoc. reflexivity.
Qed.

Lemma merge_notes_closed (s : MidiFile) :
  merge_notes s = OK (tt, set_notes (merged (notes s)) s).
Proof.
  assert (H : exists i,
    while (List.length (notes s)) (fun i s => i <? len (notes s)) merge_body 1 s
    = OK (i, set_notes (merged (notes s)) s)).
  { destruct (notes s) as [|n l] eqn:Hnotes.
    - exists 1. cbn [List.length while]. rewrite Hnotes.
      cbn. rewrite <- Hnotes, set_notes_same. reflexivity.
    - apply (merge_loop_closed l [] n s); [exact Hnotes | simpl; lia]. }
  destruct H as (i & Hi).
  unfold merge_notes, bind, gets, ret. rewrite Hi. reflexivity.
Qed.

Lemma merge_from_nonempty (rest : list note) (prev : note) :
  merge_from prev rest <> [].
Proof.
  revert prev. induction rest as [|cur rest IH]; intros prev; cbn [merge_from].
  - discriminate.
  - destruct (Qeq_bool (fst prev) (fst cur)); [apply IH | discriminate].
Qed.

Lemma insert_note_nonempty (x : note) (l : list note) : insert_note x l <> [].
Proof.
  destruct l as [|y l]; cbn [insert_note]; [discriminate|].
  destruct (note_lt y x); discriminate.
Qed.

Lemma consolidated_nonempty (l : list note) : l <> [] -> consolidated l <> [].
Proof.
  intros Hl. unfold consolidated.
  destruct l as [|x l]; [contradiction|].
  cbn [sort_notes fold_right].
  pose proof (insert_note_nonempty x (fold_right insert_note [] l)) as Hi.
  destruct (insert_note x (fold_right insert_note [] l)) as [|n m];
    [contradiction|].
  cbn [merged]. pose proof (merge_from_nonempty m n) as Hm.
  destruct (merge_from n m); [contradiction | discriminate].
Qed.

(** [consolidate] always returns, with [consolidated] notes and nothing else
    changed. *)
Lemma consolidate_closed (s : MidiFile) :
  consolidate s = OK (tt, set_notes (consolidated (notes s)) s).
Proof.
  unfold consolidate, bind, modify. rewrite merge_notes_closed. reflexivity.
Qed.

(** With at least one note the export returns and writes both files. *)
Lemma export_of_nonempty_song (s : MidiFile) (w : files) :
  notes s <> [] ->
  exists s1 sheet,
    process_notes s w
    = (OK s1, mkFiles (Some (mkSong (tempo s) (consolidated (notes s))))
                (Some sheet)).
Proof.
  intros Hne. unfold process_notes. rewrite consolidate_closed.
  unfold generate_piano_sheet. cbn [notes set_notes tempo].
  apply consolidated_nonempty in Hne.
  destruct (consolidated (notes s)) as [|n l] eqn:E; [contradiction|].
  cbn. eexists. eexists. reflexivity.
Qed.

(** C10: when a decode succeeds without having handled a Set Tempo
    meta-event (type 0x51), the tempo of the decoder and the tempo written to
    [song.json] are the default tempo given to the constructor, 120 when it is
    omitted: nothing else in the decode or in the consolidation assigns the
    tempo. *)
Theorem tempo_default_without_set_tempo (content : list byte)
    (default_tempo : option Z) (s : MidiFile) :
  MidiFile_new content default_tempo = OK s ->
  ~ In (AtMeta 0x51) (trace s) ->
  tempo s = match default_tempo with Some t => t | None => 120 end /\
  forall w,
    option_map song_tempo (song_json (snd (process_notes s w)))
    = Some (match default_tempo with Some t => t | None => 120 end).
Proof.
  intros Hnew Hno.
  assert (Htempo : tempo s = match default_tempo with Some t => t | None => 120 end).
  { unfold MidiFile_new in Hnew.
    destruct (read_events _) as [[[] s0]|e|] eqn:Hrun; try discriminate.
    injection Hnew as ->.
    apply tempo_kept_read_events in Hrun.
    destruct Hrun as (t & Ht & [H|H]).
    - exact H.
    - exfalso. apply Hno. rewrite Ht. apply in_or_app. right. exact H. }
  split; [exact Htempo|].
  intros w. unfold process_notes. rewrite consolidate_closed.
  unfold generate_piano_sheet.
  destruct (getitem _ 0) as [first|e|]; cbn; rewrite Htempo; reflexivity.
Qed.

Lemma decoded_two_tracks_eq :
  MidiFile_new (bytes_of file_two_tracks) (Some 90) = OK decoded_two_tracks.
Proof. vm_compute. reflexivity. Qed.

Lemma tempo_default_without_set_tempo_witness :
  tempo decoded_two_tracks = 90 /\
  option_map song_tempo (song_json (snd (process_notes decoded_two_tracks no_files)))
  = Some 90.
Proof.
  destruct (tempo_default_without_set_tempo
              (bytes_of file_two_tracks) (Some 90) decoded_two_tracks) as (H1 & H2).
  - vm_compute. reflexivity.
  - vm_compute. intuition discriminate.
  - split; [exact H1 | apply H2].
Defined.

(** *** The decoder state is not reset between track chunks *)

Lemma carried_app (d d' d'' : Z * Z * bool) (t t' : list event) :
  carried d t d' -> carried d' t' d'' -> carried d (t ++ t') d''.
Proof.
  intros H. revert t' d''.
  induction H as [d|d d1 d2 t1 t2 Hmeta Hrest IH]; intros t' d'' H'.
  - exact H'.
  - cbn [app]. rewrite <- app_assoc. cbn [app].
    apply carried_track; [exact Hmeta | apply IH; exact H'].
Qed.

#[local] Instance state_carried_preorder : PreOrder state_carried.
Proof.
  split.
  - intros s. exists []. rewrite app_nil_r. split; [reflexivity | constructor].
  - intros s1 s2 s3 (t & Ht & H) (t' & Ht' & H').
    exists (t ++ t'). rewrite Ht', Ht, app_assoc. split; [reflexivity|].
    eapply carried_app; eassumption.
Qed.

Ltac same_decoder_state :=
  solve [exists []; rewrite app_nil_r; split; [reflexivity | apply carried_nil]].

Lemma state_carried_read_mtrk : preserves state_carried read_mtrk.
Proof.
  unfold read_mtrk. intros s a s' H.
  apply bind_OK in H. destruct H as (d & s1 & H1 & H).
  injection H1 as <- <-.
  apply bind_OK in H. destruct H as ([] & s2 & H2 & H).
  injection H2 as <-.
  apply bind_OK in H. destruct H as (length & s3 & H3 & H).
  apply bind_OK in H. destruct H as ([] & s4 & H4 & H).
  apply bind_OK in H. destruct H as (d' & s5 & H5 & H).
  injection H5 as <- <-. injection H as _ <-.
  assert (Hin : in_track (set_trace (trace s ++ [track_start (decoder_state s)]) s) s4).
  { transitivity s3.
    - eapply in_track_get_int; eassumption.
    - eapply in_track_read_midi_track_event; eassumption. }
  destruct Hin as (t & Ht & Hmeta). cbn [trace set_trace] in Ht.
  exists (track_start (decoder_state s) :: t ++ [track_end (decoder_state s4)]).
  split.
  - cbn [trace set_trace]. rewrite Ht. rewrite <- !app_assoc. reflexivity.
  - apply carried_track; [exact Hmeta | apply carried_nil].
Qed.
#[local] Hint Resolve state_carried_read_mtrk : pres.

Lemma state_carried_read_events : preserves state_carried read_events.
Proof. pres; same_decoder_state. Qed.

(** C5 (counterexample): in a file of two track chunks the second chunk
    starts with accumulator 480 and running status 0x90, the values the
    first chunk ended with, so that its note, 480 ticks into its track, gets
    time 2 and not 1. *)
Lemma second_track_starts_from_state_of_first :
  MidiFile_new (bytes_of file_two_tracks) (Some 90) = OK decoded_two_tracks /\
  trace decoded_two_tracks =
    [AtTrack 0 (-1) false; AtMeta 0x2F; AtTrackEnd 480 0x90 true;
     AtTrack 480 0x90 true; AtMeta 0x2F; AtTrackEnd 960 0x90 true] /\
  notes decoded_two_tracks = [(1%Q, "q"%string); (2%Q, "e"%string)] /\
  ~ (forall d r b, In (AtTrack d r b) (trace decoded_two_tracks) ->
                   d = 0 /\ b = false).
Proof.
  split; [vm_compute; reflexivity|].
  split; [reflexivity|]. split; [reflexivity|].
  intros H. destruct (H 480 0x90 true) as (H1 & _).
  - vm_compute. tauto.
  - discriminate.
Qed.

(** ** Note consolidation *)

Lemma Qlt_bool_true (a b : Q) : Qlt_bool a b = true <-> (a < b)%Q.
Proof.
  unfold Qlt_bool. rewrite negb_true_iff.
  split; intros H.
  - apply Qnot_le_lt. intros Hle. apply Qle_bool_iff in Hle. congruence.
  - destruct (Qle_bool b a) eqn:E; [|reflexivity].
    apply Qle_bool_iff in E. exfalso. exact (Qlt_not_le _ _ H E).
Qed.

Lemma Qlt_bool_false (a b : Q) : Qlt_bool a b = false <-> (b <= a)%Q.
Proof.
  unfold Qlt_bool. rewrite negb_false_iff. apply Qle_bool_iff.
Qed.

Lemma Qeq_bool_false_of_lt (a b : Q) : (a < b)%Q -> Qeq_bool b a = false.
Proof.
  intros H. destruct (Qeq_bool b a) eqn:E; [|reflexivity].
  apply Qeq_bool_iff in E. exfalso.
  apply (Qlt_not_eq _ _ H). symmetry. exact E.
Qed.

Lemma note_le_time_le (a b : note) : note_le a b -> time_le a b.
Proof.
  unfold note_le, note_lt, time_le. intros H.
  destruct (Qeq_bool (fst b) (fst a)) eqn:E; cbn [negb] in H.
  - apply Qeq_bool_iff in E. rewrite E. apply Qle_refl.
  - apply Qlt_bool_false. exact H.
Qed.

Lemma note_lt_asym (a b : note) : note_lt a b = true -> note_lt b a = false.
Proof.
  unfold note_lt. intros H.
  rewrite (Qeq_bool_comm (fst b) (fst a)).
  destruct (Qeq_bool (fst a) (fst b)) eqn:E; cbn [negb] in *.
  - rewrite (String.eqb_sym (snd b) (snd a)).
    destruct (String.eqb (snd a) (snd b)) eqn:E'; cbn [negb] in *; [reflexivity|].
    unfold String.ltb in *. rewrite String.compare_antisym.
    destruct (String.compare (snd a) (snd b)); cbn; congruence.
  - apply Qlt_bool_true in H. apply Qlt_bool_false. apply Qlt_le_weak. exact H.
Qed.

Lemma insert_note_sorted (x : note) (l : list note) :
  Sorted note_le l -> Sorted note_le (insert_note x l).
Proof.
  induction 1 as [|y l Hl IH Hhd]; cbn [insert_note].
  - repeat constructor.
  - destruct (note_lt y x) eqn:E.
    + constructor; [exact IH|].
      destruct l as [|z l]; cbn [insert_note].
      * constructor. apply note_lt_asym. exact E.
      * destruct (note_lt z x).
        -- constructor. inversion Hhd; assumption.
        -- constructor. apply note_lt_asym. exact E.
    + constructor; [constructor; assumption|].
      constructor. exact E.
Qed.

Lemma sort_notes_sorted (l : list note) : Sorted note_le (sort_notes l).
Proof.
  induction l as [|x l IH]; cbn.
  - constructor.
  - apply insert_note_sorted. exact IH.
Qed.

Lemma Sorted_impl {A} (R R' : A -> A -> Prop) (l : list A) :
  (forall a b, R a b -> R' a b) -> Sorted R l -> Sorted R' l.
Proof.
  intros HR. induction 1 as [|x l Hl IH Hhd]; constructor; [exact IH|].
  destruct Hhd; constructor. apply HR. assumption.
Qed.

Lemma sort_notes_time_sorted (l : list note) : Sorted time_le (sort_notes l).
Proof.
  apply (Sorted_impl note_le); [exact note_le_time_le | apply sort_notes_sorted].
Qed.

(** Merging a list sorted by time leaves the times strictly increasing; the
    first chord has the time of the first note. *)
Lemma merge_from_sorted (rest : list note) (prev : note) :
  Sorted time_le (prev :: rest) ->
  Sorted time_lt (merge_from prev rest) /\
  exists h tl, merge_from prev rest = h :: tl /\ (fst h == fst prev)%Q.
Proof.
  revert prev. induction rest as [|cur rest IH]; intros prev Hs; cbn [merge_from].
  - split; [repeat constructor|]. exists prev, []. split; reflexivity.
  - apply Sorted_inv in Hs. destruct Hs as (Hs & Hhd).
    apply HdRel_inv in Hhd. unfold time_le in Hhd.
    destruct (Qeq_bool (fst prev) (fst cur)) eqn:E.
    + apply Qeq_bool_iff in E.
      destruct (IH (fst cur, (snd cur ++ snd prev)%string)) as (H1 & h & tl & H2 & H3).
      { apply Sorted_inv in Hs. destruct Hs as (Hs & Hhd').
        constructor; [exact Hs|].
        destruct Hhd'; constructor. assumption. }
      split; [exact H1|]. exists h, tl. split; [exact H2|].
      cbn [fst] in H3. rewrite H3. symmetry. exact E.
    + destruct (IH cur Hs) as (H1 & h & tl & H2 & H3).
      split.
      * constructor; [exact H1|]. rewrite H2. constructor.
        unfold time_lt. rewrite H3.
        apply Qle_lteq in Hhd. destruct Hhd as [Hlt|Heq]; [exact Hlt|].
        apply Qeq_bool_iff in Heq. congruence.
      * exists prev, (merge_from cur rest). split; reflexivity.
Qed.

Lemma merged_sorted (l : list note) :
  Sorted time_le l -> Sorted time_lt (merged l).
Proof.
  destruct l as [|n l]; cbn [merged]; intros H.
  - constructor.
  - apply merge_from_sorted. exact H.
Qed.

Lemma consolidated_sorted (l : list note) : Sorted time_lt (consolidated l).
Proof.
  unfold consolidated.
  pose proof (merged_sorted _ (sort_notes_time_sorted l)) as H.
  induction H as [|x m Hm IH Hhd]; cbn [map]; constructor; [exact IH|].
  destruct Hhd; cbn [map]; constructor. assumption.
Qed.

(** Sorting and merging leave a list with strictly increasing times as it
    is. *)
Lemma sort_notes_fixed (l : list note) : Sorted time_lt l -> sort_notes l = l.
Proof.
  induction 1 as [|x l Hl IH Hhd]; cbn [sort_notes fold_right].
  - reflexivity.
  - change (fold_right insert_note [] l) with (sort_notes l). rewrite IH.
    destruct Hhd as [|y l' Hxy]; cbn [insert_note]; [reflexivity|].
    unfold time_lt in Hxy.
    assert (E : note_lt y x = false).
    { unfold note_lt. rewrite (Qeq_bool_false_of_lt _ _ Hxy). cbn [negb].
      apply Qlt_bool_false. apply Qlt_le_weak. exact Hxy. }
    rewrite E. reflexivity.
Qed.

Lemma merge_from_fixed (rest : list note) (prev : note) :
  Sorted time_lt (prev :: rest) -> merge_from prev rest = prev :: rest.
Proof.
  revert prev. induction rest as [|cur rest IH]; intros prev Hs; cbn [merge_from].
  - reflexivity.
  - apply Sorted_inv in Hs. destruct Hs as (Hs & Hhd).
    apply HdRel_inv in Hhd. unfold time_lt in Hhd.
    rewrite Qeq_bool_comm, (Qeq_bool_false_of_lt _ _ Hhd).
    rewrite IH by exact Hs. reflexivity.
Qed.

Lemma merged_fixed (l : list note) : Sorted time_lt l -> merged l = l.
Proof.
  destruct l as [|n l]; cbn [merged]; [reflexivity | apply merge_from_fixed].
Qed.

(** ** Removal of repeated symbols *)

Lemma str_index_inj (l : list ascii) (a b : ascii) :
  In a l -> str_index l a = str_index l b -> a = b.
Proof.
  induction l as [|d l IH]; cbn [str_index In]; [tauto|].
  intros Ha Heq.
  destruct (Ascii.eqb d a) eqn:Ea, (Ascii.eqb d b) eqn:Eb; try discriminate.
  - apply Ascii.eqb_eq in Ea, Eb. congruence.
  - apply Ascii.eqb_neq in Ea. apply IH; [tauto | congruence].
Qed.

Lemma insert_by_In {A} (key : A -> nat) (x y : A) (l : list A) :
  In y (insert_by key x l) <-> y = x \/ In y l.
Proof.
  induction l as [|z l IH]; cbn [insert_by].
  - cbn. intuition.
  - destruct (key z <? key x)%nat; cbn [In]; [rewrite IH|]; intuition.
Qed.

Lemma sorted_by_In {A} (key : A -> nat) (y : A) (l : list A) :
  In y (sorted_by key l) <-> In y l.
Proof.
  induction l as [|x l IH]; cbn [sorted_by fold_right]; [tauto|].
  change (fold_right (insert_by key) [] l) with (sorted_by key l).
  rewrite insert_by_In, IH. cbn. intuition.
Qed.

Lemma insert_by_strict {A} (key : A -> nat) (x : A) (l : list A) :
  StronglySorted (fun a b => (key a < key b)%nat) l ->
  (forall y, In y l -> key y <> key x) ->
  StronglySorted (fun a b => (key a < key b)%nat) (insert_by key x l).
Proof.
  induction 1 as [|y l Hl IH Hall]; intros Hne; cbn [insert_by].
  - repeat constructor.
  - destruct (Nat.ltb_spec (key y) (key x)) as [Hlt|Hge].
    + constructor.
      * apply IH. intros z Hz. apply Hne. right. exact Hz.
      * apply Forall_forall. intros z Hz. apply insert_by_In in Hz.
        destruct Hz as [->|Hz]; [exact Hlt|].
        rewrite Forall_forall in Hall. apply Hall. exact Hz.
    + assert (key y <> key x) by (apply Hne; left; reflexivity).
      constructor; [constructor; assumption|].
      constructor; [lia|].
      rewrite Forall_forall in *. intros z Hz. specialize (Hall z Hz). lia.
Qed.

Lemma sorted_by_strict {A} (key : A -> nat) (l : list A) :
  NoDup l ->
  (forall a b, In a l -> In b l -> key a = key b -> a = b) ->
  StronglySorted (fun a b => (key a < key b)%nat) (sorted_by key l).
Proof.
  induction 1 as [|x l Hx Hl IH]; intros Hinj; cbn [sorted_by fold_right].
  - constructor.
  - change (fold_right (insert_by key) [] l) with (sorted_by key l).
    apply insert_by_strict.
    + apply IH. intros a b Ha Hb. apply Hinj; right; assumption.
    + intros y Hy Heq. apply sorted_by_In in Hy.
      apply Hx. rewrite <- (Hinj y x); [exact Hy | right; exact Hy | left; reflexivity | exact Heq].
Qed.

(** Two lists with the same elements, both strictly increasing for a key,
    are equal. *)
Lemma strictly_sorted_unique {A} (key : A -> nat) (l1 l2 : list A) :
  StronglySorted (fun a b => (key a < key b)%nat) l1 ->
  StronglySorted (fun a b => (key a < key b)%nat) l2 ->
  (forall x, In x l1 <-> In x l2) ->
  l1 = l2.
Proof.
  intros H1. revert l2.
  induction H1 as [|x1 t1 Ht1 IH Hall1]; intros l2 H2 Hsame.
  - destruct l2 as [|x2 t2]; [reflexivity|].
    exfalso. apply (Hsame x2). left. reflexivity.
  - destruct H2 as [|x2 t2 Ht2 Hall2].
    + exfalso. apply (Hsame x1). left. reflexivity.
    + rewrite Forall_forall in Hall1, Hall2.
      assert (Hx : x1 = x2).
      { destruct (proj1 (Hsame x1) (or_introl eq_refl)) as [E|Hin1]; [congruence|].
        destruct (proj2 (Hsame x2) (or_introl eq_refl)) as [E|Hin2]; [congruence|].
        specialize (Hall1 _ Hin2). specialize (Hall2 _ Hin1). lia. }
      subst x2. f_equal. apply IH; [exact Ht2|].
      intros x. split; intros Hin.
      * destruct (proj1 (Hsame x) (or_intror Hin)) as [E|H]; [|exact H].
        subst x. specialize (Hall1 _ Hin). lia.
      * destruct (proj2 (Hsame x) (or_intror Hin)) as [E|H]; [|exact H].
        subst x. specialize (Hall2 _ Hin). lia.
Qed.

Lemma first_occurrences_In (l : list ascii) (c : ascii) :
  In c (first_occurrences l) <-> In c l.
Proof.
  induction l as [|d l IH]; cbn [first_occurrences In]; [tauto|].
  rewrite filter_In, IH, negb_true_iff, Ascii.eqb_neq.
  destruct (ascii_dec d c); intuition.
Qed.

Lemma first_occurrences_NoDup (l : list ascii) : NoDup (first_occurrences l).
Proof.
  induction l as [|d l IH]; cbn [first_occurrences]; constructor.
  - rewrite filter_In, negb_true_iff, Ascii.eqb_neq. tauto.
  - apply NoDup_filter. exact IH.
Qed.

Lemma StronglySorted_filter {A} (R : A -> A -> Prop) (f : A -> bool) (l : list A) :
  StronglySorted R l -> StronglySorted R (filter f l).
Proof.
  induction 1 as [|x l Hl IH Hall]; cbn [filter]; [constructor|].
  destruct (f x); [|exact IH].
  constructor; [exact IH|].
  rewrite Forall_forall in *. intros y Hy. apply filter_In in Hy. apply Hall. tauto.
Qed.

Lemma StronglySorted_impl_in {A} (R R' : A -> A -> Prop) (l : list A) :
  (forall a b, In a l -> In b l -> R a b -> R' a b) ->
  StronglySorted R l -> StronglySorted R' l.
Proof.
  intros HR H. induction H as [|x l Hl IH Hall]; constructor.
  - apply IH. intros a b Ha Hb. apply HR; right; assumption.
  - rewrite Forall_forall in *. intros y Hy.
    apply HR; [left; reflexivity | right; exact Hy | apply Hall; exact Hy].
Qed.

Lemma first_occurrences_sorted (l : list ascii) :
  StronglySorted (index_lt l) (first_occurrences l).
Proof.
  induction l as [|d l IH]; cbn [first_occurrences]; constructor.
  - apply (StronglySorted_impl_in (index_lt l)).
    + intros a b Ha Hb Hab.
      apply filter_In in Ha, Hb.
      destruct Ha as (_ & Ha), Hb as (_ & Hb).
      rewrite negb_true_iff in Ha, Hb.
      unfold index_lt in *. cbn [str_index].
      rewrite Ascii.eqb_sym in Ha. rewrite Ascii.eqb_sym in Hb.
      rewrite Ha, Hb. lia.
    + apply StronglySorted_filter. exact IH.
  - apply Forall_forall. intros c Hc. apply filter_In in Hc.
    destruct Hc as (_ & Hc). rewrite negb_true_iff in Hc.
    unfold index_lt. cbn [str_index].
    rewrite Ascii.eqb_refl. rewrite Ascii.eqb_sym in Hc. rewrite Hc. lia.
Qed.

(** Whatever order the set is enumerated in, sorting it by first occurrence
    gives the characters in the order of their first occurrence. *)
Lemma unique_symbols_any_order (l e : list ascii) :
  NoDup e -> (forall c, In c e <-> In c l) ->
  sorted_by (str_index l) e = first_occurrences l.
Proof.
  intros Hnodup Hsame.
  apply (strictly_sorted_unique (str_index l)).
  - apply sorted_by_strict; [exact Hnodup|].
    intros a b Ha _. apply str_index_inj. apply Hsame. exact Ha.
  - apply first_occurrences_sorted.
  - intros c. rewrite sorted_by_In, Hsame, first_occurrences_In. reflexivity.
Qed.

Lemma unique_symbols_closed (s : string) :
  unique_symbols s
  = string_of_list_ascii (first_occurrences (list_ascii_of_string s)).
Proof.
  unfold unique_symbols. f_equal.
  apply unique_symbols_any_order.
  - apply NoDup_nodup.
  - intros c. apply nodup_In.
Qed.

Lemma first_occurrences_fixed (l : list ascii) :
  NoDup l -> first_occurrences l = l.
Proof.
  induction 1 as [|c l Hc Hl IH]; cbn [first_occurrences]; [reflexivity|].
  rewrite IH. f_equal.
  apply forallb_filter_id. apply forallb_forall. intros d Hd.
  rewrite negb_true_iff, Ascii.eqb_neq. intros ->. contradiction.
Qed.

Lemma unique_symbols_idempotent (s : string) :
  unique_symbols (unique_symbols s) = unique_symbols s.
Proof.
  rewrite !unique_symbols_closed.
  rewrite list_ascii_of_string_of_list_ascii.
  rewrite first_occurrences_fixed; [reflexivity | apply first_occurrences_NoDup].
Qed.

Lemma consolidated_idempotent (l : list note) :
  consolidated (consolidated l) = consolidated l.
Proof.
  pose proof (consolidated_sorted l) as Hs.
  unfold consolidated at 1.
  rewrite (sort_notes_fixed _ Hs), (merged_fixed _ Hs).
  unfold consolidated. rewrite map_map. apply map_ext.
  intros n. cbn [fst snd]. rewrite unique_symbols_idempotent. reflexivity.
Qed.

(** C9: the consolidation of [process_notes] (sort, merge of the entries of
    equal time, removal of repeated symbols) always returns, and run again on
    the decoder it has left it returns the same decoder: the note list is
    unchanged. *)
Theorem consolidate_idempotent (s : MidiFile) :
  exists s1,
    consolidate s = OK (tt, s1) /\
    consolidate s1 = OK (tt, s1) /\
    notes s1 = consolidated (notes s) /\
    consolidated (notes s1) = notes s1.
Proof.
  exists (set_notes (consolidated (notes s)) s).
  split; [apply consolidate_closed|].
  rewrite consolidate_closed. cbn [notes set_notes].
  rewrite consolidated_idempotent.
  repeat split.
Qed.

(** *** What a chord holds *)

Lemma list_ascii_of_string_app (a b : string) :
  list_ascii_of_string (a ++ b)
  = list_ascii_of_string a ++ list_ascii_of_string b.
Proof.
  induction a as [|c a IH]; cbn; [reflexivity | now rewrite IH].
Qed.

Lemma has_merge_from (rest : list note) (prev : note) (t : Q) (c : ascii) :
  has (merge_from prev rest) t c <-> has (prev :: rest) t c.
Proof.
  revert prev. induction rest as [|cur rest IH]; intros prev; cbn [merge_from].
  - reflexivity.
  - destruct (Qeq_bool (fst prev) (fst cur)) eqn:E.
    + apply Qeq_bool_iff in E. rewrite IH. unfold has.
      rewrite !Exists_cons. cbn [fst snd].
      rewrite list_ascii_of_string_app, in_app_iff, E. tauto.
    + unfold has in *. rewrite Exists_cons, IH, !Exists_cons. tauto.
Qed.

Lemma has_merged (l : list note) (t : Q) (c : ascii) :
  has (merged l) t c <-> has l t c.
Proof.
  destruct l as [|n l]; cbn [merged]; [reflexivity | apply has_merge_from].
Qed.

Lemma insert_note_perm (x : note) (l : list note) :
  Permutation (x :: l) (insert_note x l).
Proof.
  induction l as [|y l IH]; cbn [insert_note]; [reflexivity|].
  destruct (note_lt y x); [|reflexivity].
  rewrite perm_swap. apply perm_skip. exact IH.
Qed.

Lemma sort_notes_perm (l : list note) : Permutation l (sort_notes l).
Proof.
  induction l as [|x l IH]; cbn [sort_notes fold_right]; [reflexivity|].
  change (fold_right insert_note [] l) with (sort_notes l).
  rewrite <- insert_note_perm. apply perm_skip. exact IH.
Qed.

Lemma has_perm (l l' : list note) (t : Q) (c : ascii) :
  Permutation l l' -> (has l t c <-> has l' t c).
Proof.
  intros H. unfold has. split; apply Permutation_Exists;
    [exact H | symmetry; exact H].
Qed.

Lemma unique_symbols_In (s : string) (c : ascii) :
  In c (list_ascii_of_string (unique_symbols s))
  <-> In c (list_ascii_of_string s).
Proof.
  rewrite unique_symbols_closed, list_ascii_of_string_of_list_ascii.
  apply first_occurrences_In.
Qed.

Lemma has_consolidated (l : list note) (t : Q) (c : ascii) :
  has (consolidated l) t c <-> has l t c.
Proof.
  rewrite (has_perm l (sort_notes l) t c (sort_notes_perm l)).
  rewrite <- (has_merged (sort_notes l)).
  unfold consolidated. generalize (merged (sort_notes l)). intros m.
  unfold has. rewrite Exists_map. cbn [fst snd].
  split; apply Exists_impl; intros n (H1 & H2); (split; [exact H1|]);
    apply unique_symbols_In; exact H2.
Qed.

(** *** Order of the symbols inside a chord *)

Lemma note_le_same_time (a b : note) (ca cb : ascii) :
  note_le a b -> (fst a == fst b)%Q ->
  snd a = String ca EmptyString -> snd b = String cb EmptyString ->
  code_le ca cb.
Proof.
  unfold note_le, note_lt, code_le. intros H Ht Ha Hb.
  rewrite Ha, Hb in H.
  rewrite (Qeq_eq_bool (fst b) (fst a)) in H by (symmetry; exact Ht).
  cbn [negb snd] in H.
  destruct (String.eqb (String cb EmptyString) (String ca EmptyString)) eqn:E;
    cbn [negb] in H.
  - apply String.eqb_eq in E. injection E as ->. apply N.le_refl.
  - unfold String.ltb in H. cbn [String.compare] in H.
    unfold Ascii.compare in H.
    destruct (N.compare_spec (N_of_ascii cb) (N_of_ascii ca)) as [Heq|Hlt|Hgt];
      try discriminate; lia.
Qed.

(** While the loop merges, the string under construction lists the symbols
    merged so far from the last one back; [last] is the raw note merged
    last. *)
Lemma merge_from_descending (rest : list note) (prev last : note)
    (c : ascii) (tl : list ascii) :
  Forall raw rest ->
  snd last = String c EmptyString ->
  fst last = fst prev ->
  list_ascii_of_string (snd prev) = c :: tl ->
  Sorted (fun a b => code_le b a) (c :: tl) ->
  Sorted note_le (last :: rest) ->
  Forall (fun ch => Sorted (fun a b => code_le b a)
                      (list_ascii_of_string (snd ch)))
    (merge_from prev rest).
Proof.
  revert prev last c tl.
  induction rest as [|cur rest IH]; intros prev last c tl Hraw Hlast Htime Hchars Hdesc Hs;
    cbn [merge_from].
  - constructor; [rewrite Hchars; exact Hdesc | constructor].
  - apply Forall_cons_iff in Hraw. destruct Hraw as ((c2 & Hcur) & Hraw).
    apply Sorted_inv in Hs. destruct Hs as (Hs & Hhd). apply HdRel_inv in Hhd.
    destruct (Qeq_bool (fst prev) (fst cur)) eqn:E.
    + apply Qeq_bool_iff in E.
      apply (IH _ cur c2 (c :: tl)); try assumption; try reflexivity.
      * cbn [snd]. rewrite list_ascii_of_string_app, Hcur, Hchars. reflexivity.
      * constructor; [exact Hdesc|]. constructor.
        apply (note_le_same_time last cur); try assumption.
        rewrite Htime. exact E.
    + constructor; [rewrite Hchars; exact Hdesc|].
      apply (IH cur cur c2 []); try assumption; try reflexivity.
      * rewrite Hcur. reflexivity.
      * repeat constructor.
Qed.

Lemma first_occurrences_descending (l : list ascii) :
  Sorted (fun a b => code_le b a) l ->
  StronglySorted (fun a b => code_lt b a) (first_occurrences l).
Proof.
  intros H. apply Sorted_StronglySorted in H.
  2: { intros a b c Hab Hbc. unfold code_le in *. lia. }
  induction H as [|c l Hl IH Hall]; cbn [first_occurrences]; constructor.
  - apply StronglySorted_filter. exact IH.
  - rewrite Forall_forall in *. intros d Hd. apply filter_In in Hd.
    destruct Hd as (Hd & Hne). rewrite first_occurrences_In in Hd.
    rewrite negb_true_iff, Ascii.eqb_neq in Hne.
    specialize (Hall d Hd). unfold code_le, code_lt in *.
    assert (N_of_ascii d <> N_of_ascii c).
    { intros Heq. apply Hne.
      rewrite <- (ascii_N_embedding d), <- (ascii_N_embedding c). congruence. }
    lia.
Qed.

Lemma consolidated_descending (l : list note) :
  Forall raw l ->
  Forall (fun ch => StronglySorted (fun a b => code_lt b a)
                      (list_ascii_of_string (snd ch)))
    (consolidated l).
Proof.
  intros Hraw. unfold consolidated.
  assert (Hraw' : Forall raw (sort_notes l))
    by (eapply Permutation_Forall; [apply sort_notes_perm | exact Hraw]).
  pose proof (sort_notes_sorted l) as Hs.
  apply Forall_map. cbn [snd].
  assert (H : Forall (fun ch => Sorted (fun a b => code_le b a)
                                  (list_ascii_of_string (snd ch)))
                (merged (sort_notes l))).
  { destruct (sort_notes l) as [|n m]; cbn [merged]; [constructor|].
    apply Forall_cons_iff in Hraw'. destruct Hraw' as ((c & Hn) & Hraw').
    apply (merge_from_descending m n n c []); try assumption; try reflexivity.
    - rewrite Hn. reflexivity.
    - repeat constructor. }
  eapply Forall_impl; [|exact H].
  intros ch Hch. cbn beta.
  rewrite unique_symbols_closed, list_ascii_of_string_of_list_ascii.
  apply first_occurrences_descending. exact Hch.
Qed.

(** The decoder emits raw notes only. *)
#[local] Instance raw_kept_preorder : PreOrder raw_kept.
Proof.
  split.
  - intros s H. exact H.
  - intros s1 s2 s3 H12 H23 H. apply H23, H12, H.
Qed.

Lemma raw_kept_append (time : Q) (mapped_key : Z) :
  preserves raw_kept
    (symbol <- lift (string_getitem VIRTUAL_PIANO_SCALE mapped_key) ;;
     modify (fun s => set_notes (notes s ++ [(time, symbol)]) s)).
Proof.
  intros s a s' H. unfold bind, lift, string_getitem, modify in H.
  destruct (getitem _ mapped_key) as [c| |]; try discriminate.
  injection H as _ <-. intros Hraw. cbn [notes set_notes].
  apply Forall_app. split; [exact Hraw|].
  constructor; [exists c; reflexivity | constructor].
Qed.
#[local] Hint Resolve raw_kept_append : pres.

Ltac same_notes := solve [let H := fresh in intros H; exact H].

Lemma raw_kept_read_midi_meta_event (delta_t : Z) :
  preserves raw_kept (read_midi_meta_event delta_t).
Proof. unfold read_midi_meta_event. pres; same_notes. Qed.
#[local] Hint Resolve raw_kept_read_midi_meta_event : pres.

Lemma raw_kept_read_events : preserves raw_kept read_events.
Proof. pres; same_notes. Qed.

Lemma decoded_notes_raw (content : list byte) (default_tempo : option Z)
    (s : MidiFile) :
  MidiFile_new content default_tempo = OK s -> Forall raw (notes s).
Proof.
  intros Hnew. unfold MidiFile_new in Hnew.
  destruct (read_events _) as [[[] s0]|e|] eqn:Hrun; try discriminate.
  injection Hnew as ->.
  apply raw_kept_read_events in Hrun. apply Hrun. constructor.
Qed.

Lemma time_lt_trans : Relations_1.Transitive time_lt.
Proof. intros a b c. unfold time_lt. apply Qlt_trans. Qed.

(** C3 (as amended): for every raw note list the consolidation returns, and
    (1) it sorts with Python's order on the lists [time, symbol]: by time, and
    at equal time by the code point of the symbol, not by emission order;
    (2) the chords it leaves have strictly increasing times, so each group of
    notes of equal time is one chord; (3) a chord holds exactly the symbols of
    the notes of its time; (4) inside a chord the symbols are in strictly
    decreasing order of code point, each once. *)
Theorem consolidate_orders_by_time_then_symbol (s : MidiFile) :
  Forall raw (notes s) ->
  exists s1,
    consolidate s = OK (tt, s1) /\
    notes s1 = consolidated (notes s) /\
    (Sorted note_le (sort_notes (notes s)) /\
     Permutation (notes s) (sort_notes (notes s))) /\
    StronglySorted time_lt (notes s1) /\
    (forall t c, has (notes s1) t c <-> has (notes s) t c) /\
    Forall (fun ch => StronglySorted (fun a b => code_lt b a)
                        (list_ascii_of_string (snd ch)))
      (notes s1).
Proof.
  intros Hraw.
  exists (set_notes (consolidated (notes s)) s).
  split; [apply consolidate_closed|].
  cbn [notes set_notes].
  split; [reflexivity|].
  split; [split; [apply sort_notes_sorted | apply sort_notes_perm]|].
  split.
  { apply Sorted_StronglySorted; [exact time_lt_trans | apply consolidated_sorted]. }
  split; [intros t c; apply has_consolidated|].
  apply consolidated_descending. exact Hraw.
Qed.

Lemma consolidate_orders_by_time_then_symbol_witness :
  exists s1,
    consolidate (set_notes notes_a_then_b (init_state [] 120)) = OK (tt, s1) /\
    notes s1 = consolidated notes_a_then_b.
Proof.
  destruct (consolidate_orders_by_time_then_symbol
              (set_notes notes_a_then_b (init_state [] 120)))
    as (s1 & H1 & H2 & _).
  - cbn. repeat constructor; eexists; reflexivity.
  - exists s1. split; [exact H1 | exact H2].
Defined.

(** C3 (counterexample): of two notes emitted at time 0, "a" before "b", the
    consolidation makes the chord "ba"; in emission order it would be "ab".
    And two notes emitted "b" before "a" are sorted "a" before "b". *)
Lemma chord_symbols_not_in_emission_order :
  consolidate (set_notes notes_a_then_b (init_state [] 120))
  = OK (tt, set_notes [(0%Q, "ba"%string)] (init_state [] 120)) /\
  spec_consolidated notes_a_then_b = [(0%Q, "ab"%string)] /\
  sort_notes [(0%Q, "b"%string); (0%Q, "a"%string)]
  = [(0%Q, "a"%string); (0%Q, "b"%string)].
Proof.
  repeat split; vm_compute; reflexivity.
Qed.

(** ** The decoder always ends *)

#[local] Instance adv_preorder : PreOrder adv.
Proof.
  split.
  - intros s. split; [reflexivity | lia].
  - intros s1 s2 s3 (Hb & Hi) (Hb' & Hi'). split; [congruence | lia].
Qed.

#[local] Instance same_cursor_preorder : PreOrder same_cursor.
Proof.
  split.
  - intros s. split; reflexivity.
  - intros s1 s2 s3 (Hb & Hi) (Hb' & Hi'). split; congruence.
Qed.

Ltac adv_leaf := solve [split; cbn; [reflexivity | lia]].
Ltac same_cursor_leaf := solve [split; cbn; reflexivity].

Lemma get_int_nonneg (size : Z) (s : MidiFile) (v : Z) (s' : MidiFile) :
  get_int size s = OK (v, s') -> 0 <= v.
Proof.
  unfold get_int, bind, gets, modify, ret. intros H. injection H as <- _.
  rewrite fold_left_be_value.
  match goal with
  | |- 0 <= 0 * _ + be_value ?l =>
      assert (Hl : Forall (fun b => 0 <= b < 256) l)
  end.
  { unfold getslice. apply Forall_forall. intros b Hb.
    apply in_firstn in Hb. apply in_skipn in Hb.
    apply in_map_iff in Hb. destruct Hb as (x & <- & _). apply byte_val_bound. }
  apply be_value_bound in Hl. lia.
Qed.

Lemma while_value {X} (J : X -> Prop) (fuel : nat)
    (cond : X -> MidiFile -> bool) (body : X -> M X) :
  (forall x s x' s', J x -> body x s = OK (x', s') -> J x') ->
  forall x s x' s',
    J x -> while fuel cond body x s = OK (x', s') -> J x'.
Proof.
  intros Hbody. induction fuel as [|fuel IH]; intros x s x' s' Hx H; cbn in H.
  - destruct (cond x s); [discriminate|]. injection H as <- _. exact Hx.
  - destruct (cond x s).
    + apply bind_OK in H. destruct H as (x1 & s1 & H1 & H2).
      eapply IH; [|exact H2]. eapply Hbody; eassumption.
    + injection H as <- _. exact Hx.
Qed.

Lemma read_length_nonneg (s : MidiFile) (v : Z) (s' : MidiFile) :
  read_length s = OK (v, s') -> 0 <= v.
Proof.
  unfold read_length. intros H.
  apply bind_OK in H. destruct H as (fuel & s1 & _ & H).
  apply bind_OK in H. destruct H as (r & s2 & H & Hret).
  injection Hret as <- _.
  revert H. apply (while_value (fun r => 0 <= snd r)); [|cbn; lia].
  clear. intros r s r' s' Hr H.
  apply bind_OK in H. destruct H as (b & s1 & _ & H).
  apply bind_OK in H. destruct H as (r1 & s2 & H1 & H).
  apply bind_OK in H. destruct H as ([] & s3 & _ & H).
  injection H as <- _.
  assert (0 <= Z.shiftl (snd r) 7 + Z.land b 127).
  { assert (0 <= Z.shiftl (snd r) 7) by (apply Z.shiftl_nonneg; exact Hr).
    assert (0 <= Z.land b 127) by (apply Z.land_nonneg; right; lia).
    lia. }
  destruct (Z.shiftr (Z.land b 128) 7 =? 1); injection H1 as <- _; exact H.
Qed.

Lemma adv_read_length : preserves adv read_length.
Proof. pres; adv_leaf. Qed.

Lemma adv_get_int (size : Z) : 0 <= size -> preserves adv (get_int size).
Proof. intros H. pres; adv_leaf. Qed.

Lemma adv_read_midi_meta_event (delta_t : Z) :
  preserves adv (read_midi_meta_event delta_t).
Proof.
  unfold read_midi_meta_event.
  apply preserves_bind; [exact _ | pres |]. intros event_type.
  apply preserves_bind; [exact _ | pres; adv_leaf |]. intros _.
  apply preserves_bind; [exact _ | pres; adv_leaf |]. intros _.
  intros s b s' H.
  apply bind_OK in H. destruct H as (length & s1 & H1 & H).
  pose proof (read_length_nonneg _ _ _ H1) as Hlen.
  transitivity s1; [eapply adv_read_length; exact H1|].
  revert H. generalize s1, b, s'.
  match goal with
  | |- forall s1 b s', ?m s1 = OK (b, s') -> adv s1 s' =>
      change (preserves adv m)
  end.
  pres; adv_leaf.
Qed.
#[local] Hint Resolve adv_read_midi_meta_event : pres.

Lemma adv_track_event_body (c : bool) : preserves adv (track_event_body c).
Proof. pres; adv_leaf. Qed.

Lemma adv_read_midi_track_event (length : Z) :
  0 <= length -> preserves adv (read_midi_track_event length).
Proof.
  intros Hlen s a s' H. unfold read_midi_track_event in H.
  apply bind_OK in H. destruct H as (start & s1 & H1 & H).
  injection H1 as <- <-.
  apply bind_OK in H. destruct H as (fuel & s1 & H1 & H).
  injection H1 as _ <-.
  apply bind_OK in H. destruct H as (c & s2 & H2 & H).
  injection H as _ <-.
  assert (Hloop : adv s s2).
  { eapply (preserves_while adv); [apply adv_track_event_body | exact H2]. }
  destruct Hloop as (Hb & _). split; cbn; [exact Hb | lia].
Qed.

Lemma adv_read_mtrk : preserves adv read_mtrk.
Proof.
  unfold read_mtrk.
  apply preserves_bind; [exact _ | pres |]. intros d.
  apply preserves_bind; [exact _ | pres; adv_leaf |]. intros _.
  intros s a s' H.
  apply bind_OK in H. destruct H as (length & s1 & H1 & H).
  pose proof (get_int_nonneg _ _ _ _ H1) as Hlen.
  transitivity s1; [eapply (adv_get_int 4); [lia | exact H1]|].
  revert H. generalize s1, a, s'.
  match goal with
  | |- forall s1 a s', ?m s1 = OK (a, s') -> adv s1 s' =>
      change (preserves adv m)
  end.
  apply preserves_bind; [exact _ | apply adv_read_midi_track_event; exact Hlen |].
  intros _. pres; adv_leaf.
Qed.
#[local] Hint Resolve adv_read_mtrk : pres.

Lemma adv_scan_body : preserves adv scan_body.
Proof. pres; adv_leaf. Qed.

Lemma adv_read_events : preserves adv read_events.
Proof. pres; adv_leaf. Qed.

Lemma ends_ret (n : nat) {A} (a : A) : ends n (ret a).
Proof. intros s _ _. discriminate. Qed.

Lemma ends_gets (n : nat) {A} (f : MidiFile -> A) : ends n (gets f).
Proof. intros s _ _. discriminate. Qed.

Lemma ends_modify (n : nat) (f : MidiFile -> MidiFile) : ends n (modify f).
Proof. intros s _ _. discriminate. Qed.

Lemma ends_lift (n : nat) {A} (r : result A) :
  r <> OutOfFuel -> ends n (lift r).
Proof. intros Hr s _ _. unfold lift. destruct r; congruence. Qed.

Lemma ends_bind (n : nat) {A B} (m : M A) (k : A -> M B) :
  ends n m -> preserves adv m -> (forall a, ends n (k a)) ->
  ends n (bind m k).
Proof.
  intros Hm Hadv Hk s Hi Hn. unfold bind.
  destruct (m s) as [[a s1]|e|] eqn:E;
    [|discriminate|exfalso; exact (Hm s Hi Hn E)].
  destruct (Hadv _ _ _ E) as (Hb & Hle).
  apply Hk; [lia | congruence].
Qed.

Lemma ends_bind_last (n : nat) {A B} (m : M A) (k : A -> M B) :
  ends n m -> (forall a s, k a s <> OutOfFuel) -> ends n (bind m k).
Proof.
  intros Hm Hk s Hi Hn. unfold bind.
  destruct (m s) as [[a s1]|e|] eqn:E;
    [apply Hk|discriminate|exfalso; exact (Hm s Hi Hn E)].
Qed.

Lemma ends_fuel_of (n : nat) {A} (k : nat -> M A) :
  ends n (k (S n)) -> ends n (bind (gets fuel_of) k).
Proof.
  intros Hk s Hi Hn. unfold bind, gets, fuel_of. rewrite Hn.
  apply Hk; assumption.
Qed.

Lemma ends_for_range (n : nat) (k : nat) (i : Z) (body : Z -> M unit) :
  (forall i, ends n (body i)) -> (forall i, preserves adv (body i)) ->
  ends n (for_range k i body).
Proof.
  intros Hbody Hadv. revert i.
  induction k as [|k IH]; intros i; cbn [for_range].
  - apply ends_ret.
  - apply ends_bind; [apply Hbody | apply Hadv | intros _; apply IH].
Qed.

(** A loop whose body moves the cursor forward inside the buffer ends within
    [n + 1] passes. *)
Lemma ends_while_fuel (n : nat) {X} (cond : X -> MidiFile -> bool)
    (body : X -> M X) :
  (forall x, ends n (body x)) ->
  (forall x s x' s',
     0 <= itr s -> List.length (bytes s) = n -> cond x s = true ->
     body x s = OK (x', s') ->
     bytes s' = bytes s /\ itr s < itr s' /\ itr s < Z.of_nat n) ->
  forall fuel x s,
    0 <= itr s -> List.length (bytes s) = n ->
    (1 <= fuel)%nat -> Z.of_nat n - itr s < Z.of_nat fuel ->
    while fuel cond body x s <> OutOfFuel.
Proof.
  intros Hends Hstep.
  induction fuel as [|fuel IH]; intros x s Hi Hn Hfuel Hroom; [lia|].
  cbn [while]. destruct (cond x s) eqn:Hc; [|discriminate].
  unfold bind. destruct (body x s) as [[x1 s1]|e|] eqn:E;
    [|discriminate|exfalso; exact (Hends x s Hi Hn E)].
  destruct (Hstep _ _ _ _ Hi Hn Hc E) as (Hb & Hlt & Hin).
  apply IH; [lia | congruence | lia | lia].
Qed.

Lemma ends_while (n : nat) {X} (cond : X -> MidiFile -> bool)
    (body : X -> M X) (x : X) :
  (forall x, ends n (body x)) ->
  (forall x s x' s',
     0 <= itr s -> List.length (bytes s) = n -> cond x s = true ->
     body x s = OK (x', s') ->
     bytes s' = bytes s /\ itr s < itr s' /\ itr s < Z.of_nat n) ->
  ends n (while (S n) cond body x).
Proof.
  intros Hends Hstep s Hi Hn.
  apply (ends_while_fuel n cond body Hends Hstep); [assumption.. | lia | lia].
Qed.

Lemma getitem_ends {A} (l : list A) (i : Z) : getitem l i <> OutOfFuel.
Proof.
  unfold getitem. destruct (_ && _); [|discriminate].
  destruct (nth_error _ _); discriminate.
Qed.

Lemma setitem_ends {A} (l : list A) (i : Z) (v : A) :
  setitem l i v <> OutOfFuel.
Proof.
  unfold setitem. pose proof (getitem_ends l i).
  destruct (getitem l i); congruence.
Qed.

Lemma string_getitem_ends (s : string) (i : Z) :
  string_getitem s i <> OutOfFuel.
Proof.
  unfold string_getitem. pose proof (getitem_ends (list_ascii_of_string s) i).
  destruct (getitem _ i); congruence.
Qed.

Lemma truediv_ends (a b : Z) : truediv a b <> OutOfFuel.
Proof.
  unfold truediv. destruct (b =? 0); [discriminate|].
  destruct (a =? 0); [discriminate|].
  destruct (nearest_binary64 _ _) as (m, u).
  destruct (_ <=? _); discriminate.
Qed.

Lemma py_round_ends (x : float) : py_round x <> OutOfFuel.
Proof. unfold py_round. destruct (Prim2SF x); discriminate. Qed.

Lemma getitem_OK_range {A} (l : list A) (i : Z) (x : A) :
  getitem l i = OK x -> 0 <= i -> i < len l.
Proof.
  unfold getitem, len. intros H Hi.
  destruct (Z.ltb_spec i 0); [lia|].
  destruct (Z.ltb_spec i (Z.of_nat (List.length l))); [assumption|].
  rewrite andb_false_r in H. discriminate.
Qed.

Ltac ends_leaf :=
  first [ apply getitem_ends | apply setitem_ends | apply string_getitem_ends
        | apply truediv_ends | apply py_round_ends ].

Create HintDb ends discriminated.

Ltac ends_step :=
  lazymatch goal with
  | |- ends _ (ret _) => apply ends_ret
  | |- ends _ (gets _) => apply ends_gets
  | |- ends _ (modify _) => apply ends_modify
  | |- ends _ (lift _) => apply ends_lift; ends_leaf
  | |- ends _ (bind (gets fuel_of) _) => apply ends_fuel_of
  | |- ends _ (bind _ _) =>
      apply ends_bind; [ | solve [pres; adv_leaf] | intros ? ]
  | |- ends _ (for_range _ _ _) =>
      apply ends_for_range; [ intros ? | intros ?; solve [pres; adv_leaf] ]
  | |- ends _ (if ?c then _ else _) => destruct c eqn:?
  | |- ends _ (let _ := _ in _) => cbv zeta
  end.

Ltac ends_unfold :=
  progress unfold byte_at, skip, get_int, emit, read_mthd,
    read_voice_event, set_counter.

Ltac ends_tac :=
  repeat first
    [ solve [auto with ends]
    | ends_step
    | ends_unfold ].

(** One pass of the loop of [read_length] reads a byte of the buffer. *)
Lemma read_length_ends (n : nat) : ends n read_length.
Proof.
  unfold read_length. apply ends_fuel_of.
  apply ends_bind; [|pres; adv_leaf|intros ?; apply ends_ret].
  apply ends_while.
  - intros r. ends_tac.
  - intros r s r' s' Hi Hn _ H.
    apply bind_OK in H. destruct H as (b & s1 & H1 & H).
    apply bind_OK in H1. destruct H1 as (i & s0 & H0 & H1).
    injection H0 as <- <-.
    apply bind_OK in H1. destruct H1 as (bs & s0 & H0 & H1).
    injection H0 as <- <-.
    unfold lift in H1.
    destruct (getitem (map byte_val (bytes s)) (itr s)) as [b'| |] eqn:Hget;
      try discriminate.
    injection H1 as -> <-.
    apply getitem_OK_range in Hget; [|exact Hi].
    unfold len in Hget. rewrite length_map, Hn in Hget.
    apply bind_OK in H. destruct H as (r1 & s2 & H2 & H).
    apply bind_OK in H. destruct H as ([] & s3 & H3 & H).
    injection H as _ <-. injection H3 as <-.
    assert (s2 = s) as ->.
    { destruct (Z.shiftr (Z.land b 128) 7 =? 1); injection H2 as _ <-; reflexivity. }
    cbn. repeat split; lia.
Qed.
#[local] Hint Resolve read_length_ends : ends.

(** [read_length] reads at least one byte of the buffer. *)
Lemma read_length_progress (s : MidiFile) (v : Z) (s' : MidiFile) :
  0 <= itr s -> read_length s = OK (v, s') ->
  bytes s' = bytes s /\ itr s < itr s' /\ itr s < len (bytes s).
Proof.
  intros Hi H. unfold read_length in H.
  apply bind_OK in H. destruct H as (fuel & s0 & H0 & H).
  injection H0 as <- <-.
  apply bind_OK in H. destruct H as (r & s2 & H & Hret).
  injection Hret as _ <-.
  unfold fuel_of in H. cbn [while fst] in H.
  apply bind_OK in H. destruct H as (r1 & s1 & Hbody & Hrest).
  assert (Hadv : adv s1 s2).
  { eapply (preserves_while adv); [|exact Hrest].
    intros r0. pres; adv_leaf. }
  apply bind_OK in Hbody. destruct Hbody as (b & s3 & H1 & Hbody).
  apply bind_OK in H1. destruct H1 as (i & s0 & H0 & H1).
  injection H0 as <- <-.
  apply bind_OK in H1. destruct H1 as (bs & s0 & H0 & H1).
  injection H0 as <- <-.
  unfold lift in H1.
  destruct (getitem (map byte_val (bytes s)) (itr s)) as [b'| |] eqn:Hget;
    try discriminate.
  injection H1 as -> <-.
  apply getitem_OK_range in Hget; [|exact Hi].
  unfold len in Hget. rewrite length_map in Hget.
  apply bind_OK in Hbody. destruct Hbody as (r2 & s4 & H2 & Hbody).
  apply bind_OK in Hbody. destruct Hbody as ([] & s5 & H3 & Hbody).
  injection Hbody as _ <-. injection H3 as <-.
  assert (s4 = s) as ->.
  { destruct (Z.shiftr (Z.land b 128) 7 =? 1); injection H2 as _ <-; reflexivity. }
  destruct Hadv as (Hb & Hle). cbn in Hb, Hle.
  unfold len. repeat split; [exact Hb | lia | lia].
Qed.

Lemma read_midi_meta_event_ends (n : nat) (delta_t : Z) :
  ends n (read_midi_meta_event delta_t).
Proof.
  unfold read_midi_meta_event. ends_tac.
  apply ends_bind_last; [ends_tac | intros; discriminate].
Qed.
#[local] Hint Resolve read_midi_meta_event_ends : ends.

Lemma track_event_body_ends (n : nat) (c : bool) : ends n (track_event_body c).
Proof. unfold track_event_body. ends_tac. Qed.

Lemma track_event_body_progress (c : bool) (s : MidiFile) (c' : bool)
    (s' : MidiFile) :
  0 <= itr s -> track_event_body c s = OK (c', s') ->
  bytes s' = bytes s /\ itr s < itr s' /\ itr s < len (bytes s).
Proof.
  intros Hi H. unfold track_event_body in H.
  apply bind_OK in H. destruct H as (delta_t & s1 & H1 & H).
  destruct (read_length_progress _ _ _ Hi H1) as (Hb & Hlt & Hin).
  assert (Hadv : adv s1 s').
  { revert H. generalize s1, c', s'.
    match goal with
    | |- forall s1 c' s', ?m s1 = OK (c', s') -> adv s1 s' =>
        change (preserves adv m)
    end.
    pres; adv_leaf. }
  destruct Hadv as (Hb' & Hle).
  repeat split; [congruence | lia | lia].
Qed.

Lemma read_midi_track_event_ends (n : nat) (length : Z) :
  ends n (read_midi_track_event length).
Proof.
  unfold read_midi_track_event.
  apply ends_bind; [apply ends_gets | pres | intros start].
  apply ends_fuel_of.
  apply ends_bind; [|apply preserves_while; [exact _ | apply adv_track_event_body]
                    |intros ?; apply ends_modify].
  apply ends_while.
  - apply track_event_body_ends.
  - intros c s c' s' Hi Hn _ H.
    destruct (track_event_body_progress _ _ _ _ Hi H) as (Hb & Hlt & Hin).
    unfold len in Hin. rewrite Hn in Hin. auto.
Qed.

Lemma read_mtrk_ends (n : nat) : ends n read_mtrk.
Proof.
  unfold read_mtrk.
  apply ends_bind; [apply ends_gets | pres | intros d].
  apply ends_bind; [apply ends_modify | pres; adv_leaf | intros _].
  apply ends_bind; [ends_tac | apply adv_get_int; lia | intros length].
  apply ends_bind_last; [apply read_midi_track_event_ends|].
  intros; discriminate.
Qed.
#[local] Hint Resolve read_mtrk_ends : ends.

Lemma scan_body_ends (n : nat) : ends n scan_body.
Proof. unfold scan_body. ends_tac. Qed.

Lemma scan_body_progress (s s' : MidiFile) :
  itr s + 1 < len (bytes s) -> scan_body s = OK (tt, s') ->
  bytes s' = bytes s /\ itr s < itr s'.
Proof.
  intros Hmore H. unfold scan_body in H.
  apply bind_OK in H. destruct H as ([] & s1 & H1 & H).
  assert (Hsame : same_cursor s s1).
  { eapply (preserves_for_range same_cursor); [|exact H1].
    intros i. pres; same_cursor_leaf. }
  destruct Hsame as (Hb & Hi).
  apply bind_OK in H. destruct H as (more & s0 & H0 & H).
  injection H0 as <- <-.
  assert (Hm : (itr s1 + 1 <? len (bytes s1)) = true)
    by (apply Z.ltb_lt; rewrite Hb, Hi; exact Hmore).
  rewrite Hm in H.
  apply bind_OK in H. destruct H as ([] & s2 & H2 & H).
  injection H2 as <-.
  assert (Hadv : adv (set_itr (itr s1 + 1) s1) s').
  { revert H. generalize (set_itr (itr s1 + 1) s1), s'.
    match goal with
    | |- forall s2 s', ?m s2 = OK (tt, s') -> adv s2 s' =>
        enough (preserves adv m) by eauto
    end.
    pres; adv_leaf. }
  destruct Hadv as (Hb' & Hle). cbn in Hb', Hle.
  split; [congruence | lia].
Qed.

Lemma set_start_counter_same (s : MidiFile) :
  set_start_counter (start_counter s) s = s.
Proof. destruct s; reflexivity. Qed.

(** The first loop of an outer pass of [read_events] sets every counter to
    0. *)
Lemma reset_counters_from (k : nat) (done : nat) (rest : list Z) (s : MidiFile) :
  start_counter s = repeat 0 done ++ rest -> List.length rest = k ->
  for_range k (Z.of_nat done) (fun i => set_counter i 0) s
  = OK (tt, set_start_counter (repeat 0 (done + k)) s).
Proof.
  revert done rest s.
  induction k as [|k IH]; intros done rest s Hc Hk; cbn [for_range].
  - destruct rest; [|discriminate].
    rewrite app_nil_r in Hc. rewrite Nat.add_0_r, <- Hc, set_start_counter_same.
    reflexivity.
  - destruct rest as [|x rest]; [discriminate|].
    unfold bind at 1. unfold set_counter, bind, gets, lift, modify.
    rewrite Hc.
    replace (Z.of_nat done) with (len (repeat 0 done))
      by (unfold len; rewrite repeat_length; reflexivity).
    rewrite setitem_app.
    replace (len (repeat 0 done) + 1) with (Z.of_nat (S done))
      by (unfold len; rewrite repeat_length; lia).
    rewrite (IH (S done) rest).
    + cbn [set_start_counter start_counter bytes header_length format tracks
             division division_type tempo itr running_status
             running_status_set delta_time notes trace].
      replace (S done + k)%nat with (done + S k)%nat by lia. reflexivity.
    + cbn [start_counter set_start_counter repeat].
      rewrite repeat_cons, <- app_assoc. reflexivity.
    + cbn in Hk. lia.
Qed.

Lemma check_start_sequence_reset (k : nat) (s : MidiFile) :
  check_start_sequence (set_start_counter (repeat 0 k) s) = false.
Proof.
  unfold check_start_sequence. cbn [start_counter set_start_counter].
  destruct k as [|[|[|k]]]; reflexivity.
Qed.

Lemma scan_loop_ends (n : nat) : ends n (scan_loop (S n)).
Proof.
  unfold scan_loop. apply ends_while.
  - intros _. apply scan_body_ends.
  - intros [] s [] s' Hi Hn Hc H.
    apply andb_true_iff in Hc. destruct Hc as (Hc & _).
    apply Z.ltb_lt in Hc.
    destruct (scan_body_progress _ _ Hc H) as (Hb & Hlt).
    unfold len in Hc. rewrite Hn in Hc. repeat split; [exact Hb | lia | lia].
Qed.

Lemma scan_pass_ends (n : nat) : ends n (scan_pass (S n)).
Proof.
  unfold scan_pass.
  apply ends_bind; [apply ends_gets | pres | intros k].
  apply ends_bind; [ends_tac | pres; adv_leaf | intros _].
  apply scan_loop_ends.
Qed.

Lemma scan_pass_progress (fuel : nat) (s s' : MidiFile) :
  itr s + 1 < len (bytes s) -> scan_pass (S fuel) s = OK (tt, s') ->
  bytes s' = bytes s /\ itr s < itr s'.
Proof.
  intros Hmore H. unfold scan_pass in H.
  apply bind_OK in H. destruct H as (k & s0 & H0 & H).
  injection H0 as <- <-.
  apply bind_OK in H. destruct H as ([] & s1 & H1 & H).
  pose proof (reset_counters_from _ 0 (start_counter s) s eq_refl eq_refl) as Hr.
  cbn [Z.of_nat Nat.add] in Hr. rewrite Hr in H1. clear Hr.
  injection H1 as <-.
  unfold scan_loop in H. cbn [while] in H.
  rewrite check_start_sequence_reset in H.
  cbn [itr bytes set_start_counter] in H.
  apply Z.ltb_lt in Hmore. rewrite Hmore in H. cbn [andb negb] in H.
  apply Z.ltb_lt in Hmore.
  apply bind_OK in H. destruct H as ([] & s2 & H2 & H).
  apply scan_body_progress in H2; [|exact Hmore].
  destruct H2 as (Hb & Hlt). cbn in Hb, Hlt.
  assert (Hadv : adv s2 s').
  { eapply (preserves_while adv); [|exact H]. intros u. apply adv_scan_body. }
  destruct Hadv as (Hb' & Hle).
  split; [congruence | lia].
Qed.

Lemma read_events_ends (n : nat) : ends n read_events.
Proof.
  unfold read_events. apply ends_fuel_of.
  change (ends n (while (S n) (fun _ s => itr s + 1 <? len (bytes s))
                    (fun _ => scan_pass (S n)) tt)).
  apply ends_while.
  - intros _. apply scan_pass_ends.
  - intros [] s [] s' Hi Hn Hc H.
    apply Z.ltb_lt in Hc.
    destruct (scan_pass_progress _ _ _ Hc H) as (Hb & Hlt).
    unfold len in Hc. rewrite Hn in Hc. repeat split; [exact Hb | lia | lia].
Qed.

(** The decoder and the export always end: for every file content the
    constructor returns a decoder or raises, and so does the export. *)
Theorem MidiFile_new_ends (content : list byte) (default_tempo : option Z) :
  MidiFile_new content default_tempo <> OutOfFuel.
Proof.
  unfold MidiFile_new.
  set (s0 := init_state content _).
  assert (H : read_events s0 <> OutOfFuel).
  { apply (read_events_ends (List.length content)); [cbn; lia | reflexivity]. }
  destruct (read_events s0) as [[[] s]|e|]; congruence.
Qed.

(** X24: the conversion always ends.  For every file content, decoding and
    export return or raise a Python exception: no loop of the decoder (the
    chunk scanner, the event loop of a track, the reader of variable-length
    quantities) and no loop of the export runs forever, each pass of a loop of
    the decoder moving the cursor forward. *)
Theorem convert_ends (content : list byte) (default_tempo : option Z)
    (w : files) :
  fst (convert content default_tempo w) <> OutOfFuel.
Proof.
  unfold convert.
  pose proof (MidiFile_new_ends content default_tempo) as H.
  destruct (MidiFile_new content default_tempo) as [s|e|];
    [|cbn; discriminate|congruence].
  unfold process_notes. rewrite consolidate_closed.
  unfold generate_piano_sheet.
  pose proof (getitem_ends (notes (set_notes (consolidated (notes s)) s)) 0) as Hg.
  destruct (getitem _ 0); cbn; congruence.
Qed.

(** ** The trace is only written *)

Ltac erased H :=
  match type of H with
  | erase ?s = erase ?s' =>
      destruct s, s'; unfold erase, set_trace in H; cbn in H;
      injection H; intros; subst; cbn; try reflexivity
  end.

Lemma blind_ret {A} (a : A) : blind (ret a).
Proof. intros s s' H. cbn. auto. Qed.

Lemma blind_lift {A} (r : result A) : blind (lift r).
Proof. intros s s' H. unfold lift. destruct r; cbn; auto. Qed.

Lemma blind_gets {A} (f : MidiFile -> A) :
  (forall s s', erase s = erase s' -> f s = f s') -> blind (gets f).
Proof. intros Hf s s' H. cbn. auto. Qed.

Lemma blind_modify (f : MidiFile -> MidiFile) :
  (forall s s', erase s = erase s' -> erase (f s) = erase (f s')) ->
  blind (modify f).
Proof. intros Hf s s' H. cbn. auto. Qed.

Lemma blind_bind {A B} (m : M A) (k : A -> M B) :
  blind m -> (forall a, blind (k a)) -> blind (bind m k).
Proof.
  intros Hm Hk s s' H. unfold bind. specialize (Hm s s' H).
  destruct (m s) as [[a s1]|e|], (m s') as [[a' s1']|e'|]; cbn in Hm;
    try contradiction; try exact Hm.
  destruct Hm as (-> & Hm). apply Hk. exact Hm.
Qed.

Lemma blind_while {X} (fuel : nat) (cond : X -> MidiFile -> bool)
    (body : X -> M X) (x : X) :
  (forall x s s', erase s = erase s' -> cond x s = cond x s') ->
  (forall x, blind (body x)) -> blind (while fuel cond body x).
Proof.
  intros Hcond Hbody. revert x.
  induction fuel as [|fuel IH]; intros x s s' H; cbn [while];
    rewrite (Hcond x s s' H); destruct (cond x s').
  - exact I.
  - cbn. auto.
  - apply blind_bind; [apply Hbody | exact IH | exact H].
  - cbn. auto.
Qed.

Lemma blind_for_range (n : nat) (k : Z) (body : Z -> M unit) :
  (forall i, blind (body i)) -> blind (for_range n k body).
Proof.
  intros Hbody. revert k. induction n as [|n IH]; intros k; cbn [for_range].
  - apply blind_ret.
  - apply blind_bind; [apply Hbody | intros _; apply IH].
Qed.

Ltac blind_leaf := let H := fresh in intros ? ? H; erased H.

Ltac blind_step :=
  lazymatch goal with
  | |- blind (ret _) => apply blind_ret
  | |- blind (lift _) => apply blind_lift
  | |- blind (gets _) => apply blind_gets; blind_leaf
  | |- blind (modify _) => apply blind_modify; blind_leaf
  | |- blind (bind _ _) => apply blind_bind; [|intros ?]
  | |- blind (while _ _ _ _) =>
      apply blind_while; [intros ?; blind_leaf | intros ?]
  | |- blind (for_range _ _ _) => apply blind_for_range; intros ?
  | |- blind (if ?c then _ else _) => destruct c
  | |- blind (let _ := _ in _) => cbv zeta
  end.

Ltac blind_tac :=
  repeat first
    [ blind_step
    | progress unfold byte_at, skip, get_int, read_length, emit, read_mthd,
        read_midi_meta_event, read_voice_event, track_event_body,
        read_midi_track_event, read_mtrk, set_counter, scan_body, read_events ].

Lemma blind_read_events : blind read_events.
Proof. blind_tac. Qed.

(** The decode does not depend on the trace: started with any trace in place
    of the empty one, it returns the same decoder up to the trace, or raises
    the same exception. *)
Theorem trace_is_write_only (s : MidiFile) (t : list event) :
  same_run (read_events s) (read_events (set_trace t s)).
Proof. apply blind_read_events. reflexivity. Qed.

(** * Further properties of the decoder *)

(** ** Bytes at the cursor *)

Lemma getitem_nth {A} (l : list A) (i : Z) (x : A) :
  0 <= i -> nth_error l (Z.to_nat i) = Some x -> getitem l i = OK x.
Proof.
  intros Hi Hn. unfold getitem.
  assert (Hlt : (Z.to_nat i < List.length l)%nat)
    by (apply nth_error_Some; congruence).
  destruct (Z.ltb_spec i 0); [lia|].
  destruct (Z.leb_spec 0 i); [|lia].
  destruct (Z.ltb_spec i (Z.of_nat (List.length l))); [|lia].
  cbn [andb]. rewrite Hn. reflexivity.
Qed.

Lemma getitem_beyond {A} (l : list A) (i : Z) :
  len l <= i -> getitem l i = Raise IndexError.
Proof.
  intros Hi. unfold getitem, len in *.
  destruct (Z.ltb_spec i 0); [lia|].
  destruct (Z.ltb_spec i (Z.of_nat (List.length l))); [lia|].
  rewrite andb_false_r. reflexivity.
Qed.

Lemma byte_at_cursor (s : MidiFile) (j : nat) (b : Z) :
  0 <= itr s -> nth_error (at_cursor s) j = Some b ->
  byte_at (itr s + Z.of_nat j) s = OK (b, s).
Proof.
  intros Hi Hn. unfold byte_at, bind, gets, lift.
  unfold at_cursor in Hn. rewrite nth_error_skipn in Hn.
  rewrite (getitem_nth _ _ b); [reflexivity | lia |].
  rewrite <- Hn. f_equal. lia.
Qed.

Lemma byte_at_cursor_end (s : MidiFile) (j : nat) :
  0 <= itr s -> nth_error (at_cursor s) j = None ->
  byte_at (itr s + Z.of_nat j) s = Raise IndexError.
Proof.
  intros Hi Hn. unfold byte_at, bind, gets, lift.
  unfold at_cursor in Hn. rewrite nth_error_skipn in Hn.
  apply nth_error_None in Hn.
  rewrite getitem_beyond; [reflexivity|]. unfold len. lia.
Qed.

Lemma at_cursor_seek (s : MidiFile) (k : nat) :
  0 <= itr s ->
  at_cursor (set_itr (itr s + Z.of_nat k) s) = skipn k (at_cursor s).
Proof.
  intros Hi. unfold at_cursor. cbn [itr bytes set_itr].
  rewrite skipn_skipn. f_equal. lia.
Qed.

Lemma at_cursor_bound (s : MidiFile) (b : Z) :
  In b (at_cursor s) -> 0 <= b < 256.
Proof.
  intros H. unfold at_cursor in H. apply in_skipn in H.
  apply in_map_iff in H. destruct H as (x & <- & _). apply byte_val_bound.
Qed.

Lemma at_cursor_length (s : MidiFile) :
  (List.length (at_cursor s) <= List.length (bytes s))%nat.
Proof. unfold at_cursor. rewrite length_skipn, length_map. lia. Qed.

(** ** Variable-length quantities: [read_length] *)

Lemma high_bit_test (b : Z) :
  0 <= b < 256 -> (Z.shiftr (Z.land b 0x80) 7 =? 0x1) = (128 <=? b).
Proof.
  intros Hb. rewrite Z.shiftr_land.
  change (Z.shiftr 128 7) with (Z.ones 1).
  rewrite Z.land_ones, Z.shiftr_div_pow2 by lia.
  change (2 ^ 7) with 128. change (2 ^ 1) with 2.
  destruct (Z.leb_spec 128 b).
  - replace (b / 128) with 1 by (apply Z.div_unique with (b - 128); lia).
    reflexivity.
  - rewrite Z.div_small by lia. reflexivity.
Qed.

Lemma low_bits (b : Z) : Z.land b 0x7F = b mod 128.
Proof. change 127 with (Z.ones 7). rewrite Z.land_ones by lia. reflexivity. Qed.

Lemma read_length_unfold :
  read_length =
    (fuel <- gets fuel_of ;;
     r <- while fuel (fun r _ => fst r) read_length_body (true, 0) ;;
     ret (snd r)).
Proof. reflexivity. Qed.

Lemma read_length_body_step (r : bool * Z) (s : MidiFile) (b : Z) (tl : list Z) :
  0 <= itr s -> at_cursor s = b :: tl ->
  read_length_body r s
  = OK ((128 <=? b, snd r * 128 + b mod 128), set_itr (itr s + 1) s).
Proof.
  intros Hi Hc.
  assert (Hb : 0 <= b < 256) by (apply (at_cursor_bound s); rewrite Hc; left; reflexivity).
  assert (Hget : byte_at (itr s) s = OK (b, s)).
  { rewrite <- (Z.add_0_r (itr s)) at 1. apply (byte_at_cursor s 0 b Hi).
    rewrite Hc. reflexivity. }
  unfold read_length_body. cbv zeta.
  unfold bind at 1. unfold bind at 1. unfold gets at 1. rewrite Hget.
  rewrite high_bit_test, low_bits by exact Hb.
  rewrite Z.shiftl_mul_pow2 by lia. change (2 ^ 7) with 128.
  destruct (128 <=? b); reflexivity.
Qed.

Lemma read_length_body_end (r : bool * Z) (s : MidiFile) :
  0 <= itr s -> at_cursor s = [] ->
  read_length_body r s = Raise IndexError.
Proof.
  intros Hi Hc.
  assert (Hget : byte_at (itr s) s = Raise IndexError).
  { rewrite <- (Z.add_0_r (itr s)) at 1. apply (byte_at_cursor_end s 0 Hi).
    rewrite Hc. reflexivity. }
  unfold read_length_body. cbv zeta.
  unfold bind at 1. unfold bind at 1. unfold gets at 1. rewrite Hget.
  reflexivity.
Qed.

Lemma at_cursor_next (s : MidiFile) (b : Z) (tl : list Z) :
  0 <= itr s -> at_cursor s = b :: tl ->
  at_cursor (set_itr (itr s + 1) s) = tl.
Proof.
  intros Hi Hc. change 1 with (Z.of_nat 1).
  rewrite at_cursor_seek by exact Hi. rewrite Hc. reflexivity.
Qed.

Lemma vlq_fold (l : list Z) (acc : Z) :
  fold_left (fun a b => a * 128 + b mod 128) l acc
  = acc * 128 ^ len l + vlq_value l.
Proof.
  revert acc. induction l as [|b l IH]; intros acc; cbn [fold_left vlq_value].
  - unfold len. cbn. lia.
  - rewrite IH. unfold len. cbn [List.length].
    rewrite Nat2Z.inj_succ, Z.pow_succ_r by lia. ring.
Qed.

Lemma read_length_loop (cont : list Z) (acc : Z) (s : MidiFile) (fuel : nat)
    (last : Z) (rest : list Z) :
  0 <= itr s ->
  at_cursor s = cont ++ last :: rest ->
  Forall (fun b => 128 <= b) cont -> last < 128 ->
  (List.length cont < fuel)%nat ->
  while fuel (fun r _ => fst r) read_length_body (true, acc) s
  = OK ((false, fold_left (fun a b => a * 128 + b mod 128) (cont ++ [last]) acc),
        set_itr (itr s + len cont + 1) s).
Proof.
  revert acc s fuel.
  induction cont as [|c cont IH]; intros acc s fuel Hi Hc Hcont Hlast Hfuel;
    (destruct fuel as [|fuel]; [cbn in Hfuel; lia|]).
  - cbn [while fst app]. unfold bind at 1.
    rewrite (read_length_body_step _ s last rest Hi Hc).
    destruct (Z.leb_spec 128 last); [lia|].
    unfold len. cbn [List.length Z.of_nat]. rewrite Z.add_0_r.
    destruct fuel; reflexivity.
  - cbn [while fst app]. unfold bind at 1.
    rewrite (read_length_body_step _ s c (cont ++ last :: rest) Hi Hc).
    apply Forall_cons_iff in Hcont. destruct Hcont as (Hc128 & Hcont).
    destruct (Z.leb_spec 128 c); [|lia].
    rewrite (IH _ (set_itr (itr s + 1) s) fuel).
    + cbn [snd fold_left itr set_itr]. do 2 f_equal.
      unfold len. cbn [List.length]. rewrite Nat2Z.inj_succ.
      replace (itr s + 1 + Z.of_nat (List.length cont) + 1)
        with (itr s + Z.succ (Z.of_nat (List.length cont)) + 1) by lia.
      reflexivity.
    + cbn. lia.
    + eapply at_cursor_next; eassumption.
    + exact Hcont.
    + exact Hlast.
    + cbn in Hfuel. lia.
Qed.

Lemma vlq_value_bound (l : list Z) : 0 <= vlq_value l < 128 ^ len l.
Proof.
  induction l as [|b l IH]; cbn [vlq_value].
  - unfold len; cbn; lia.
  - unfold len in *. cbn [List.length].
    rewrite Nat2Z.inj_succ, Z.pow_succ_r by lia.
    pose proof (Z.mod_pos_bound b 128 ltac:(lia)).
    assert (0 < 128 ^ Z.of_nat (List.length l)) by (apply Z.pow_pos_nonneg; lia).
    nia.
Qed.

(** X1: when the bytes at the cursor are a run of bytes with the high bit set
    followed by a byte with the high bit clear, [read_length] returns the
    number whose base-128 digits are the low 7 bits of these bytes, the first
    byte the most significant, and leaves the cursor right after the byte
    with the high bit clear; nothing else of the decoder changes. *)
Theorem read_length_decodes_vlq (s : MidiFile) (cont : list Z) (last : Z)
    (rest : list Z) :
  0 <= itr s ->
  at_cursor s = cont ++ last :: rest ->
  Forall (fun b => 128 <= b) cont -> last < 128 ->
  read_length s
  = OK (vlq_value (cont ++ [last]), set_itr (itr s + len cont + 1) s) /\
  0 <= vlq_value (cont ++ [last]) < 128 ^ (len cont + 1).
Proof.
  intros Hi Hc Hcont Hlast. split.
  - rewrite read_length_unfold. unfold bind at 1. unfold gets at 1.
    unfold bind at 1.
    rewrite (read_length_loop cont 0 s (fuel_of s) last rest Hi Hc Hcont Hlast).
    + unfold ret. cbn [snd]. rewrite vlq_fold. cbn. reflexivity.
    + unfold fuel_of. pose proof (at_cursor_length s) as Hl.
      rewrite Hc, length_app in Hl. cbn [List.length] in Hl. lia.
  - pose proof (vlq_value_bound (cont ++ [last])) as H.
    rewrite len_app1 in H. exact H.
Qed.

Lemma read_length_decodes_vlq_witness :
  read_length (at_offset [0x83; 0x60; 0x90] 0)
  = OK (480, at_offset [0x83; 0x60; 0x90] 2).
Proof.
  destruct (read_length_decodes_vlq (at_offset [0x83; 0x60; 0x90] 0)
              [0x83] 0x60 [0x90]) as (H & _).
  - cbn. lia.
  - reflexivity.
  - repeat constructor. lia.
  - lia.
  - exact H.
Defined.

Lemma read_length_loop_unterminated (l : list Z) (acc : Z) (s : MidiFile)
    (fuel : nat) :
  0 <= itr s -> at_cursor s = l -> Forall (fun b => 128 <= b) l ->
  (List.length l < fuel)%nat ->
  while fuel (fun r _ => fst r) read_length_body (true, acc) s
  = Raise IndexError.
Proof.
  revert acc s fuel.
  induction l as [|c l IH]; intros acc s fuel Hi Hc Hall Hfuel;
    (destruct fuel as [|fuel]; [cbn in Hfuel; lia|]);
    cbn [while fst]; unfold bind at 1.
  - rewrite (read_length_body_end _ s Hi Hc). reflexivity.
  - rewrite (read_length_body_step _ s c l Hi Hc).
    apply Forall_cons_iff in Hall. destruct Hall as (Hc128 & Hall).
    destruct (Z.leb_spec 128 c); [|lia].
    apply IH; [cbn; lia | eapply at_cursor_next; eassumption | exact Hall |].
    cbn in Hfuel. lia.
Qed.

(** X2: when every byte from the cursor to the end of the buffer has the high
    bit set (also when no byte is left), [read_length] raises [IndexError]: a
    quantity that is not terminated is never returned. *)
Theorem read_length_unterminated (s : MidiFile) :
  0 <= itr s -> Forall (fun b => 128 <= b) (at_cursor s) ->
  read_length s = Raise IndexError.
Proof.
  intros Hi Hall. rewrite read_length_unfold.
  unfold bind at 1. unfold gets at 1. unfold bind at 1.
  rewrite (read_length_loop_unterminated (at_cursor s) 0 s (fuel_of s) Hi eq_refl Hall).
  - reflexivity.
  - unfold fuel_of. pose proof (at_cursor_length s). lia.
Qed.

Lemma read_length_unterminated_witness :
  read_length (at_offset [0x90; 0x81; 0x80] 1) = Raise IndexError.
Proof.
  apply read_length_unterminated.
  - cbn. lia.
  - change (at_cursor (at_offset [0x90; 0x81; 0x80] 1)) with [0x81; 0x80].
    repeat constructor; lia.
Defined.

(** ** Text payloads: [read_text] *)

Lemma skipn_cons_nth {A} (l : list A) (j : nat) (b : A) :
  nth_error l j = Some b -> skipn j l = b :: skipn (S j) l.
Proof.
  revert j. induction l as [|x l IH]; intros [|j] H; cbn in H; try discriminate.
  - injection H as ->. reflexivity.
  - cbn [skipn]. rewrite (IH j H). reflexivity.
Qed.

Lemma join_chars_reads (s : MidiFile) (n j : nat) :
  0 <= itr s -> (j + n <= List.length (at_cursor s))%nat ->
  join_chars n (itr s + Z.of_nat j) s
  = OK (string_of_list_ascii (map chr (firstn n (skipn j (at_cursor s)))), s).
Proof.
  intros Hi. revert j. induction n as [|n IH]; intros j Hj; cbn [join_chars].
  - reflexivity.
  - destruct (nth_error (at_cursor s) j) as [b|] eqn:Hn.
    2: { apply nth_error_None in Hn. lia. }
    unfold bind at 1. rewrite (byte_at_cursor s j b Hi Hn).
    unfold bind at 1.
    replace (itr s + Z.of_nat j + 1) with (itr s + Z.of_nat (S j)) by lia.
    rewrite IH by lia.
    rewrite (skipn_cons_nth _ _ _ Hn). reflexivity.
Qed.

Lemma join_chars_raises (s : MidiFile) (n j : nat) :
  0 <= itr s ->
  (j <= List.length (at_cursor s) < j + n)%nat ->
  join_chars n (itr s + Z.of_nat j) s = Raise IndexError.
Proof.
  intros Hi. revert j. induction n as [|n IH]; intros j Hj; [lia|].
  cbn [join_chars]. unfold bind at 1.
  destruct (nth_error (at_cursor s) j) as [b|] eqn:Hn.
  - rewrite (byte_at_cursor s j b Hi Hn). unfold bind at 1.
    replace (itr s + Z.of_nat j + 1) with (itr s + Z.of_nat (S j)) by lia.
    assert (j < List.length (at_cursor s))%nat
      by (apply nth_error_Some; congruence).
    rewrite IH by lia. reflexivity.
  - rewrite (byte_at_cursor_end s j Hi Hn). reflexivity.
Qed.

(** X3: [read_text] of [length] bytes returns the characters of the next
    [length] bytes and moves the cursor past them when that many bytes are
    left, and raises [IndexError] when fewer are left; it never returns a
    shorter text. *)
Theorem read_text_reads_or_raises (s : MidiFile) (length : Z) :
  0 <= itr s -> 0 <= length ->
  (length <= len (at_cursor s) ->
   read_text length s
   = OK (string_of_list_ascii
           (map chr (firstn (Z.to_nat length) (at_cursor s))),
         set_itr (itr s + length) s) /\
   String.length
     (string_of_list_ascii (map chr (firstn (Z.to_nat length) (at_cursor s))))
   = Z.to_nat length) /\
  (len (at_cursor s) < length -> read_text length s = Raise IndexError).
Proof.
  intros Hi Hlen. unfold len. split; intros H.
  - split.
    + unfold read_text, bind, gets.
      pose proof (join_chars_reads s (Z.to_nat length) 0 Hi ltac:(lia)) as Hj.
      cbn [Z.of_nat skipn] in Hj. rewrite Z.add_0_r in Hj. rewrite Hj.
      reflexivity.
    + assert (Hsl : forall l, String.length (string_of_list_ascii l) = List.length l).
      { induction l as [|c l IH]; cbn; [reflexivity | now rewrite IH]. }
      rewrite Hsl, length_map, length_firstn. lia.
  - unfold read_text, bind, gets.
    pose proof (join_chars_raises s (Z.to_nat length) 0 Hi ltac:(lia)) as Hj.
    cbn [Z.of_nat] in Hj. rewrite Z.add_0_r in Hj. rewrite Hj. reflexivity.
Qed.

Lemma read_text_reads_or_raises_witness :
  read_text 2 (at_offset meta_track_name 2)
  = OK ("ab"%string, at_offset meta_track_name 4) /\
  read_text 7 (at_offset meta_track_name 2) = Raise IndexError.
Proof.
  destruct (read_text_reads_or_raises (at_offset meta_track_name 2) 2
              ltac:(cbn; lia) ltac:(lia)) as (H1 & _).
  destruct (read_text_reads_or_raises (at_offset meta_track_name 2) 7
              ltac:(cbn; lia) ltac:(lia)) as (_ & H2).
  split.
  - destruct H1 as (H1 & _); [vm_compute; discriminate | exact H1].
  - apply H2. vm_compute. reflexivity.
Defined.

(** ** Header and track chunks *)

Lemma get_int_at_cursor (size : Z) (s : MidiFile) :
  0 <= itr s -> 0 <= size ->
  get_int size s
  = OK (be_value (firstn (Z.to_nat size) (at_cursor s)),
        set_itr (itr s + size) s).
Proof.
  intros Hi Hsize. unfold get_int, bind, gets, modify, ret, at_cursor.
  rewrite getslice_from by assumption. rewrite fold_left_be_value.
  reflexivity.
Qed.

Lemma at_cursor_skip (s s1 : MidiFile) (k : nat) :
  0 <= itr s -> bytes s1 = bytes s -> itr s1 = itr s + Z.of_nat k ->
  at_cursor s1 = skipn k (at_cursor s).
Proof.
  intros Hi Hb Hk. unfold at_cursor. rewrite Hb, Hk, skipn_skipn.
  f_equal. lia.
Qed.

(** X4: from a cursor inside the buffer [read_mthd] never raises.  It stores
    the big-endian values of the next 4, 2 and 2 bytes as header length,
    format and track count, the low 15 bits of the 2 bytes after them as
    division (so the division is in [0, 32768)), and 0 as division type; it
    moves the cursor by 10 and touches nothing else.  Bytes missing at the end
    of the buffer shorten the runs that are read. *)
Theorem read_mthd_reads_header (s : MidiFile) :
  0 <= itr s ->
  exists s',
    read_mthd s = OK (tt, s') /\
    header_length s' = be_value (firstn 4 (at_cursor s)) /\
    format s' = be_value (firstn 2 (skipn 4 (at_cursor s))) /\
    tracks s' = be_value (firstn 2 (skipn 6 (at_cursor s))) /\
    division s' = Z.land (be_value (firstn 2 (skipn 8 (at_cursor s)))) 0x7FFF /\
    0 <= division s' < 32768 /\
    division_type s' = 0 /\
    itr s' = itr s + 10 /\
    bytes s' = bytes s /\ tempo s' = tempo s /\ notes s' = notes s /\
    decoder_state s' = decoder_state s /\
    start_counter s' = start_counter s /\ trace s' = trace s.
Proof.
  intros Hi. unfold read_mthd.
  unfold bind at 1. rewrite get_int_at_cursor by (assumption || lia).
  unfold bind at 1. unfold modify at 1.
  set (s1 := set_header_length _ (set_itr (itr s + 4) s)).
  assert (H1 : at_cursor s1 = skipn 4 (at_cursor s))
    by (apply at_cursor_skip; [assumption | reflexivity | reflexivity]).
  unfold bind at 1. rewrite get_int_at_cursor by (cbn; lia).
  unfold bind at 1. unfold modify at 1.
  set (s2 := set_format _ (set_itr (itr s1 + 2) s1)).
  assert (H2 : at_cursor s2 = skipn 6 (at_cursor s))
    by (apply at_cursor_skip; [assumption | reflexivity | cbn; lia]).
  unfold bind at 1. rewrite get_int_at_cursor by (cbn; lia).
  unfold bind at 1. unfold modify at 1.
  set (s3 := set_tracks _ (set_itr (itr s2 + 2) s2)).
  assert (H3 : at_cursor s3 = skipn 8 (at_cursor s))
    by (apply at_cursor_skip; [assumption | reflexivity | cbn; lia]).
  unfold bind at 1. rewrite get_int_at_cursor by (cbn; lia).
  unfold bind at 1. unfold modify.
  eexists. split; [reflexivity|].
  cbn [header_length format tracks division division_type itr bytes tempo notes
       decoder_state delta_time running_status running_status_set
       start_counter trace
       set_division set_division_type set_itr set_tracks set_format
       set_header_length s1 s2 s3].
  rewrite H1, H2, H3.
  change (Z.to_nat 4) with 4%nat. change (Z.to_nat 2) with 2%nat.
  repeat split; try reflexivity; try lia.
  - apply Z.land_nonneg. right. lia.
  - change 32767 with (Z.ones 15). rewrite Z.land_ones by lia.
    apply Z.mod_pos_bound. lia.
  - apply division_flag_shift.
Qed.

Lemma read_mthd_reads_header_witness :
  exists s',
    read_mthd (at_offset header_480 4) = OK (tt, s') /\
    header_length s' = 6 /\ format s' = 0 /\ tracks s' = 1 /\
    division s' = 480 /\ itr s' = 14.
Proof.
  destruct (read_mthd_reads_header (at_offset header_480 4) ltac:(cbn; lia))
    as (s' & H & Hl & Hf & Ht & Hd & _ & _ & Hi & _).
  exists s'. repeat split; [exact H | exact Hl | exact Hf | exact Ht | exact Hd | exact Hi].
Defined.

#[local] Instance header_kept_preorder : PreOrder header_kept.
Proof.
  split.
  - intros s. repeat split.
  - intros s1 s2 s3 H12 H23. unfold header_kept in *.
    repeat match goal with H : _ /\ _ |- _ => destruct H end.
    repeat split; congruence.
Qed.

Ltac header_leaf := solve [repeat split].

Lemma header_kept_read_midi_meta_event (delta_t : Z) :
  preserves header_kept (read_midi_meta_event delta_t).
Proof. unfold read_midi_meta_event. pres; header_leaf. Qed.
#[local] Hint Resolve header_kept_read_midi_meta_event : pres.

Lemma header_kept_track_event_body (c : bool) :
  preserves header_kept (track_event_body c).
Proof. pres; header_leaf. Qed.

(** X5: when [read_midi_track_event] returns, the cursor is exactly [length]
    bytes after the place it started from, whatever the events consumed and
    also when End of Track came early or the events ran past the boundary;
    the buffer, the header fields and the scanner's counters are unchanged. *)
Theorem read_midi_track_event_ends_at_boundary (length : Z) (s s' : MidiFile) :
  read_midi_track_event length s = OK (tt, s') ->
  itr s' = itr s + length /\ header_kept s s'.
Proof.
  intros H. unfold read_midi_track_event in H.
  apply bind_OK in H. destruct H as (start & s1 & H1 & H).
  injection H1 as <- <-.
  apply bind_OK in H. destruct H as (fuel & s1 & H1 & H).
  injection H1 as _ <-.
  apply bind_OK in H. destruct H as (c & s2 & H2 & H).
  injection H as <-.
  assert (Hloop : header_kept s s2).
  { eapply (preserves_while header_kept);
      [apply header_kept_track_event_body | exact H2]. }
  split; [reflexivity|].
  unfold header_kept in *. cbn. exact Hloop.
Qed.

Lemma read_midi_track_event_ends_at_boundary_witness :
  exists s',
    read_midi_track_event 9 (at_offset file_two_tracks 22) = OK (tt, s') /\
    itr s' = 31.
Proof.
  eexists. split; [vm_compute; reflexivity|].
  match goal with
  | |- itr ?s' = 31 =>
      destruct (read_midi_track_event_ends_at_boundary 9
                  (at_offset file_two_tracks 22) s') as (H & _);
        [vm_compute; reflexivity | exact H]
  end.
Defined.

(** X6: when [read_mtrk] returns, the cursor is at the boundary the chunk
    declares: 4 bytes of length plus the big-endian value of these bytes after
    the place it started from; the buffer, the header fields and the
    scanner's counters are unchanged. *)
Theorem read_mtrk_ends_at_declared_boundary (s s' : MidiFile) :
  0 <= itr s ->
  read_mtrk s = OK (tt, s') ->
  itr s' = itr s + 4 + be_value (firstn 4 (at_cursor s)) /\
  header_kept s s'.
Proof.
  intros Hi H. unfold read_mtrk in H.
  apply bind_OK in H. destruct H as (d & s1 & H1 & H).
  injection H1 as _ <-.
  apply bind_OK in H. destruct H as ([] & s1 & H1 & H).
  injection H1 as <-.
  apply bind_OK in H. destruct H as (length & s2 & H2 & H).
  rewrite get_int_at_cursor in H2 by (cbn; lia).
  change (at_cursor (set_trace _ s)) with (at_cursor s) in H2.
  change (Z.to_nat 4) with 4%nat in H2.
  remember (be_value (firstn 4 (at_cursor s))) as declared eqn:Hd.
  injection H2 as <- <-.
  apply bind_OK in H. destruct H as ([] & s3 & H3 & H).
  apply read_midi_track_event_ends_at_boundary in H3.
  destruct H3 as (Hitr & Hkept).
  apply bind_OK in H. destruct H as (d' & s4 & H4 & H).
  injection H4 as _ <-. injection H as <-.
  cbn [itr set_itr set_trace] in *.
  split; [lia|].
  unfold header_kept in *. cbn in *. exact Hkept.
Qed.

Lemma read_mtrk_ends_at_declared_boundary_witness :
  exists s',
    read_mtrk (at_offset file_two_tracks 18) = OK (tt, s') /\ itr s' = 31.
Proof.
  eexists. split; [vm_compute; reflexivity|].
  match goal with
  | |- itr ?s' = 31 =>
      destruct (read_mtrk_ends_at_declared_boundary
                  (at_offset file_two_tracks 18) s') as (H & _);
        [cbn; lia | vm_compute; reflexivity | exact H]
  end.
Defined.

(** ** What a decode leaves behind *)

#[local] Instance delta_grows_preorder : PreOrder delta_grows.
Proof.
  split.
  - intros s. unfold delta_grows. lia.
  - intros s1 s2 s3. unfold delta_grows. lia.
Qed.

Ltac delta_leaf := solve [unfold delta_grows; cbn; lia].

Lemma delta_grows_read_length : preserves delta_grows read_length.
Proof. pres; delta_leaf. Qed.

Lemma delta_grows_read_midi_meta_event (delta_t : Z) :
  preserves delta_grows (read_midi_meta_event delta_t).
Proof. unfold read_midi_meta_event. pres; delta_leaf. Qed.
#[local] Hint Resolve delta_grows_read_midi_meta_event : pres.

Lemma delta_grows_track_event_body (c : bool) :
  preserves delta_grows (track_event_body c).
Proof.
  unfold track_event_body. intros s b s' H.
  apply bind_OK in H. destruct H as (delta_t & s1 & H1 & H).
  pose proof (read_length_nonneg _ _ _ H1) as Hlen.
  transitivity s1; [eapply delta_grows_read_length; exact H1|].
  revert H. generalize s1, b, s'.
  match goal with
  | |- forall s1 b s', ?m s1 = OK (b, s') -> delta_grows s1 s' =>
      change (preserves delta_grows m)
  end.
  pres; delta_leaf.
Qed.
#[local] Hint Resolve delta_grows_track_event_body : pres.

Lemma delta_grows_read_events : preserves delta_grows read_events.
Proof. pres; delta_leaf. Qed.

(** X7: the accumulator of delta-times never decreases across a decode: the
    delta-times read are non-negative and nothing else assigns it, no track
    chunk and no End of Track resets it.  The decoder returned by the
    constructor therefore has a non-negative accumulator. *)
Theorem delta_time_never_decreases (s s' : MidiFile) :
  read_events s = OK (tt, s') -> delta_time s <= delta_time s'.
Proof. intros H. exact (delta_grows_read_events _ _ _ H). Qed.

Lemma delta_time_never_decreases_witness :
  exists s',
    read_events (init_state (bytes_of file_two_tracks) 120) = OK (tt, s') /\
    0 <= delta_time s'.
Proof.
  eexists. split; [vm_compute; reflexivity|].
  match goal with
  | |- 0 <= delta_time ?s' =>
      apply (delta_time_never_decreases
               (init_state (bytes_of file_two_tracks) 120) s')
  end.
  vm_compute. reflexivity.
Defined.

#[local] Instance notes_grow_preorder : PreOrder notes_grow.
Proof.
  split.
  - intros s. exists []. rewrite app_nil_r. split; [reflexivity | constructor].
  - intros s1 s2 s3 (l & Hl & Hf) (l' & Hl' & Hf').
    exists (l ++ l'). rewrite Hl', Hl, app_assoc. split; [reflexivity|].
    apply Forall_app. split; assumption.
Qed.

Ltac notes_leaf :=
  solve [exists []; rewrite app_nil_r; split; [reflexivity | constructor]].

Lemma getitem_In {A} (l : list A) (i : Z) (x : A) :
  getitem l i = OK x -> In x l.
Proof.
  unfold getitem.
  destruct (_ && _); [|discriminate].
  destruct (nth_error l _) as [y|] eqn:E; [|discriminate].
  intros H. injection H as <-. eapply nth_error_In. exact E.
Qed.

Lemma notes_grow_append (time : Q) (mapped_key : Z) :
  preserves notes_grow
    (symbol <- lift (string_getitem VIRTUAL_PIANO_SCALE mapped_key) ;;
     modify (fun s => set_notes (notes s ++ [(time, symbol)]) s)).
Proof.
  intros s a s' H. unfold bind, lift, string_getitem, modify in H.
  destruct (getitem _ mapped_key) as [c| |] eqn:E; try discriminate.
  injection H as _ <-.
  exists [(time, String c EmptyString)]. split; [reflexivity|].
  constructor; [|constructor].
  exists c. split; [reflexivity|]. eapply getitem_In. exact E.
Qed.
#[local] Hint Resolve notes_grow_append : pres.

Lemma notes_grow_read_midi_meta_event (delta_t : Z) :
  preserves notes_grow (read_midi_meta_event delta_t).
Proof. unfold read_midi_meta_event. pres; notes_leaf. Qed.
#[local] Hint Resolve notes_grow_read_midi_meta_event : pres.

Lemma notes_grow_read_events : preserves notes_grow read_events.
Proof. pres; notes_leaf. Qed.

(** X8: a decode only appends to the note list: the notes it starts with stay
    in front, unchanged and in their order, and every note it adds carries one
    character of [VIRTUAL_PIANO_SCALE]. *)
Theorem decode_only_appends_notes (s s' : MidiFile) :
  read_events s = OK (tt, s') ->
  exists added,
    notes s' = notes s ++ added /\
    Forall (fun n => scale_symbol (snd n)) added.
Proof. intros H. exact (notes_grow_read_events _ _ _ H). Qed.

Lemma decode_only_appends_notes_witness :
  exists s' added,
    read_events (init_state (bytes_of file_scenario) 120) = OK (tt, s') /\
    notes s' = [] ++ added /\
    Forall (fun n => scale_symbol (snd n)) added.
Proof.
  eexists.
  match goal with
  | |- exists added, read_events ?s = OK (tt, ?s') /\ _ =>
      assert (Hrun : read_events s = OK (tt, s')) by (vm_compute; reflexivity);
      destruct (decode_only_appends_notes s s' Hrun) as (added & Hn & Hf);
      exists added; split; [exact Hrun | split; [exact Hn | exact Hf]]
  end.
Defined.

Lemma while_exit {X} (fuel : nat) (cond : X -> MidiFile -> bool)
    (body : X -> M X) (x : X) (s : MidiFile) (x' : X) (s' : MidiFile) :
  while fuel cond body x s = OK (x', s') -> cond x' s' = false.
Proof.
  revert x s. induction fuel as [|fuel IH]; intros x s H; cbn in H.
  - destruct (cond x s) eqn:E; [discriminate|].
    injection H as <- <-. exact E.
  - destruct (cond x s) eqn:E.
    + apply bind_OK in H. destruct H as (x1 & s1 & _ & H).
      eapply IH. exact H.
    + injection H as <- <-. exact E.
Qed.

(** X9: a decode that returns has consumed the buffer: the cursor is on the
    last byte or beyond it (a declared chunk length may carry it past the
    end), it has not moved back, and the buffer is the one it started with. *)
Theorem decode_returns_at_end_of_buffer (s s' : MidiFile) :
  read_events s = OK (tt, s') ->
  len (bytes s') <= itr s' + 1 /\ itr s <= itr s' /\ bytes s' = bytes s.
Proof.
  intros H. destruct (adv_read_events _ _ _ H) as (Hb & Hi).
  split; [|split; assumption].
  unfold read_events in H.
  apply bind_OK in H. destruct H as (fuel & s1 & H1 & H).
  injection H1 as _ <-.
  apply while_exit in H. apply Z.ltb_ge in H. exact H.
Qed.

Lemma decode_returns_at_end_of_buffer_witness :
  exists s',
    read_events (init_state (bytes_of file_two_tracks) 120) = OK (tt, s') /\
    len (bytes s') <= itr s' + 1.
Proof.
  eexists. split; [vm_compute; reflexivity|].
  match goal with
  | |- len (bytes ?s') <= itr ?s' + 1 =>
      apply (decode_returns_at_end_of_buffer
               (init_state (bytes_of file_two_tracks) 120) s')
  end.
  vm_compute. reflexivity.
Defined.

(** ** Keys outside the 7-bit range *)

(** X10: [map_key_to_piano] returns an index of the alphabet for every
    integer, not only for the 7-bit keys: [read_voice_event] passes the byte
    after the status as it is (a value up to 255), and the lookup of the
    symbol still does not raise. *)
Theorem map_key_to_piano_total (key : Z) :
  0 <= map_key_to_piano key < scale_len /\
  (map_key_to_piano key - (key - 36)) mod 12 = 0 /\
  exists c, string_getitem VIRTUAL_PIANO_SCALE (map_key_to_piano key)
            = OK (String c EmptyString) /\
            scale_symbol (String c EmptyString).
Proof.
  assert (Hrange : 0 <= map_key_to_piano key < scale_len).
  { rewrite map_key_to_piano_closed.
    pose proof (Z.mod_pos_bound (key - 36) 12 ltac:(lia)).
    pose proof (Z.mod_pos_bound (key - 36 - scale_len) 12 ltac:(lia)).
    change scale_len with 62 in *.
    destruct (Z.ltb_spec (key - 36) 0); [lia|].
    destruct (Z.ltb_spec (key - 36) 62); lia. }
  split; [exact Hrange|]. split.
  - rewrite map_key_to_piano_closed. change scale_len with 62.
    destruct (Z.ltb_spec (key - 36) 0).
    + rewrite Zminus_mod, Z.mod_mod, Z.sub_diag by lia. reflexivity.
    + destruct (Z.ltb_spec (key - 36) 62).
      * rewrite Z.sub_diag. reflexivity.
      * replace (62 - 12 + (key - 36 - 62) mod 12 - (key - 36))
          with ((key - 36 - 62) mod 12 - (key - 36 - 62 + 1 * 12)) by lia.
        rewrite Zminus_mod, Z.mod_mod, Z.mod_add, Z.sub_diag by lia.
        reflexivity.
  - destruct (string_getitem_in_range VIRTUAL_PIANO_SCALE
                (map_key_to_piano key) Hrange) as (c & Hc).
    exists c. split; [exact Hc|].
    exists c. split; [reflexivity|].
    unfold string_getitem in Hc.
    destruct (getitem _ (map_key_to_piano key)) as [d| |] eqn:E;
      try discriminate.
    injection Hc as ->. eapply getitem_In. exact E.
Qed.

(** ** Voice events: [read_voice_event] *)

Lemma byte_at_from (s0 s : MidiFile) (j : nat) (b : Z) :
  0 <= itr s0 -> nth_error (at_cursor s0) j = Some b ->
  bytes s = bytes s0 -> itr s = itr s0 + Z.of_nat j ->
  byte_at (itr s) s = OK (b, s).
Proof.
  intros Hi Hn Hb Hj. unfold byte_at, bind, gets, lift.
  unfold at_cursor in Hn. rewrite nth_error_skipn in Hn.
  rewrite Hb, Hj. rewrite (getitem_nth _ _ b); [reflexivity | lia |].
  rewrite <- Hn. f_equal. lia.
Qed.

(** Reads the byte [b], the [j]-th after the cursor of [s0], in the goal. *)
Ltac read_byte s0 j b :=
  match goal with
  | |- context [byte_at (itr ?t) ?t] =>
      rewrite (byte_at_from s0 t j b)
        by first [assumption | reflexivity | cbn; lia];
      cbv beta iota
  end.

Lemma map_key_to_piano_symbol (key : Z) :
  exists c,
    string_getitem VIRTUAL_PIANO_SCALE (map_key_to_piano key)
    = OK (String c EmptyString).
Proof.
  apply string_getitem_in_range. fold scale_len.
  rewrite map_key_to_piano_closed.
  pose proof (Z.mod_pos_bound (key - 36) 12 ltac:(lia)).
  pose proof (Z.mod_pos_bound (key - 36 - scale_len) 12 ltac:(lia)).
  change scale_len with 62 in *.
  destruct (Z.ltb_spec (key - 36) 0); [lia|].
  destruct (Z.ltb_spec (key - 36) 62); lia.
Qed.

Lemma note_on_nibble (status : Z) :
  Z.shiftr status 4 = 9 -> 0x90 <= status <= 0x9F.
Proof.
  rewrite Z.shiftr_div_pow2 by lia. change (2 ^ 4) with 16. intros H.
  pose proof (Z.div_mod status 16 ltac:(lia)).
  pose proof (Z.mod_pos_bound status 16 ltac:(lia)). lia.
Qed.

(** X11: a Note On with its status byte.  When the cursor is on a status
    byte 0x9n followed by a key and a velocity above 0, and the quotient of the
    accumulated ticks by the division is a float, [read_voice_event] appends
    exactly one note, with this quotient as time and the symbol of the key,
    stores the status byte as running status and leaves the cursor after the
    three bytes; the channel n plays no part. *)
Theorem note_on_appends_one_note (delta_t : Z) (s : MidiFile)
    (status key velocity : Z) (rest : list Z) (time : Q) :
  0 <= itr s ->
  at_cursor s = status :: key :: velocity :: rest ->
  Z.shiftr status 4 = 9 ->
  0 < velocity ->
  truediv (delta_time s) (division s) = OK time ->
  exists c,
    string_getitem VIRTUAL_PIANO_SCALE (map_key_to_piano key)
    = OK (String c EmptyString) /\
    read_voice_event delta_t s
    = OK (tt, set_notes (notes s ++ [(time, String c EmptyString)])
                (set_itr (itr s + 3)
                   (set_running_status_set true
                      (set_running_status status s)))).
Proof.
  intros Hi Hc Hst Hvel Hdiv.
  destruct (map_key_to_piano_symbol key) as (c & Hsym).
  exists c. split; [exact Hsym|].
  pose proof (note_on_nibble status Hst) as Hrange.
  assert (H0 : nth_error (at_cursor s) 0 = Some status) by (rewrite Hc; reflexivity).
  assert (H1 : nth_error (at_cursor s) 1 = Some key) by (rewrite Hc; reflexivity).
  assert (H2 : nth_error (at_cursor s) 2 = Some velocity) by (rewrite Hc; reflexivity).
  unfold read_voice_event, bind, gets, modify, ret.
  read_byte s 0%nat status.
  destruct (Z.ltb_spec status 128); [lia|]. cbn [andb].
  read_byte s 0%nat status.
  destruct (Z.leb_spec 128 status); [|lia].
  destruct (Z.leb_spec status 247); [|lia]. cbn [andb].
  rewrite Hst. cbn [Z.eqb Pos.eqb].
  read_byte s 1%nat key.
  read_byte s 2%nat velocity.
  destruct (Z.ltb_spec 0 velocity); [|lia].
  cbn [delta_time division set_itr set_running_status set_running_status_set].
  rewrite Hdiv. unfold lift at 1. cbv beta iota.
  rewrite Hsym. unfold lift. cbv beta iota.
  replace (itr s + 3) with (itr s + 1 + 1 + 1) by lia.
  reflexivity.
Qed.

Lemma note_on_appends_one_note_witness :
  exists c,
    string_getitem VIRTUAL_PIANO_SCALE (map_key_to_piano 60)
    = OK (String c EmptyString) /\
    read_voice_event 0 (set_division 480 (at_offset [0x93; 60; 100; 0] 0))
    = OK (tt, set_notes [(0%Q, String c EmptyString)]
                (set_itr 3
                   (set_running_status_set true
                      (set_running_status 0x93
                         (set_division 480 (at_offset [0x93; 60; 100; 0] 0)))))).
Proof.
  apply (note_on_appends_one_note 0
           (set_division 480 (at_offset [0x93; 60; 100; 0] 0))
           0x93 60 100 [0] 0%Q).
  - cbn. lia.
  - reflexivity.
  - reflexivity.
  - lia.
  - reflexivity.
Defined.

(** X12: a Note On under running status.  When the byte at the cursor is a
    data byte (below 0x80) and the running status is a Note On status, the
    byte is the key: [read_voice_event] reads key and velocity, appends the
    note and leaves the cursor after the two bytes; the running status is
    kept. *)
Theorem running_status_note_on (delta_t : Z) (s : MidiFile)
    (key velocity : Z) (rest : list Z) (time : Q) :
  0 <= itr s ->
  at_cursor s = key :: velocity :: rest ->
  key < 0x80 ->
  running_status_set s = true ->
  Z.shiftr (running_status s) 4 = 9 ->
  0 < velocity ->
  truediv (delta_time s) (division s) = OK time ->
  exists c,
    string_getitem VIRTUAL_PIANO_SCALE (map_key_to_piano key)
    = OK (String c EmptyString) /\
    read_voice_event delta_t s
    = OK (tt, set_notes (notes s ++ [(time, String c EmptyString)])
                (set_itr (itr s + 2) s)).
Proof.
  intros Hi Hc Hkey Hset Hst Hvel Hdiv.
  destruct (map_key_to_piano_symbol key) as (c & Hsym).
  exists c. split; [exact Hsym|].
  assert (H0 : nth_error (at_cursor s) 0 = Some key) by (rewrite Hc; reflexivity).
  assert (H1 : nth_error (at_cursor s) 1 = Some velocity) by (rewrite Hc; reflexivity).
  unfold read_voice_event, bind, gets, modify, ret.
  read_byte s 0%nat key.
  destruct (Z.ltb_spec key 128); [|lia]. rewrite Hset. cbn [andb].
  rewrite Hst. cbn [Z.eqb Pos.eqb].
  read_byte s 0%nat key.
  read_byte s 1%nat velocity.
  destruct (Z.ltb_spec 0 velocity); [|lia].
  cbn [delta_time division set_itr].
  rewrite Hdiv. unfold lift at 1. cbv beta iota.
  rewrite Hsym. unfold lift. cbv beta iota.
  replace (itr s + 2) with (itr s + 1 + 1) by lia.
  reflexivity.
Qed.

Lemma running_status_note_on_witness :
  exists c,
    string_getitem VIRTUAL_PIANO_SCALE (map_key_to_piano 62)
    = OK (String c EmptyString) /\
    read_voice_event 0
      (set_running_status_set true
         (set_running_status 0x90
            (set_division 480 (at_offset [62; 100; 0] 0))))
    = OK (tt, set_notes [(0%Q, String c EmptyString)]
                (set_itr 2
                   (set_running_status_set true
                      (set_running_status 0x90
                         (set_division 480 (at_offset [62; 100; 0] 0)))))).
Proof.
  apply (running_status_note_on 0
           (set_running_status_set true
              (set_running_status 0x90
                 (set_division 480 (at_offset [62; 100; 0] 0))))
           62 100 [0] 0%Q).
  - cbn. lia.
  - reflexivity.
  - lia.
  - reflexivity.
  - reflexivity.
  - lia.
  - reflexivity.
Defined.

(** X13: a voice event with its status byte that is not a Note On.  The
    status byte becomes the running status and the data bytes are skipped
    without being read: one byte after a Program Change (0xCn), two bytes
    after the others, Channel Pressure (0xDn) included.  No note is added and
    no byte after the status is required to exist. *)
Theorem other_voice_event_skips_data (delta_t : Z) (s : MidiFile)
    (status : Z) (rest : list Z) :
  0 <= itr s ->
  at_cursor s = status :: rest ->
  0x80 <= status <= 0xEF ->
  Z.shiftr status 4 <> 9 ->
  read_voice_event delta_t s
  = OK (tt, set_itr (itr s + (if Z.shiftr status 4 =? 0xC then 2 else 3))
              (set_running_status_set true (set_running_status status s))).
Proof.
  intros Hi Hc Hrange Hst.
  assert (H0 : nth_error (at_cursor s) 0 = Some status) by (rewrite Hc; reflexivity).
  assert (Hn : 8 <= Z.shiftr status 4 <= 14).
  { rewrite Z.shiftr_div_pow2 by lia. change (2 ^ 4) with 16.
    pose proof (Z.div_mod status 16 ltac:(lia)).
    pose proof (Z.mod_pos_bound status 16 ltac:(lia)). lia. }
  unfold read_voice_event, bind, gets, modify, ret.
  read_byte s 0%nat status.
  destruct (Z.ltb_spec status 128); [lia|]. cbn [andb].
  read_byte s 0%nat status.
  destruct (Z.leb_spec 128 status); [|lia].
  destruct (Z.leb_spec status 247); [|lia]. cbn [andb].
  destruct (Z.eqb_spec (Z.shiftr status 4) 9) as [E|_]; [contradiction|].
  unfold mem. cbn [existsb].
  destruct (Z.eqb_spec (Z.shiftr status 4) 12) as [E|E].
  - rewrite E. cbn [Z.eqb Pos.eqb orb negb set_itr itr].
    replace (itr s + 2) with (itr s + 1 + 1) by lia. reflexivity.
  - assert (Hor : (Z.shiftr status 4 =? 8) || ((Z.shiftr status 4 =? 9)
                    || ((Z.shiftr status 4 =? 10) || ((Z.shiftr status 4 =? 11)
                    || ((Z.shiftr status 4 =? 13) || ((Z.shiftr status 4 =? 14)
                    || false))))) = true).
    { repeat rewrite orb_true_iff. repeat rewrite Z.eqb_eq. lia. }
    rewrite Hor. cbn [negb set_itr itr].
    replace (itr s + 3) with (itr s + 1 + 2) by lia. reflexivity.
Qed.

Lemma other_voice_event_skips_data_witness :
  read_voice_event 0 (at_offset [0xD2] 0)
  = OK (tt, set_itr 3
              (set_running_status_set true
                 (set_running_status 0xD2 (at_offset [0xD2] 0)))).
Proof.
  apply (other_voice_event_skips_data 0 (at_offset [0xD2] 0) 0xD2 []).
  - cbn. lia.
  - reflexivity.
  - lia.
  - cbn. discriminate.
Defined.

(** ** One pass of the loop of [read_midi_track_event] *)

Lemma read_length_one_byte (s : MidiFile) (b : Z) (rest : list Z) :
  0 <= itr s -> at_cursor s = b :: rest -> b < 128 ->
  read_length s = OK (b, set_itr (itr s + 1) s).
Proof.
  intros Hi Hc Hb.
  assert (Hb0 : 0 <= b < 256)
    by (apply (at_cursor_bound s); rewrite Hc; left; reflexivity).
  rewrite read_length_unfold. unfold bind at 1. unfold gets at 1.
  unfold bind at 1.
  rewrite (read_length_loop [] 0 s (fuel_of s) b rest Hi Hc);
    [|constructor | exact Hb | unfold fuel_of; cbn; lia].
  unfold ret. cbn [snd app fold_left]. unfold len. cbn [List.length Z.of_nat].
  rewrite Z.mod_small by lia. rewrite Z.add_0_r. reflexivity.
Qed.

(** X14: a system-exclusive status byte (0xF0 to 0xF7) after a delta-time of
    one byte.  The pass adds the delta-time, clears the running status and
    returns with the cursor still on the status byte: neither the byte nor
    the message that follows it is consumed, so the next pass reads its
    delta-time from the status byte on. *)
Theorem system_event_is_not_consumed (c : bool) (s : MidiFile)
    (delta_t b : Z) (rest : list Z) :
  0 <= itr s ->
  at_cursor s = delta_t :: b :: rest ->
  delta_t < 0x80 ->
  0xF0 <= b <= 0xF7 ->
  exists s',
    track_event_body c s = OK (c, s') /\
    s' = set_running_status (-1)
           (set_running_status_set false
              (set_delta_time (delta_time s + delta_t)
                 (set_itr (itr s + 1) s))) /\
    at_cursor s' = b :: rest.
Proof.
  intros Hi Hc Hdt Hb.
  eexists. split; [|split; [reflexivity|]].
  - unfold track_event_body. unfold bind at 1.
    rewrite (read_length_one_byte s delta_t (b :: rest) Hi Hc Hdt).
    unfold bind, gets, modify, ret.
    assert (H1 : nth_error (at_cursor s) 1 = Some b) by (rewrite Hc; reflexivity).
    read_byte s 1%nat b.
    destruct (Z.eqb_spec b 255); [lia|].
    destruct (Z.leb_spec 240 b); [|lia].
    destruct (Z.leb_spec b 247); [|lia]. cbn [andb].
    reflexivity.
  - change (at_cursor (set_itr (itr s + 1) s) = b :: rest).
    eapply at_cursor_next; eassumption.
Qed.

Lemma system_event_is_not_consumed_witness :
  exists s',
    track_event_body true (at_offset [0x00; 0xF0; 0x01; 0xF7] 0) = OK (true, s') /\
    itr s' = 1.
Proof.
  destruct (system_event_is_not_consumed true
              (at_offset [0x00; 0xF0; 0x01; 0xF7] 0) 0x00 0xF0 [0x01; 0xF7])
    as (s' & Hrun & Hs & _).
  - cbn. lia.
  - reflexivity.
  - lia.
  - lia.
  - exists s'. split; [exact Hrun|]. rewrite Hs. reflexivity.
Defined.

(** ** End of Track *)

Lemma meta_end_of_track (delta_t : Z) (s : MidiFile) (n : Z) (rest : list Z) :
  0 <= itr s ->
  at_cursor s = 0x2F :: n :: rest ->
  n < 0x80 ->
  read_midi_meta_event delta_t s
  = OK (false, set_itr (itr s + 4) (set_trace (trace s ++ [AtMeta 0x2F]) s)).
Proof.
  intros Hi Hc Hn.
  assert (H0 : nth_error (at_cursor s) 0 = Some 0x2F) by (rewrite Hc; reflexivity).
  unfold read_midi_meta_event.
  unfold bind at 1. unfold bind at 1. unfold gets at 1.
  read_byte s 0%nat 0x2F.
  unfold bind at 1. unfold emit at 1. unfold modify at 1.
  unfold bind at 1. unfold modify at 1.
  unfold bind at 1.
  erewrite (read_length_one_byte _ n rest);
    [| cbn; lia | | exact Hn].
  - cbn [Z.eqb Pos.eqb]. unfold bind, modify, ret.
    cbn [itr set_itr set_trace].
    replace (itr s + 4) with (itr s + 1 + 1 + 2) by lia. reflexivity.
  - change (at_cursor (set_itr (itr s + 1) s) = n :: rest).
    eapply at_cursor_next; eassumption.
Qed.

(** X15: End of Track ends the chunk.  When a chunk of positive declared
    length starts with a delta-time of one byte and an End of Track event
    (0xFF 0x2F and a length byte), [read_midi_track_event] handles this one
    event and returns with the cursor at the declared end of the chunk:
    whatever bytes the chunk holds after the event are not decoded, and no
    note is added. *)
Theorem end_of_track_ends_chunk (length : Z) (s : MidiFile)
    (delta_t n : Z) (rest : list Z) :
  0 <= itr s ->
  at_cursor s = delta_t :: 0xFF :: 0x2F :: n :: rest ->
  delta_t < 0x80 -> n < 0x80 ->
  0 < length ->
  read_midi_track_event length s
  = OK (tt, set_itr (itr s + length)
              (set_trace (trace s ++ [AtMeta 0x2F])
                 (set_delta_time (delta_time s + delta_t) s))).
Proof.
  intros Hi Hc Hdt Hn Hlen.
  assert (H1 : nth_error (at_cursor s) 1 = Some 0xFF) by (rewrite Hc; reflexivity).
  assert (Hbody :
    track_event_body true s
    = OK (false, set_itr (itr s + 1 + 1 + 4)
                   (set_trace (trace s ++ [AtMeta 0x2F])
                      (set_delta_time (delta_time s + delta_t) s)))).
  { unfold track_event_body. unfold bind at 1.
    rewrite (read_length_one_byte s delta_t _ Hi Hc Hdt).
    unfold bind at 1. unfold modify at 1.
    unfold bind at 1. unfold bind at 1. unfold gets at 1.
    read_byte s 1%nat 0xFF.
    cbn [Z.eqb Pos.eqb]. unfold bind at 1. unfold modify at 1.
    erewrite (meta_end_of_track _ _ n rest); [reflexivity | cbn; lia | | exact Hn].
    match goal with
    | |- at_cursor ?t = _ =>
        rewrite (at_cursor_skip s t 2) by first [assumption | reflexivity | cbn; lia]
    end.
    rewrite Hc. reflexivity. }
  unfold read_midi_track_event.
  unfold bind at 1. unfold gets at 1.
  unfold bind at 1. unfold gets at 1.
  unfold fuel_of. cbn [while].
  unfold bind at 1. cbv beta.
  replace (itr s - itr s) with 0 by lia.
  destruct (Z.ltb_spec 0 length); [|lia]. cbn [andb].
  unfold bind at 1. rewrite Hbody.
  destruct (List.length (bytes s)); cbn [while]; rewrite andb_false_r;
    reflexivity.
Qed.

Lemma end_of_track_ends_chunk_witness :
  exists s',
    read_midi_track_event 7
      (at_offset [0x00; 0xFF; 0x2F; 0x00; 0x90; 60; 100] 0) = OK (tt, s') /\
    itr s' = 7 /\ notes s' = [].
Proof.
  eexists. split; [|split].
  - apply (end_of_track_ends_chunk 7
             (at_offset [0x00; 0xFF; 0x2F; 0x00; 0x90; 60; 100] 0)
             0x00 0x00 [0x90; 60; 100]).
    + cbn. lia.
    + reflexivity.
    + lia.
    + lia.
    + lia.
  - reflexivity.
  - reflexivity.
Defined.

(** * Further properties of the export *)

(** ** The merging loop *)

Lemma merge_from_head (rest : list note) (prev : note) :
  exists n l,
    merge_from prev rest = n :: l /\ Qeq_bool (fst prev) (fst n) = true.
Proof.
  revert prev. induction rest as [|cur rest IH]; intros prev;
    cbn [merge_from].
  - exists prev, []. split; [reflexivity | apply Qeq_bool_refl].
  - destruct (Qeq_bool (fst prev) (fst cur)) eqn:E.
    + destruct (IH (fst cur, (snd cur ++ snd prev)%string)) as (n & l & Hm & Hq).
      exists n, l. split; [exact Hm|].
      eapply Qeq_bool_trans; [exact E | exact Hq].
    + exists prev, (merge_from cur rest).
      split; [reflexivity | apply Qeq_bool_refl].
Qed.

Lemma merge_from_adjacent (rest : list note) (prev : note) :
  Sorted time_differs (merge_from prev rest).
Proof.
  revert prev. induction rest as [|cur rest IH]; intros prev;
    cbn [merge_from].
  - repeat constructor.
  - destruct (Qeq_bool (fst prev) (fst cur)) eqn:E; [apply IH|].
    constructor; [apply IH|].
    destruct (merge_from_head rest cur) as (n & l & Hm & Hq).
    rewrite Hm. constructor. unfold time_differs.
    destruct (Qeq_bool (fst prev) (fst n)) eqn:E'; [|reflexivity].
    apply Qeq_bool_sym in Hq.
    rewrite (Qeq_bool_trans _ _ _ E' Hq) in E. discriminate.
Qed.

Lemma string_length_app (a b : string) :
  String.length (a ++ b) = (String.length a + String.length b)%nat.
Proof. induction a as [|c a IH]; cbn; [reflexivity | now rewrite IH]. Qed.

Lemma merge_from_symbol_count (rest : list note) (prev : note) :
  symbol_count (merge_from prev rest)
  = (String.length (snd prev) + symbol_count rest)%nat.
Proof.
  revert prev. unfold symbol_count, list_sum.
  induction rest as [|cur rest IH]; intros prev;
    cbn [merge_from map fold_right].
  - reflexivity.
  - destruct (Qeq_bool (fst prev) (fst cur)).
    + rewrite IH. cbn [snd]. rewrite string_length_app. lia.
    + cbn [map fold_right]. rewrite IH. reflexivity.
Qed.

Lemma merge_from_length (rest : list note) (prev : note) :
  (List.length (merge_from prev rest) <= S (List.length rest))%nat.
Proof.
  revert prev. induction rest as [|cur rest IH]; intros prev;
    cbn [merge_from List.length].
  - lia.
  - destruct (Qeq_bool (fst prev) (fst cur)).
    + specialize (IH (fst cur, (snd cur ++ snd prev)%string)). lia.
    + cbn [List.length]. specialize (IH cur). lia.
Qed.

(** X16: the merging loop of [process_notes] returns on every note list,
    sorted or not; it leaves no two neighbouring entries of equal time, it
    never makes the list longer, and it keeps every symbol: the entries it
    leaves hold as many symbols as the entries it was given. *)
Theorem merge_notes_joins_neighbours (s : MidiFile) :
  exists s',
    merge_notes s = OK (tt, s') /\
    Sorted time_differs (notes s') /\
    symbol_count (notes s') = symbol_count (notes s) /\
    (List.length (notes s') <= List.length (notes s))%nat.
Proof.
  exists (set_notes (merged (notes s)) s).
  split; [apply merge_notes_closed|].
  cbn [notes set_notes].
  destruct (notes s) as [|n l]; cbn [merged].
  - repeat split; constructor.
  - split; [apply merge_from_adjacent|].
    split; [|apply merge_from_length].
    rewrite merge_from_symbol_count. reflexivity.
Qed.

(** ** Removal of repeated symbols *)

(** X17: [unique_symbols] does not depend on the order in which Python
    iterates over the set: for every enumeration of the distinct characters of
    the chord, sorting it by first occurrence gives the same string.  This
    string holds the characters of the chord, each once, in the order of their
    first occurrences. *)
Theorem unique_symbols_keeps_first_occurrences (s : string) (e : list ascii) :
  NoDup e ->
  (forall c, In c e <-> In c (list_ascii_of_string s)) ->
  string_of_list_ascii (sorted_by (str_index (list_ascii_of_string s)) e)
  = unique_symbols s /\
  NoDup (list_ascii_of_string (unique_symbols s)) /\
  (forall c, In c (list_ascii_of_string (unique_symbols s))
             <-> In c (list_ascii_of_string s)) /\
  StronglySorted (index_lt (list_ascii_of_string s))
    (list_ascii_of_string (unique_symbols s)).
Proof.
  intros Hnodup Hsame.
  rewrite unique_symbols_closed, list_ascii_of_string_of_list_ascii.
  split; [f_equal; apply unique_symbols_any_order; assumption|].
  split; [apply first_occurrences_NoDup|].
  split; [intros c; apply first_occurrences_In|].
  apply first_occurrences_sorted.
Qed.

Lemma unique_symbols_keeps_first_occurrences_witness :
  string_of_list_ascii
    (sorted_by (str_index (list_ascii_of_string "qwq"))
       ["w"%char; "q"%char])
  = unique_symbols "qwq".
Proof.
  apply (unique_symbols_keeps_first_occurrences "qwq" ["w"%char; "q"%char]).
  - constructor; [|constructor; [|constructor]].
    + intros [H|[]]. discriminate.
    + intros [].
  - intros c. cbn. tauto.
Defined.

(** ** The sheet: [generate_piano_sheet] *)

Lemma count_newlines_app (a b : string) :
  count_newlines (a ++ b) = (count_newlines a + count_newlines b)%nat.
Proof.
  induction a as [|c a IH]; cbn [append count_newlines]; [reflexivity|].
  rewrite IH. lia.
Qed.

Lemma spaces_length (k : nat) :
  String.length (string_of_list_ascii (repeat " "%char k)) = k.
Proof. induction k as [|k IH]; cbn; [reflexivity | now rewrite IH]. Qed.

Lemma spaces_newlines (k : nat) :
  count_newlines (string_of_list_ascii (repeat " "%char k)) = 0%nat.
Proof. induction k as [|k IH]; cbn; [reflexivity | exact IH]. Qed.

Lemma rjust7_length (x : string) :
  String.length (rjust7 x) = Nat.max 7 (String.length x).
Proof. unfold rjust7. rewrite string_length_app, spaces_length. lia. Qed.

Lemma rjust7_newlines (x : string) :
  count_newlines (rjust7 x) = count_newlines x.
Proof. unfold rjust7. rewrite count_newlines_app, spaces_newlines. reflexivity. Qed.

Lemma bracket_length (x : string) :
  String.length ("[" ++ x ++ "]") = S (S (String.length x)).
Proof. cbn. rewrite string_length_app. cbn. lia. Qed.

Lemma bracket_newlines (x : string) :
  count_newlines ("[" ++ x ++ "]") = count_newlines x.
Proof. cbn. rewrite count_newlines_app. cbn. lia. Qed.

Lemma eighth_note (c : Z) :
  0 <= c ->
  (c + 1) / 8 - c / 8 = if (c + 1) mod 8 =? 0 then 1 else 0.
Proof.
  intros Hc. destruct (Z.eqb_spec ((c + 1) mod 8) 0) as [E|E];
    Z.div_mod_to_equations; lia.
Qed.

Lemma sheet_text_newlines (l : list note) (c : Z) :
  0 <= c ->
  Forall (fun n => count_newlines (snd n) = 0%nat) l ->
  Z.of_nat (count_newlines (sheet_text l c)) = (c + len l) / 8 - c / 8.
Proof.
  revert c. induction l as [|n l IH]; intros c Hc Hl.
  - unfold len. cbn. rewrite Z.add_0_r. lia.
  - apply Forall_cons_iff in Hl. destruct Hl as (Hn & Hl).
    cbn [sheet_text]. cbv zeta.
    rewrite !count_newlines_app, rjust7_newlines.
    assert (Hrepr : count_newlines
                      (if (1 <? String.length (snd n))%nat
                       then ("[" ++ snd n ++ "]")%string else snd n) = 0%nat).
    { destruct (1 <? String.length (snd n))%nat;
        [rewrite bracket_newlines|]; exact Hn. }
    rewrite Hrepr. rewrite !Nat2Z.inj_add, (IH (c + 1)) by (lia || exact Hl).
    unfold len. cbn [List.length]. rewrite Nat2Z.inj_succ.
    replace (c + Z.succ (Z.of_nat (List.length l)))
      with (c + 1 + Z.of_nat (List.length l)) by lia.
    pose proof (eighth_note c Hc) as He.
    remember ((c + 1 + Z.of_nat (List.length l)) / 8) as q eqn:Hq.
    remember ((c + 1) / 8) as q1 eqn:Hq1.
    remember (c / 8) as q0 eqn:Hq0.
    clear Hq Hq1 Hq0.
    change (count_newlines " ") with 0%nat.
    destruct ((c + 1) mod 8 =? 0);
      [change (count_newlines (String "010"%char EmptyString)) with 1%nat
      |change (count_newlines EmptyString) with 0%nat]; lia.
Qed.

Lemma sheet_text_length (l : list note) (c : Z) :
  0 <= c ->
  Forall (fun n => (String.length (snd n) <= 5)%nat) l ->
  Z.of_nat (String.length (sheet_text l c))
  = 8 * len l + ((c + len l) / 8 - c / 8).
Proof.
  revert c. induction l as [|n l IH]; intros c Hc Hl.
  - unfold len. cbn. rewrite Z.add_0_r. lia.
  - apply Forall_cons_iff in Hl. destruct Hl as (Hn & Hl).
    cbn [sheet_text]. cbv zeta.
    rewrite !string_length_app, rjust7_length.
    assert (Hrepr : Nat.max 7
                      (String.length
                         (if (1 <? String.length (snd n))%nat
                          then ("[" ++ snd n ++ "]")%string else snd n)) = 7%nat).
    { destruct (1 <? String.length (snd n))%nat;
        [rewrite bracket_length|]; lia. }
    rewrite Hrepr. rewrite !Nat2Z.inj_add, (IH (c + 1)) by (lia || exact Hl).
    change (Z.of_nat 7) with 7.
    unfold len. cbn [List.length]. rewrite Nat2Z.inj_succ.
    replace (c + Z.succ (Z.of_nat (List.length l)))
      with (c + 1 + Z.of_nat (List.length l)) by lia.
    pose proof (eighth_note c Hc) as He.
    remember ((c + 1 + Z.of_nat (List.length l)) / 8) as q eqn:Hq.
    remember ((c + 1) / 8) as q1 eqn:Hq1.
    remember (c / 8) as q0 eqn:Hq0.
    remember (Z.of_nat (List.length l)) as k eqn:Hk.
    clear Hq Hq1 Hq0 Hk.
    change (String.length " ") with 1%nat.
    destruct ((c + 1) mod 8 =? 0);
      [change (String.length (String "010"%char EmptyString)) with 1%nat
      |change (String.length EmptyString) with 0%nat]; lia.
Qed.

Lemma string_app_assoc (a b c : string) :
  ((a ++ b) ++ c = a ++ (b ++ c))%string.
Proof. induction a as [|x a IH]; cbn; [reflexivity | now rewrite IH]. Qed.

Lemma string_app_empty (a : string) : (a ++ "")%string = a.
Proof. induction a as [|x a IH]; cbn; [reflexivity | now rewrite IH]. Qed.

(** Chords that do not reach the next multiple of 8 are written as their
    cells, no line feed between them. *)
Lemma sheet_text_cells (row rest : list note) (c : Z) :
  0 <= c -> c mod 8 + len row < 8 ->
  sheet_text (row ++ rest) c
  = (cells row ++ sheet_text rest (c + len row))%string.
Proof.
  revert c. induction row as [|n row IH]; intros c Hc Hrow.
  - unfold len. cbn. rewrite Z.add_0_r. reflexivity.
  - unfold len in *. cbn [List.length] in *. rewrite Nat2Z.inj_succ in *.
    cbn [app sheet_text]. cbv zeta.
    change (cells (n :: row)) with (cell n ++ cells row)%string.
    replace (c + Z.succ (Z.of_nat (List.length row)))
      with (c + 1 + Z.of_nat (List.length row)) by lia.
    destruct (Z.eqb_spec ((c + 1) mod 8) 0) as [E|_].
    { exfalso. clear - Hc Hrow E.
      pose proof (Zle_0_nat (List.length row)).
      Z.div_mod_to_equations. lia. }
    rewrite (IH (c + 1)).
    + unfold cell. rewrite !string_app_assoc. reflexivity.
    + lia.
    + clear - Hc Hrow. pose proof (Zle_0_nat (List.length row)).
      Z.div_mod_to_equations. lia.
Qed.

(** The eighth chord of a row is followed by a line feed. *)
Lemma sheet_text_row (row rest : list note) (c : Z) :
  0 <= c -> c mod 8 = 0 -> List.length row = 8%nat ->
  sheet_text (row ++ rest) c
  = (cells row ++ String "010"%char (sheet_text rest (c + 8)))%string.
Proof.
  intros Hc Hmod Hrow.
  destruct (exists_last (l := row)) as (front & n & ->).
  { intros ->. discriminate. }
  rewrite length_app in Hrow. cbn [List.length] in Hrow.
  rewrite <- app_assoc. cbn [app].
  rewrite sheet_text_cells by (unfold len; lia).
  assert (Hfront : len front = 7) by (unfold len; lia).
  rewrite Hfront. cbn [sheet_text]. cbv zeta.
  destruct (Z.eqb_spec ((c + 7 + 1) mod 8) 0) as [_|E].
  - replace (c + 7 + 1) with (c + 8) by lia.
    assert (Hcells : forall t,
              (cells (front ++ [n]) ++ t = cells front ++ (cell n ++ t))%string).
    { clear. induction front as [|x front IH]; intros t;
        cbn [app cells fold_right].
      - rewrite string_app_empty. reflexivity.
      - fold (cells (front ++ [n])). fold (cells front).
        rewrite !string_app_assoc, IH. reflexivity. }
    rewrite Hcells. unfold cell. rewrite !string_app_assoc. reflexivity.
  - exfalso. apply E. clear - Hc Hmod. Z.div_mod_to_equations. lia.
Qed.

(** The text of the loop is the layout in rows. *)
Lemma sheet_text_rows (rows : list (list note)) (last : list note) (c : Z) :
  0 <= c -> c mod 8 = 0 ->
  Forall (fun row => List.length row = 8%nat) rows ->
  (List.length last < 8)%nat ->
  sheet_text (List.concat rows ++ last) c = sheet_rows rows last.
Proof.
  intros Hc Hmod Hrows Hlast. revert c Hc Hmod.
  induction Hrows as [|row rows Hrow Hrows IH]; intros c Hc Hmod;
    cbn [List.concat sheet_rows fold_right app].
  - rewrite <- (app_nil_r last) at 1.
    rewrite sheet_text_cells by (unfold len; lia).
    cbn [sheet_text]. apply string_app_empty.
  - rewrite <- app_assoc. rewrite (sheet_text_row row _ c Hc Hmod Hrow).
    rewrite (IH (c + 8)); [reflexivity | lia |].
    clear - Hmod. Z.div_mod_to_equations. lia.
Qed.

(** Every list of chords is a sequence of rows of 8 chords and a shorter
    last row. *)
Lemma rows_of_chords (l : list note) :
  exists rows last,
    l = List.concat rows ++ last /\
    Forall (fun row => List.length row = 8%nat) rows /\
    (List.length last < 8)%nat.
Proof.
  remember (List.length l) as k eqn:Hk.
  revert l Hk. induction k as [k IH] using lt_wf_ind. intros l Hk.
  destruct (Nat.lt_ge_cases (List.length l) 8) as [Hshort | Hlong].
  - exists [], l. split; [reflexivity|]. split; [constructor | exact Hshort].
  - destruct (IH (List.length (skipn 8 l))) with (l := skipn 8 l)
      as (rows & last & Hl & Hrows & Hlast).
    + rewrite length_skipn. lia.
    + reflexivity.
    + exists (firstn 8 l :: rows), last. split; [|split].
      * cbn [List.concat]. rewrite <- app_assoc, <- Hl, firstn_skipn. reflexivity.
      * constructor; [|exact Hrows]. rewrite length_firstn. lia.
      * exact Hlast.
Qed.

(** X18: layout of the sheet.  For chords given as rows of 8 and a shorter
    last row, the text [generate_piano_sheet] writes is the rows one after
    the other: in each row the cells of its chords (a chord of several
    symbols in brackets, right-aligned in 7 columns, and a space), a line feed
    after the eighth cell of each row, and none after the last row.  For
    chords that hold no line feed these are the only line feeds, one for
    every 8 chords; when no chord has more than 5 symbols every cell is 8
    characters wide, so the text has 8 characters per chord and one per line
    feed. *)
Theorem sheet_text_layout (rows : list (list note)) (last : list note) :
  Forall (fun row => List.length row = 8%nat) rows ->
  (List.length last < 8)%nat ->
  sheet_text (List.concat rows ++ last) 0 = sheet_rows rows last /\
  (Forall (fun n => count_newlines (snd n) = 0%nat) (List.concat rows ++ last) ->
   Z.of_nat (count_newlines (sheet_rows rows last)) = len rows /\
   len rows = len (List.concat rows ++ last) / 8) /\
  (Forall (fun n => (String.length (snd n) <= 5)%nat) (List.concat rows ++ last) ->
   Z.of_nat (String.length (sheet_rows rows last))
   = 8 * len (List.concat rows ++ last) + len rows).
Proof.
  intros Hrows Hlast.
  pose proof (sheet_text_rows rows last 0 ltac:(lia) eq_refl Hrows Hlast) as Heq.
  assert (Hcount : len rows = len (List.concat rows ++ last) / 8).
  { unfold len. rewrite length_app.
    assert (Hc : List.length (List.concat rows) = (8 * List.length rows)%nat).
    { clear - Hrows. induction Hrows as [|row rows Hrow _ IH]; cbn [List.concat];
        [reflexivity|]. rewrite length_app, Hrow, IH. cbn [List.length]. lia. }
    rewrite Hc. apply Z.div_unique with (r := Z.of_nat (List.length last)); lia. }
  split; [exact Heq|]. split.
  - intros Hnl. split; [|exact Hcount].
    rewrite <- Heq, sheet_text_newlines by (lia || exact Hnl).
    cbn [Z.add]. change (0 / 8) with 0. lia.
  - intros Hlen.
    rewrite <- Heq, sheet_text_length by (lia || exact Hlen).
    cbn [Z.add]. change (0 / 8) with 0. lia.
Qed.

Lemma sheet_text_layout_witness :
  sheet_text (List.concat [repeat (0%Q, "qw"%string) 8] ++ [(1%Q, "e"%string)]) 0
  = sheet_rows [repeat (0%Q, "qw"%string) 8] [(1%Q, "e"%string)].
Proof.
  apply (sheet_text_layout [repeat (0%Q, "qw"%string) 8] [(1%Q, "e"%string)]).
  - repeat constructor.
  - cbn. lia.
Defined.

(** ** The export: [process_notes] *)

(** X19: with at least one note the export returns and writes both files:
    [song.json] holds the tempo of the decoder and the consolidated notes,
    [sheet.txt] the sheet of the consolidated notes, whatever the files held
    before; of the decoder only the note list has changed. *)
Theorem export_writes_both_files (s : MidiFile) (w : files) :
  notes s <> [] ->
  process_notes s w
  = (OK (set_notes (consolidated (notes s)) s),
     mkFiles (Some (mkSong (tempo s) (consolidated (notes s))))
       (Some (sheet_text (consolidated (notes s)) 0))).
Proof.
  intros Hne. unfold process_notes. rewrite consolidate_closed.
  unfold generate_piano_sheet. cbn [notes set_notes tempo song_json].
  apply consolidated_nonempty in Hne.
  destruct (consolidated (notes s)) as [|n l] eqn:E; [contradiction|].
  reflexivity.
Qed.

Lemma export_writes_both_files_witness :
  process_notes (set_notes notes_a_then_b (init_state [] 120)) no_files
  = (OK (set_notes [(0%Q, "ba"%string)] (init_state [] 120)),
     mkFiles (Some (mkSong 120 [(0%Q, "ba"%string)]))
       (Some "   [ba] "%string)).
Proof.
  apply (export_writes_both_files
           (set_notes notes_a_then_b (init_state [] 120)) no_files).
  cbn. discriminate.
Defined.

(** * A buffer without chunk signature *)

Lemma byte_at_content (s : MidiFile) (i b : Z) :
  getitem (map byte_val (bytes s)) i = OK b -> byte_at i s = OK (b, s).
Proof. intros H. unfold byte_at, bind, gets, lift. rewrite H. reflexivity. Qed.

Lemma getitem_in_range {A} (l : list A) (i : Z) :
  0 <= i < len l -> exists x, getitem l i = OK x /\ In x l.
Proof.
  intros Hi. unfold len in Hi.
  destruct (nth_error l (Z.to_nat i)) as [x|] eqn:E.
  - exists x. split; [apply getitem_nth; [lia | exact E]|].
    eapply nth_error_In. exact E.
  - apply nth_error_None in E. lia.
Qed.

(** Evaluates the index operations on the signatures and on the counters,
    and the tests on their values. *)
Ltac eval_closed :=
  match goal with
  | |- context [@getitem ?A ?l ?i] =>
      let t := eval vm_compute in (@getitem A l i) in
      lazymatch t with OK _ => change (@getitem A l i) with t end
  | |- context [@setitem ?A ?l ?i ?v] =>
      let t := eval vm_compute in (@setitem A l i v) in
      lazymatch t with OK _ => change (@setitem A l i v) with t end
  | |- context [Z.eqb ?x ?y] =>
      let t := eval vm_compute in (Z.eqb x y) in
      lazymatch t with
      | true => change (Z.eqb x y) with true
      | false => change (Z.eqb x y) with false
      end
  end.

(** One pass of the scanner over a byte that starts no chunk signature. *)
Lemma scan_body_no_signature (s0 : MidiFile) (i b : Z) :
  getitem (map byte_val (bytes s0)) i = OK b ->
  b <> 0x4D ->
  (i + 1 <? len (bytes s0)) = true ->
  scan_body (scanning s0 i 0)
  = OK (tt, scanning s0 (i + 1) (if b =? 0xFF then 1 else 0)).
Proof.
  intros Hget Hb Hmore.
  apply Z.eqb_neq in Hb.
  unfold scan_body, scanning.
  cbn [List.length start_sequence for_range].
  destruct (b =? 255) eqn:Hff.
  all: repeat first
    [ rewrite (byte_at_content _ _ b) by exact Hget
    | rewrite Hb
    | rewrite Hff
    | rewrite Hmore
    | progress cbv beta iota
    | progress cbn [itr bytes start_counter set_itr set_start_counter]
    | eval_closed
    | progress unfold bind, gets, lift, modify, ret, set_counter ].
  all: reflexivity.
Qed.

(** The counters are set to 0 at the start of a pass of the outer loop. *)
Lemma scan_pass_scanning (fuel : nat) (s0 : MidiFile) (i k : Z) :
  scan_pass fuel (scanning s0 i k) = scan_loop fuel (scanning s0 i 0).
Proof.
  unfold scan_pass, scanning. unfold bind at 1. unfold gets at 1.
  cbn [start_counter set_start_counter List.length for_range].
  repeat first
    [ progress cbv beta iota
    | progress cbn [itr bytes start_counter set_itr set_start_counter]
    | eval_closed
    | progress unfold bind, gets, lift, modify, ret, set_counter ].
  reflexivity.
Qed.

Lemma while_runs {X} (J : MidiFile -> Prop) (fuel : nat)
    (cond : X -> MidiFile -> bool) (body : X -> M X) (x : X) (s : MidiFile) :
  (forall x s, J s -> cond x s = true ->
     body x s = OutOfFuel \/ exists x' s', body x s = OK (x', s') /\ J s') ->
  J s ->
  while fuel cond body x s = OutOfFuel \/
  exists x' s', while fuel cond body x s = OK (x', s') /\ J s'.
Proof.
  intros Hbody. revert x s.
  induction fuel as [|fuel IH]; intros x s HJ; cbn [while].
  - destruct (cond x s); [left; reflexivity|].
    right. exists x, s. split; [reflexivity | exact HJ].
  - destruct (cond x s) eqn:Hc.
    + destruct (Hbody x s HJ Hc) as [Hout | (x1 & s1 & Hrun & HJ1)];
        unfold bind; rewrite ?Hout, ?Hrun; [left; reflexivity|].
      apply IH. exact HJ1.
    + right. exists x, s. split; [reflexivity | exact HJ].
Qed.

Section NoSignature.
Variable s0 : MidiFile.
Hypothesis no_signature_byte :
  Forall (fun b => byte_val b <> 0x4D) (bytes s0).

Lemma scan_loop_no_signature (fuel : nat) (s : MidiFile) :
  only_scanned s0 s ->
  scan_loop fuel s = OutOfFuel \/
  exists u s', scan_loop fuel s = OK (u, s') /\ only_scanned s0 s'.
Proof.
  intros HJ. unfold scan_loop. apply while_runs; [|exact HJ]. clear s HJ.
  intros [] s (i & k & Hi & Hk & ->) Hc.
  right. apply andb_true_iff in Hc. destruct Hc as (Hmore & Hseq).
  destruct Hk as [-> | ->]; [|discriminate].
  change (bytes (scanning s0 i 0)) with (bytes s0) in Hmore.
  change (itr (scanning s0 i 0)) with i in Hmore.
  destruct (getitem_in_range (map byte_val (bytes s0)) i) as (b & Hget & Hin).
  { apply Z.ltb_lt in Hmore. unfold len in *. rewrite length_map. lia. }
  apply in_map_iff in Hin. destruct Hin as (x & <- & Hx).
  pose proof (proj1 (Forall_forall _ _) no_signature_byte x Hx) as Hb.
  rewrite (scan_body_no_signature s0 i (byte_val x) Hget Hb Hmore).
  exists tt. eexists. split; [reflexivity|].
  exists (i + 1). eexists. split; [lia|]. split; [|reflexivity].
  destruct (byte_val x =? 255); [right | left]; reflexivity.
Qed.

Lemma read_events_no_signature (s : MidiFile) :
  only_scanned s0 s ->
  read_events s = OutOfFuel \/
  exists u s', read_events s = OK (u, s') /\ only_scanned s0 s'.
Proof.
  intros HJ.
  change (read_events s)
    with (while (fuel_of s) (fun _ s => itr s + 1 <? len (bytes s))
            (fun _ => scan_pass (fuel_of s)) tt s).
  generalize (fuel_of s). intros fuel.
  apply while_runs; [|exact HJ]. clear s HJ.
  intros [] s (i & k & Hi & Hk & ->) _.
  rewrite scan_pass_scanning.
  apply scan_loop_no_signature.
  exists i, 0. split; [exact Hi|]. split; [left|]; reflexivity.
Qed.

End NoSignature.

(** X20: the decoder does not validate its input.  A buffer that holds no
    byte 0x4D, the first byte of both chunk signatures, is decoded without
    error: only the scanner runs, the header fields keep their initial value
    -1, the tempo is the default tempo and no note is decoded.  The export
    then writes [song.json] with an empty note list and raises
    [IndexError]. *)
Theorem buffer_without_signature_decodes_to_nothing (content : list byte)
    (default_tempo : Z) (w : files) :
  Forall (fun b => byte_val b <> 0x4D) content ->
  exists s,
    MidiFile_new content (Some default_tempo) = OK s /\
    only_scanned (init_state content default_tempo) s /\
    notes s = [] /\
    (header_length s, format s, tracks s, division s) = (-1, -1, -1, -1) /\
    tempo s = default_tempo /\
    convert content (Some default_tempo) w
    = (Raise IndexError,
       mkFiles (Some (mkSong default_tempo [])) (sheet_txt w)).
Proof.
  intros Hno.
  set (s0 := init_state content default_tempo).
  assert (Hrun : exists u s, read_events s0 = OK (u, s) /\ only_scanned s0 s).
  { destruct (read_events_no_signature s0 Hno s0) as [Hout | H].
    - exists 0, 0. split; [lia|]. split; [left|]; reflexivity.
    - exfalso. revert Hout.
      apply (read_events_ends (List.length content)); [cbn; lia | reflexivity].
    - exact H. }
  destruct Hrun as ([] & s & Hrun & Hs).
  assert (Hnew : MidiFile_new content (Some default_tempo) = OK s).
  { unfold MidiFile_new. fold s0. rewrite Hrun. reflexivity. }
  exists s. split; [exact Hnew|]. split; [exact Hs|].
  destruct Hs as (i & k & _ & _ & ->).
  split; [reflexivity|]. split; [reflexivity|]. split; [reflexivity|].
  unfold convert. rewrite Hnew. apply export_of_empty_notes. reflexivity.
Qed.

Lemma buffer_without_signature_decodes_to_nothing_witness :
  exists s,
    MidiFile_new (bytes_of [0x00; 0xFF; 0x90; 0x3C; 0x64]) (Some 90) = OK s /\
    notes s = [] /\
    convert (bytes_of [0x00; 0xFF; 0x90; 0x3C; 0x64]) (Some 90) no_files
    = (Raise IndexError, mkFiles (Some (mkSong 90 [])) None).
Proof.
  destruct (buffer_without_signature_decodes_to_nothing
              (bytes_of [0x00; 0xFF; 0x90; 0x3C; 0x64]) 90 no_files)
    as (s & Hnew & _ & Hnotes & _ & _ & Hconv).
  - repeat (constructor; [vm_compute; discriminate|]). constructor.
  - exists s. split; [exact Hnew|]. split; [exact Hnotes | exact Hconv].
Defined.

(** * Meta-events other than End of Track and text *)

Lemma meta_event_prefix (delta_t : Z) (s : MidiFile) (ty n : Z)
    (rest : list Z) :
  0 <= itr s ->
  at_cursor s = ty :: n :: rest ->
  n < 0x80 ->
  read_midi_meta_event delta_t s
  = (if ty =? 0x2F then
       modify (fun s => set_itr (itr s + 2) s) ;;;
       ret false
     else
       (if mem ty text_event_types then
          ret tt
        else if ty =? 0x51 then
          v <- get_int 3 ;;
          t <- lift (py_round (PrimFloat.mul (float_of_int v) tempo_factor)) ;;
          modify (set_tempo t)
        else
          modify (fun s => set_itr (itr s + n) s)) ;;;
       ret true)
      (set_itr (itr s + 2) (set_trace (trace s ++ [AtMeta ty]) s)).
Proof.
  intros Hi Hc Hn.
  assert (H0 : nth_error (at_cursor s) 0 = Some ty) by (rewrite Hc; reflexivity).
  unfold read_midi_meta_event.
  unfold bind at 1. unfold bind at 1. unfold gets at 1.
  read_byte s 0%nat ty.
  unfold bind at 1. unfold emit at 1. unfold modify at 1.
  unfold bind at 1. unfold modify at 1.
  unfold bind at 1.
  erewrite (read_length_one_byte _ n rest); [| cbn; lia | | exact Hn].
  - cbn [itr set_itr set_trace].
    replace (itr s + 1 + 1) with (itr s + 2) by lia. reflexivity.
  - change (at_cursor (set_itr (itr s + 1) s) = n :: rest).
    eapply at_cursor_next; eassumption.
Qed.

(** X21: a meta-event of a type that is not End of Track, not a text type
    and not Set Tempo, with a length of one byte: [read_midi_meta_event]
    moves the cursor over the type, the length and the declared payload
    without reading the payload (no byte of it has to exist), changes nothing
    else and lets the track go on. *)
Theorem other_meta_event_skips_payload (delta_t : Z) (s : MidiFile)
    (ty n : Z) (rest : list Z) :
  0 <= itr s ->
  at_cursor s = ty :: n :: rest ->
  n < 0x80 ->
  ty <> 0x2F -> ty <> 0x51 -> mem ty text_event_types = false ->
  read_midi_meta_event delta_t s
  = OK (true, set_itr (itr s + 2 + n)
                (set_trace (trace s ++ [AtMeta ty]) s)).
Proof.
  intros Hi Hc Hn H2f H51 Htext.
  rewrite (meta_event_prefix delta_t s ty n rest Hi Hc Hn).
  apply Z.eqb_neq in H2f, H51. rewrite H2f, Htext, H51.
  reflexivity.
Qed.

Lemma other_meta_event_skips_payload_witness :
  read_midi_meta_event 0 (at_offset [0x7F; 0x05; 0x61] 0)
  = OK (true, set_itr 7
                (set_trace [AtMeta 0x7F] (at_offset [0x7F; 0x05; 0x61] 0))).
Proof.
  apply (other_meta_event_skips_payload 0 (at_offset [0x7F; 0x05; 0x61] 0)
           0x7F 0x05 [0x61]).
  - cbn. lia.
  - reflexivity.
  - lia.
  - discriminate.
  - discriminate.
  - reflexivity.
Defined.

(** X22: Set Tempo does not use its declared length.  Whatever the length
    byte says, [read_midi_meta_event] reads the three bytes that follow it
    (fewer at the end of the buffer), stores the rounded product of their
    big-endian value with 0.00024 as tempo and leaves the cursor three bytes
    after the length byte. *)
Theorem set_tempo_ignores_declared_length (delta_t : Z) (s : MidiFile)
    (n : Z) (rest : list Z) (t : Z) :
  0 <= itr s ->
  at_cursor s = 0x51 :: n :: rest ->
  n < 0x80 ->
  py_round (PrimFloat.mul (float_of_int (be_value (firstn 3 rest)))
              tempo_factor) = OK t ->
  read_midi_meta_event delta_t s
  = OK (true, set_tempo t
                (set_itr (itr s + 5)
                   (set_trace (trace s ++ [AtMeta 0x51]) s))).
Proof.
  intros Hi Hc Hn Hround.
  rewrite (meta_event_prefix delta_t s 0x51 n rest Hi Hc Hn).
  cbn [Z.eqb Pos.eqb]. change (mem 0x51 text_event_types) with false.
  cbv iota. unfold bind at 1. unfold bind at 1. unfold bind at 1.
  rewrite get_int_at_cursor by (cbn; lia).
  change (Z.to_nat 3) with 3%nat.
  match goal with
  | |- context [at_cursor ?u] =>
      rewrite (at_cursor_skip s u 2) by first [assumption | reflexivity | cbn; lia]
  end.
  rewrite Hc. cbn [skipn]. rewrite Hround. unfold lift, modify, ret.
  cbn [itr set_itr set_trace].
  replace (itr s + 2 + 3) with (itr s + 5) by lia. reflexivity.
Qed.

Lemma set_tempo_ignores_declared_length_witness :
  read_midi_meta_event 0 (at_offset [0x51; 0x00; 0x07; 0xA1; 0x20; 0x00] 0)
  = OK (true, set_tempo 120
                (set_itr 5
                   (set_trace [AtMeta 0x51]
                      (at_offset [0x51; 0x00; 0x07; 0xA1; 0x20; 0x00] 0)))).
Proof.
  apply (set_tempo_ignores_declared_length 0
           (at_offset [0x51; 0x00; 0x07; 0xA1; 0x20; 0x00] 0)
           0x00 [0x07; 0xA1; 0x20; 0x00] 120).
  - cbn. lia.
  - reflexivity.
  - lia.
  - vm_compute. reflexivity.
Defined.

(** * From the file to the sheet *)

Lemma scale_has_no_newline (c : ascii) :
  In c (list_ascii_of_string VIRTUAL_PIANO_SCALE) ->
  Ascii.eqb c "010"%char = false.
Proof.
  intros H. cbn in H.
  repeat (destruct H as [<- | H]; [reflexivity|]). contradiction.
Qed.

Lemma scale_chord_no_newline (x : string) :
  Forall (fun c => In c (list_ascii_of_string VIRTUAL_PIANO_SCALE))
    (list_ascii_of_string x) ->
  count_newlines x = 0%nat.
Proof.
  induction x as [|c x IH]; cbn [list_ascii_of_string count_newlines];
    intros H; [reflexivity|].
  apply Forall_cons_iff in H. destruct H as (Hc & Hx).
  rewrite (scale_has_no_newline c Hc), (IH Hx). reflexivity.
Qed.

Lemma consolidated_chords (l : list note) :
  Forall (fun n => scale_symbol (snd n)) l ->
  Forall (fun ch =>
            NoDup (list_ascii_of_string (snd ch)) /\
            Forall (fun c => In c (list_ascii_of_string VIRTUAL_PIANO_SCALE))
              (list_ascii_of_string (snd ch)))
    (consolidated l).
Proof.
  intros Hl. apply Forall_forall. intros ch Hch. split.
  - unfold consolidated in Hch. apply in_map_iff in Hch.
    destruct Hch as (n & <- & _). cbn [snd].
    rewrite unique_symbols_closed, list_ascii_of_string_of_list_ascii.
    apply first_occurrences_NoDup.
  - apply Forall_forall. intros c Hc.
    assert (Hhas : has (consolidated l) (fst ch) c).
    { apply Exists_exists. exists ch. split; [exact Hch|].
      split; [apply Qeq_refl | exact Hc]. }
    apply (proj1 (has_consolidated l (fst ch) c)) in Hhas.
    apply Exists_exists in Hhas.
    destruct Hhas as (n & Hn & _ & Hin).
    pose proof (proj1 (Forall_forall _ _) Hl n Hn) as (c0 & Hsym & Hscale).
    rewrite Hsym in Hin. cbn in Hin. destruct Hin as [<- | []]. exact Hscale.
Qed.

Lemma sheet_rows_newlines (rows : list (list note)) (last : list note) :
  Forall (fun row => List.length row = 8%nat) rows ->
  (List.length last < 8)%nat ->
  Forall (fun n => count_newlines (snd n) = 0%nat) (List.concat rows ++ last) ->
  Z.of_nat (count_newlines (sheet_rows rows last)) = len rows.
Proof.
  intros Hrows Hlast Hnl.
  rewrite <- (sheet_text_rows rows last 0 ltac:(lia) eq_refl Hrows Hlast).
  rewrite sheet_text_newlines by (lia || exact Hnl).
  cbn [Z.add]. change (0 / 8) with 0. rewrite Z.sub_0_r.
  unfold len. rewrite length_app.
  assert (Hc : List.length (List.concat rows) = (8 * List.length rows)%nat).
  { clear - Hrows. induction Hrows as [|row rows Hrow _ IH]; cbn [List.concat];
      [reflexivity|]. rewrite length_app, Hrow, IH. cbn [List.length]. lia. }
  rewrite Hc. symmetry.
  apply Z.div_unique with (r := Z.of_nat (List.length last)); lia.
Qed.

(** X23: from the file to the two outputs.  When the decoder returns with at
    least one note, the conversion returns and writes both files.  The chords
    of [song.json] have strictly increasing times and every chord holds
    symbols of [VIRTUAL_PIANO_SCALE] only, each once.  The sheet is the chords
    in rows of 8 and a shorter last row: the cells of each row, a line feed
    after the eighth cell of every row and none after the last row; these are
    the only line feeds of the sheet. *)
Theorem decoded_song_is_exported (content : list byte)
    (default_tempo : option Z) (w : files) (s : MidiFile) :
  MidiFile_new content default_tempo = OK s ->
  notes s <> [] ->
  exists rows last,
    consolidated (notes s) = List.concat rows ++ last /\
    Forall (fun row => List.length row = 8%nat) rows /\
    (List.length last < 8)%nat /\
    convert content default_tempo w
    = (OK (set_notes (consolidated (notes s)) s),
       mkFiles (Some (mkSong (tempo s) (consolidated (notes s))))
         (Some (sheet_rows rows last))) /\
    Z.of_nat (count_newlines (sheet_rows rows last)) = len rows /\
    StronglySorted time_lt (consolidated (notes s)) /\
    Forall (fun ch =>
              NoDup (list_ascii_of_string (snd ch)) /\
              Forall (fun c => In c (list_ascii_of_string VIRTUAL_PIANO_SCALE))
                (list_ascii_of_string (snd ch)))
      (consolidated (notes s)).
Proof.
  intros Hnew Hne.
  assert (Hscale : Forall (fun n => scale_symbol (snd n)) (notes s)).
  { unfold MidiFile_new in Hnew.
    destruct (read_events _) as [[[] s1]|e|] eqn:Hrun; try discriminate.
    injection Hnew as ->.
    destruct (notes_grow_read_events _ _ _ Hrun) as (added & Hn & Hf).
    rewrite Hn. exact Hf. }
  pose proof (consolidated_chords (notes s) Hscale) as Hchords.
  destruct (rows_of_chords (consolidated (notes s)))
    as (rows & last & Hl & Hrows & Hlast).
  exists rows, last.
  split; [exact Hl|]. split; [exact Hrows|]. split; [exact Hlast|].
  split; [|split; [|split; [|exact Hchords]]].
  - unfold convert. rewrite Hnew.
    unfold process_notes. rewrite consolidate_closed.
    unfold generate_piano_sheet. cbn [notes set_notes tempo song_json].
    apply consolidated_nonempty in Hne.
    rewrite <- (sheet_text_rows rows last 0 ltac:(lia) eq_refl Hrows Hlast).
    rewrite <- Hl.
    destruct (consolidated (notes s)) as [|n l] eqn:E; [contradiction|].
    reflexivity.
  - apply sheet_rows_newlines; [exact Hrows | exact Hlast |].
    rewrite <- Hl. eapply Forall_impl; [|exact Hchords].
    intros ch (_ & Hin). apply scale_chord_no_newline. exact Hin.
  - apply Sorted_StronglySorted; [exact time_lt_trans | apply consolidated_sorted].
Qed.

Lemma decoded_song_is_exported_witness :
  exists s rows last,
    MidiFile_new (bytes_of file_scenario) None = OK s /\
    consolidated (notes s) = List.concat rows ++ last /\
    convert (bytes_of file_scenario) None no_files
    = (OK (set_notes (consolidated (notes s)) s),
       mkFiles (Some (mkSong (tempo s) (consolidated (notes s))))
         (Some (sheet_rows rows last))).
Proof.
  eexists.
  match goal with
  | |- exists rows last, MidiFile_new ?c ?d = OK ?s /\ _ =>
      assert (Hnew : MidiFile_new c d = OK s) by (vm_compute; reflexivity);
      destruct (decoded_song_is_exported c d no_files s Hnew)
        as (rows & last & Hl & _ & _ & Hconv & _);
        [vm_compute; discriminate|];
      exists rows, last; split; [exact Hnew | split; [exact Hl | exact Hconv]]
  end.
Defined.

(** * The decoder state across track chunks *)

(** One pass of the event loop over a Note On under running status. *)
Lemma track_pass_running_note (flag : bool) (u : MidiFile)
    (delta_t key velocity : Z) (rest : list Z) (time : Q) (sym : ascii) :
  0 <= itr u ->
  at_cursor u = delta_t :: key :: velocity :: rest ->
  delta_t < 0x80 -> key < 0x80 -> 0 < velocity ->
  running_status_set u = true ->
  Z.shiftr (running_status u) 4 = 9 ->
  truediv (delta_time u + delta_t) (division u) = OK time ->
  string_getitem VIRTUAL_PIANO_SCALE (map_key_to_piano key)
  = OK (String sym EmptyString) ->
  track_event_body flag u
  = OK (flag, set_notes (notes u ++ [(time, String sym EmptyString)])
                (set_itr (itr u + 1 + 1 + 1)
                   (set_delta_time (delta_time u + delta_t) u))).
Proof.
  intros Hi Hc Hdt Hkey Hvel Hset Hst Hdiv Hsym.
  assert (Hk0 : 0 <= key < 256)
    by (apply (at_cursor_bound u); rewrite Hc; right; left; reflexivity).
  assert (H1 : nth_error (at_cursor u) 1 = Some key) by (rewrite Hc; reflexivity).
  assert (H2 : nth_error (at_cursor u) 2 = Some velocity) by (rewrite Hc; reflexivity).
  unfold track_event_body. unfold bind at 1.
  rewrite (read_length_one_byte u delta_t _ Hi Hc Hdt).
  unfold read_voice_event, bind, gets, modify, ret.
  read_byte u 1%nat key.
  destruct (Z.eqb_spec key 255); [lia|].
  destruct (Z.leb_spec 240 key); [lia|]. cbn [andb].
  read_byte u 1%nat key.
  destruct (Z.ltb_spec key 128); [|lia].
  cbn [running_status_set running_status set_itr set_delta_time].
  rewrite Hset. cbn [andb].
  cbn [running_status_set running_status set_itr set_delta_time].
  rewrite Hst. cbn [Z.eqb Pos.eqb].
  read_byte u 1%nat key.
  read_byte u 2%nat velocity.
  destruct (Z.ltb_spec 0 velocity); [|lia].
  cbn [delta_time division set_itr set_delta_time].
  rewrite Hdiv. unfold lift at 1. cbv beta iota.
  rewrite Hsym. unfold lift. cbv beta iota.
  reflexivity.
Qed.

(** One pass of the event loop over End of Track. *)
Lemma track_pass_end_of_track (u : MidiFile) (delta_t n : Z) (rest : list Z) :
  0 <= itr u ->
  at_cursor u = delta_t :: 0xFF :: 0x2F :: n :: rest ->
  delta_t < 0x80 -> n < 0x80 ->
  track_event_body true u
  = OK (false, set_itr (itr u + 1 + 1 + 4)
                 (set_trace (trace u ++ [AtMeta 0x2F])
                    (set_delta_time (delta_time u + delta_t) u))).
Proof.
  intros Hi Hc Hdt Hn.
  assert (H1 : nth_error (at_cursor u) 1 = Some 0xFF) by (rewrite Hc; reflexivity).
  unfold track_event_body. unfold bind at 1.
  rewrite (read_length_one_byte u delta_t _ Hi Hc Hdt).
  unfold bind at 1. unfold modify at 1.
  unfold bind at 1. unfold bind at 1. unfold gets at 1.
  read_byte u 1%nat 0xFF.
  cbn [Z.eqb Pos.eqb]. unfold bind at 1. unfold modify at 1.
  erewrite (meta_end_of_track _ _ n rest); [reflexivity | cbn; lia | | exact Hn].
  match goal with
  | |- at_cursor ?t = _ =>
      rewrite (at_cursor_skip u t 2) by first [assumption | reflexivity | cbn; lia]
  end.
  rewrite Hc. reflexivity.
Qed.

(** A chunk that holds a Note On under running status and End of Track. *)
Lemma chunk_running_note (length : Z) (u : MidiFile)
    (delta_t key velocity : Z) (rest : list Z) (time : Q) (sym : ascii) :
  0 <= itr u ->
  at_cursor u
  = delta_t :: key :: velocity :: 0x00 :: 0xFF :: 0x2F :: 0x00 :: rest ->
  3 < length ->
  delta_t < 0x80 -> key < 0x80 -> 0 < velocity ->
  running_status_set u = true ->
  Z.shiftr (running_status u) 4 = 9 ->
  truediv (delta_time u + delta_t) (division u) = OK time ->
  string_getitem VIRTUAL_PIANO_SCALE (map_key_to_piano key)
  = OK (String sym EmptyString) ->
  read_midi_track_event length u
  = OK (tt, set_itr (itr u + length)
              (set_trace (trace u ++ [AtMeta 0x2F])
                 (set_delta_time (delta_time u + delta_t + 0)
                    (set_notes (notes u ++ [(time, String sym EmptyString)])
                       u)))).
Proof.
  intros Hi Hc Hlen Hdt Hkey Hvel Hset Hst Hdiv Hsym.
  pose proof (track_pass_running_note true u delta_t key velocity _ time sym
                Hi Hc Hdt Hkey Hvel Hset Hst Hdiv Hsym) as Hpass1.
  set (u1 := set_notes (notes u ++ [(time, String sym EmptyString)])
               (set_itr (itr u + 1 + 1 + 1)
                  (set_delta_time (delta_time u + delta_t) u))) in *.
  assert (Hpass2 :
    track_event_body true u1
    = OK (false, set_itr (itr u1 + 1 + 1 + 4)
                   (set_trace (trace u1 ++ [AtMeta 0x2F])
                      (set_delta_time (delta_time u1 + 0) u1)))).
  { apply (track_pass_end_of_track u1 0 0 rest); [cbn; lia | | lia | lia].
    rewrite (at_cursor_skip u u1 3) by first [assumption | reflexivity | cbn; lia].
    rewrite Hc. reflexivity. }
  assert (Hbytes : exists m, List.length (bytes u) = S m).
  { pose proof (at_cursor_length u) as Hl. rewrite Hc in Hl.
    cbn [List.length] in Hl.
    destruct (List.length (bytes u)) as [|m]; [lia | exists m; reflexivity]. }
  destruct Hbytes as (m & Hm).
  unfold read_midi_track_event.
  unfold bind at 1. unfold gets at 1.
  unfold bind at 1. unfold gets at 1.
  unfold fuel_of. rewrite Hm. cbn [while].
  unfold bind at 1. cbv beta.
  replace (itr u - itr u) with 0 by lia.
  destruct (Z.ltb_spec 0 length); [|lia]. cbn [andb].
  unfold bind at 1. rewrite Hpass1.
  replace (itr u1 - itr u) with 3 by (cbn; lia).
  destruct (Z.ltb_spec 3 length); [|lia]. cbn [andb].
  unfold bind at 1. rewrite Hpass2.
  destruct m; cbn [while]; rewrite andb_false_r; reflexivity.
Qed.

Lemma delta_grows_read_mtrk : preserves delta_grows read_mtrk.
Proof. pres; delta_leaf. Qed.

(** C5 (as amended): the decoder state belongs to the file, not to a track
    chunk.  (1) The constructor creates it once, with accumulator 0 and no
    running status; the first track chunk is entered with these values, and
    every later track chunk is entered with the accumulator and the running
    status the track chunk before it ended with.  (2) A track chunk is decoded
    from the state it is entered with: whatever the accumulator and the
    running status at its entry, a chunk that holds a Note On under running
    status and End of Track adds the note of the key, read with the running
    status of the entry and timed from the accumulator of the entry, and ends
    with this accumulator plus the delta-time and with the same running
    status.  (3) No track chunk, whatever it holds, ends with an accumulator
    below the one it was entered with. *)
Theorem decoder_state_carried_across_tracks
    (content : list byte) (default_tempo : option Z) (s : MidiFile)
    (c : MidiFile) (l0 l1 l2 l3 delta_t key velocity : Z) (rest : list Z)
    (time : Q) :
  MidiFile_new content default_tempo = OK s ->
  0 <= itr c ->
  at_cursor c
  = l0 :: l1 :: l2 :: l3 ::
    delta_t :: key :: velocity :: 0x00 :: 0xFF :: 0x2F :: 0x00 :: rest ->
  3 < be_value [l0; l1; l2; l3] ->
  delta_t < 0x80 -> key < 0x80 -> 0 < velocity ->
  running_status_set c = true ->
  Z.shiftr (running_status c) 4 = 9 ->
  truediv (delta_time c + delta_t) (division c) = OK time ->
  carried (0, -1, false) (trace s) (decoder_state s) /\
  (exists sym c',
     string_getitem VIRTUAL_PIANO_SCALE (map_key_to_piano key)
     = OK (String sym EmptyString) /\
     read_mtrk c = OK (tt, c') /\
     notes c' = notes c ++ [(time, String sym EmptyString)] /\
     decoder_state c' = (delta_time c + delta_t, running_status c, true) /\
     itr c' = itr c + 4 + be_value [l0; l1; l2; l3] /\
     trace c'
     = trace c ++ [AtTrack (delta_time c) (running_status c) true;
                   AtMeta 0x2F;
                   AtTrackEnd (delta_time c + delta_t) (running_status c) true]) /\
  (forall c0 c0', read_mtrk c0 = OK (tt, c0') ->
                  delta_time c0 <= delta_time c0').
Proof.
  intros Hnew Hi Hc Hlen Hdt Hkey Hvel Hset Hst Hdiv.
  split; [|split].
  - unfold MidiFile_new in Hnew.
    destruct (read_events _) as [[[] s0]|e|] eqn:Hrun; try discriminate.
    injection Hnew as ->.
    apply state_carried_read_events in Hrun.
    destruct Hrun as (t & Ht & H). cbn in Ht. subst t. exact H.
  - destruct (map_key_to_piano_symbol key) as (sym & Hsym).
    exists sym.
    set (u := set_itr (itr c + 4)
                (set_trace (trace c ++ [AtTrack (delta_time c)
                                          (running_status c)
                                          (running_status_set c)]) c)).
    assert (Hchunk := chunk_running_note (be_value [l0; l1; l2; l3]) u
                        delta_t key velocity rest time sym).
    assert (Hu : at_cursor u
                 = delta_t :: key :: velocity :: 0 :: 255 :: 47 :: 0 :: rest).
    { rewrite (at_cursor_skip c u 4) by first [assumption | reflexivity | cbn; lia].
      rewrite Hc. reflexivity. }
    specialize (Hchunk ltac:(cbn; lia) Hu Hlen Hdt Hkey Hvel Hset Hst Hdiv Hsym).
    eexists. split; [exact Hsym|]. split.
    + unfold read_mtrk.
      unfold bind at 1. unfold gets at 1.
      unfold bind at 1. unfold emit at 1. unfold modify at 1.
      unfold bind at 1.
      rewrite get_int_at_cursor by (cbn; lia).
      change (at_cursor (set_trace _ c)) with (at_cursor c).
      change (Z.to_nat 4) with 4%nat. rewrite Hc. cbn [firstn].
      cbn [decoder_state fst snd itr set_trace].
      fold u. unfold bind at 1. rewrite Hchunk.
      unfold bind, gets, emit, modify. reflexivity.
    + subst u.
      cbn [notes decoder_state delta_time running_status running_status_set
             itr trace set_trace set_itr set_delta_time set_notes fst snd].
      rewrite ?Z.add_0_r, <- !app_assoc. cbn [app].
      unfold decoder_state.
      cbn [delta_time running_status running_status_set
             set_trace set_itr set_delta_time set_notes].
      rewrite ?Hset. repeat split; reflexivity.
  - intros c0 c0' H. exact (delta_grows_read_mtrk _ _ _ H).
Qed.

Lemma decoder_state_carried_across_tracks_witness :
  carried (0, -1, false) (trace decoded_two_tracks)
    (decoder_state decoded_two_tracks) /\
  exists sym c',
    string_getitem VIRTUAL_PIANO_SCALE (map_key_to_piano 64)
    = OK (String sym EmptyString) /\
    read_mtrk
      (set_running_status_set true
         (set_running_status 0x90
            (set_delta_time 96
               (set_division 96
                  (at_offset [0; 0; 0; 7; 48; 64; 100; 0; 0xFF; 0x2F; 0] 0)))))
    = OK (tt, c') /\
    notes c' = [((3 # 2)%Q, String sym EmptyString)] /\
    decoder_state c' = (144, 0x90, true).
Proof.
  destruct (decoder_state_carried_across_tracks
              (bytes_of file_two_tracks) (Some 90) decoded_two_tracks
              (set_running_status_set true
                 (set_running_status 0x90
                    (set_delta_time 96
                       (set_division 96
                          (at_offset [0; 0; 0; 7; 48; 64; 100; 0; 0xFF; 0x2F; 0] 0)))))
              0 0 0 7 48 64 100 [] (3 # 2)%Q)
    as (Hcarried & (sym & c' & Hsym & Hrun & Hnotes & Hstate & _) & _).
  - vm_compute. reflexivity.
  - cbn. lia.
  - reflexivity.
  - cbn. lia.
  - lia.
  - lia.
  - lia.
  - reflexivity.
  - reflexivity.
  - vm_compute. reflexivity.
  - split; [exact Hcarried|].
    exists sym, c'. split; [exact Hsym|]. split; [exact Hrun|].
    split; [exact Hnotes | exact Hstate].
Defined.
